(** * Connect-4 SmartAgent: a shallow embedding of [exercice3/smart_agent.py]

    The agent reads a numpy board of shape (6,7,2), copies it before each
    hypothetical move and writes into the copy.  Boards are therefore
    modelled as references into a store of arrays; every method of the
    agent is a computation over that store which may raise a Python
    exception. *)

From stdpp Require Import base numbers list strings.
From Stdlib Require Import ZArith Lia Sorted Ascii.

Local Open Scope Z_scope.

(** ** numpy arrays *)

(** A three-dimensional C-contiguous array: its shape and its flat buffer. *)
Record ndarray : Type := NdArray {
  shape : nat * nat * nat;
  data : list Z
}.

(** Index normalisation along one axis of extent [n]: indices in [0,n) are
    taken as they are, indices in [-n,0) count from the end, everything
    else is an IndexError. *)
Definition np_index (n : nat) (i : Z) : option nat :=
  if (0 <=? i) && (i <? Z.of_nat n) then Some (Z.to_nat i)
  else if (i <? 0) && (- Z.of_nat n <=? i) then Some (Z.to_nat (i + Z.of_nat n))
  else None.

Definition offset (a : ndarray) (r c ch : Z) : option nat :=
  let '(n0, n1, n2) := shape a in
  i ← np_index n0 r;
  j ← np_index n1 c;
  k ← np_index n2 ch;
  Some ((i * n1 + j) * n2 + k)%nat.

(** [a[r, c, ch]] *)
Definition arr_get (a : ndarray) (r c ch : Z) : option Z :=
  o ← offset a r c ch; data a !! o.

(** [a[r, c, ch] = v] *)
Definition arr_set (a : ndarray) (r c ch v : Z) : option ndarray :=
  o ← offset a r c ch;
  if decide (o < length (data a))%nat
  then Some (NdArray (shape a) (<[o := v]> (data a)))
  else None.

(** ** The store and the monad of agent computations *)

Inductive exn : Type := IndexError | TypeError.

(** [Stuck] is not a Python outcome: it marks a run of the model that
    exhausted its loop fuel or followed a reference that was never
    allocated.  The theorems below show it does not occur. *)
Inductive outcome (A : Type) : Type :=
| Ret (a : A)
| Raise (e : exn)
| Stuck.
Arguments Ret {A} a.
Arguments Raise {A} e.
Arguments Stuck {A}.

(** References are positions in the store; the store only grows. *)
Abbreviation ref := nat (only parsing).
Abbreviation heap := (list ndarray) (only parsing).
Definition M (A : Type) : Type := heap → outcome A * heap.

Definition ret {A} (a : A) : M A := λ h, (Ret a, h).
Definition raise {A} (e : exn) : M A := λ h, (Raise e, h).
Definition stuck {A} : M A := λ h, (Stuck, h).
Definition bind {A B} (m : M A) (k : A → M B) : M B := λ h,
  match m h with
  | (Ret a, h') => k a h'
  | (Raise e, h') => (Raise e, h')
  | (Stuck, h') => (Stuck, h')
  end.

Notation "'do' x <- m ; k" := (bind m (λ x, k))
  (at level 10, x name, m at level 100, k at level 200).
Notation "'do_' m ; k" := (bind m (λ _, k))
  (at level 10, m at level 100, k at level 200).

(** [board[r, c, ch]] *)
Definition load (b : ref) (r c ch : Z) : M Z := λ h,
  match h !! b with
  | Some a =>
      match arr_get a r c ch with
      | Some v => (Ret v, h)
      | None => (Raise IndexError, h)
      end
  | None => (Stuck, h)
  end.

(** [board[r, c, ch] = v] *)
Definition store (b : ref) (r c ch v : Z) : M unit := λ h,
  match h !! b with
  | Some a =>
      match arr_set a r c ch v with
      | Some a' => (Ret tt, <[b := a']> h)
      | None => (Raise IndexError, h)
      end
  | None => (Stuck, h)
  end.

(** [board.copy()]: a fresh array with the same contents. *)
Definition np_copy (b : ref) : M ref := λ h,
  match h !! b with
  | Some a => (Ret (length h), h ++ [a])
  | None => (Stuck, h)
  end.

(** [range(n)] *)
Definition range (n : nat) : list Z := map Z.of_nat (seq 0 n).

(** [random.choice(seq)]; [rnd] is the value drawn by the generator. *)
Definition random_choice (rnd : nat) (l : list Z) : M Z :=
  match l with
  | [] => raise IndexError
  | x :: _ => ret (nth (rnd mod length l) l x)
  end.

(** ** SmartAgent *)

(** [_get_valid_actions] *)
Definition _get_valid_actions (action_mask : list Z) : list Z :=
  List.filter
    (λ col, match action_mask !! Z.to_nat col with
            | Some v => v =? 1
            | None => false
            end)
    (range (length action_mask)).

(** The loop of [_get_next_row] over the rows still to be visited. *)
Fixpoint next_row_loop (board : ref) (col : Z) (rows : list Z) : M (option Z) :=
  match rows with
  | [] => ret None
  | row :: rows' =>
      do x <- load board row col 0;
      if x =? 0 then
        do y <- load board row col 1;
        if y =? 0 then ret (Some row) else next_row_loop board col rows'
      else next_row_loop board col rows'
  end.

(** [_get_next_row]: rows are visited in the order of [range(5, -1, -1)]. *)
Definition _get_next_row (board : ref) (col : Z) : M (option Z) :=
  next_row_loop board col [5; 4; 3; 2; 1; 0].

(** One of the two [while] loops of [_check_win_from_position]: starting at
    [(r, c)] with the running [count], step by [(sr, sc)] as long as the
    cell is on the grid and set for [channel].  The positive scan steps by
    [(dr, dc)], the negative one by [(-dr, -dc)].  Python's [while] has no
    bound; [fuel] bounds the iterations of the model, and a scan along one
    of the four axes ends within eight of them, so that every [fuel] of 8
    or more gives what the loop computes. *)
Fixpoint count_while (fuel : nat) (board : ref) (channel sr sc r c count : Z) : M Z :=
  match fuel with
  | O => stuck
  | S fuel' =>
      if (0 <=? r) && (r <? 6) && (0 <=? c) && (c <? 7) then
        do v <- load board r c channel;
        if v =? 1
        then count_while fuel' board channel sr sc (r + sr) (c + sc) (count + 1)
        else ret count
      else ret count
  end.

Definition directions : list (Z * Z) := [(0, 1); (1, 0); (-1, 1); (1, 1)].

(** The [for dr, dc in directions] loop of [_check_win_from_position]. *)
Fixpoint check_win_loop (fuel : nat) (board : ref) (row col channel : Z)
    (dirs : list (Z * Z)) : M bool :=
  match dirs with
  | [] => ret false
  | (dr, dc) :: dirs' =>
      let count := 1 in
      do count <- count_while fuel board channel dr dc (row + dr) (col + dc) count;
      do count <- count_while fuel board channel (- dr) (- dc) (row - dr) (col - dc) count;
      if count >=? 4 then ret true
      else check_win_loop fuel board row col channel dirs'
  end.

(** [_check_win_from_position] *)
Definition _check_win_from_position (fuel : nat) (board : ref) (row col channel : Z) : M bool :=
  check_win_loop fuel board row col channel directions.

(** [_find_winning_move] *)
Fixpoint _find_winning_move (fuel : nat) (observation : ref) (valid_actions : list Z)
    (channel : Z) : M (option Z) :=
  match valid_actions with
  | [] => ret None
  | col :: rest =>
      do row <- _get_next_row observation col;
      match row with
      | None => _find_winning_move fuel observation rest channel
      | Some row =>
          do board_copy <- np_copy observation;
          do_ store board_copy row col channel 1;
          do w <- _check_win_from_position fuel board_copy row col channel;
          if w then ret (Some col)
          else _find_winning_move fuel observation rest channel
      end
  end.

(** The [for next_col in range(7)] loop of [_creates_double_threat]. *)
Fixpoint double_threat_loop (fuel : nat) (board_copy : ref) (channel : Z)
    (cols : list Z) (winning_moves : Z) : M bool :=
  match cols with
  | [] => ret false
  | next_col :: cols' =>
      do next_row <- _get_next_row board_copy next_col;
      match next_row with
      | None => double_threat_loop fuel board_copy channel cols' winning_moves
      | Some next_row =>
          do board_copy2 <- np_copy board_copy;
          do_ store board_copy2 next_row next_col channel 1;
          do w <- _check_win_from_position fuel board_copy2 next_row next_col channel;
          let winning_moves := if w then winning_moves + 1 else winning_moves in
          if winning_moves >=? 2 then ret true
          else double_threat_loop fuel board_copy channel cols' winning_moves
      end
  end.

(** [_creates_double_threat] *)
Definition _creates_double_threat (fuel : nat) (board : ref) (col channel : Z) : M bool :=
  do row <- _get_next_row board col;
  match row with
  | None => ret false
  | Some row =>
      do board_copy <- np_copy board;
      do_ store board_copy row col channel 1;
      let winning_moves := 0 in
      double_threat_loop fuel board_copy channel (range 7) winning_moves
  end.

(** The loops of rules 3 and 4 of [choose_action]: the first column of
    [valid_actions] for which [_creates_double_threat] answers [True]. *)
Fixpoint threat_rule (fuel : nat) (board : ref) (channel : Z) (cols : list Z) : M (option Z) :=
  match cols with
  | [] => ret None
  | col :: cols' =>
      do t <- _creates_double_threat fuel board col channel;
      if t then ret (Some col) else threat_rule fuel board channel cols'
  end.

Definition center_preference : list Z := [3; 2; 4; 1; 5; 0; 6].

(** [col in valid_actions] *)
Definition py_in (col : Z) (l : list Z) : bool := existsb (Z.eqb col) l.

(** The two observation formats [choose_action] accepts. *)
Inductive observation : Type :=
| ObsDict (obs : ref) (mask : list Z)
| ObsArray (obs : ref).

Definition obs_board (o : observation) : ref :=
  match o with ObsDict b _ => b | ObsArray b => b end.

Definition obs_mask (o : observation) (action_mask : option (list Z)) : option (list Z) :=
  match o, action_mask with
  | ObsDict _ m, None => Some m
  | _, am => am
  end.

(** [choose_action] *)
Definition choose_action (fuel rnd : nat) (o : observation) (action_mask : option (list Z)) : M Z :=
  let board := obs_board o in
  match obs_mask o action_mask with
  | None => raise TypeError
  | Some action_mask =>
      let valid_actions := _get_valid_actions action_mask in
      do winning_move <- _find_winning_move fuel board valid_actions 0;
      match winning_move with
      | Some c => ret c
      | None =>
      do blocking_move <- _find_winning_move fuel board valid_actions 1;
      match blocking_move with
      | Some c => ret c
      | None =>
      do t <- threat_rule fuel board 0 valid_actions;
      match t with
      | Some c => ret c
      | None =>
      do t <- threat_rule fuel board 1 valid_actions;
      match t with
      | Some c => ret c
      | None =>
      match List.find (λ col, py_in col valid_actions) center_preference with
      | Some c => ret c
      | None => random_choice rnd valid_actions
      end end end end end
  end.

(** ** Concrete boards *)

(** [np.zeros((6, 7, 2))] *)
Definition zeros : ndarray := NdArray (6, 7, 2)%nat (replicate 84 0).

(** The array after [a[r, c, ch] = 1] (unchanged where that raises). *)
Definition place (a : ndarray) (r c ch : Z) : ndarray :=
  default a (arr_set a r c ch 1).

(** [a] with a piece written at every listed [(row, col, channel)]. *)
Fixpoint with_pieces (a : ndarray) (ps : list (Z * Z * Z)) : ndarray :=
  match ps with
  | [] => a
  | (r, c, ch) :: ps' => with_pieces (place a r c ch) ps'
  end.

Definition full_mask : list Z := [1; 1; 1; 1; 1; 1; 1].

(** ** Arrays of the board's shape *)

(** The shape every board has: 6 rows, 7 columns, 2 channels. *)
Definition board_shape (a : ndarray) : Prop :=
  shape a = (6, 7, 2)%nat ∧ length (data a) = 84%nat.

(** The value read at [(r, c, ch)], 0 where the read would raise. *)
Definition cell (a : ndarray) (r c ch : Z) : Z := default 0 (arr_get a r c ch).

Definition flat (r c ch : Z) : nat := Z.to_nat ((r * 7 + c) * 2 + ch).

(** ** What the methods compute, as functions of the array read *)

Definition empty_at (a : ndarray) (r c : Z) : bool :=
  (cell a r c 0 =? 0) && (cell a r c 1 =? 0).

(** The row a piece dropped in [col] lands on. *)
Definition landing (a : ndarray) (col : Z) : option Z :=
  List.find (λ r, empty_at a r col) [5; 4; 3; 2; 1; 0].

(** [(r, c)] is on the grid and set for [ch]. *)
Definition lit (a : ndarray) (ch r c : Z) : bool :=
  (0 <=? r) && (r <? 6) && (0 <=? c) && (c <? 7) && (cell a r c ch =? 1).

(** Length of the run of lit cells from [(r, c)] on in steps of
    [(sr, sc)], looking at [n] cells at most. *)
Fixpoint run_length (n : nat) (a : ndarray) (ch sr sc r c : Z) : Z :=
  match n with
  | O => 0
  | S n' =>
      if lit a ch r c then 1 + run_length n' a ch sr sc (r + sr) (c + sc) else 0
  end.

Definition axis_total (a : ndarray) (ch row col : Z) (d : Z * Z) : Z :=
  1 + run_length 8 a ch (fst d) (snd d) (row + fst d) (col + snd d)
    + run_length 8 a ch (- fst d) (- snd d) (row - fst d) (col - snd d).

Definition four (a : ndarray) (row col ch : Z) : bool :=
  existsb (λ d, axis_total a ch row col d >=? 4) directions.

(** Dropping a [ch] piece in [col] completes four. *)
Definition wins (a : ndarray) (col ch : Z) : bool :=
  match landing a col with
  | None => false
  | Some row => four (place a row col ch) row col ch
  end.

(** Number of columns 0..6 in which a [ch] piece completes four. *)
Definition winning_columns (a : ndarray) (ch : Z) : nat :=
  length (List.filter (λ c, wins a c ch) (range 7)).

(** Dropping a [ch] piece in [col] leaves [ch] two or more winning columns. *)
Definition threat (a : ndarray) (col ch : Z) : bool :=
  match landing a col with
  | None => false
  | Some row => (2 <=? winning_columns (place a row col ch) ch)%nat
  end.

(** The column the five rules select among [valid]. *)
Definition policy (a : ndarray) (valid : list Z) : option Z :=
  match List.find (λ c, wins a c 0) valid with
  | Some c => Some c
  | None =>
  match List.find (λ c, wins a c 1) valid with
  | Some c => Some c
  | None =>
  match List.find (λ c, threat a c 0) valid with
  | Some c => Some c
  | None =>
  match List.find (λ c, threat a c 1) valid with
  | Some c => Some c
  | None => List.find (λ c, py_in c valid) center_preference
  end end end end.

(** ** The vocabulary of the specification *)

(** Both occupancy layers of [(r, c)] are empty. *)
Definition vacant (a : ndarray) (r c : Z) : Prop :=
  arr_get a r c 0 = Some 0 ∧ arr_get a r c 1 = Some 0.

(** [(r, c)] is a cell of the grid holding a piece of [ch]. *)
Definition occupied_by (a : ndarray) (ch r c : Z) : Prop :=
  0 ≤ r < 6 ∧ 0 ≤ c < 7 ∧ arr_get a r c ch = Some 1.

(** The [n] cells after [(row, col)] in direction [(sr, sc)] hold pieces of
    [ch] and the next one does not: it is off the grid, empty or the other
    player's. *)
Definition run_of (a : ndarray) (ch row col sr sc n : Z) : Prop :=
  0 ≤ n ∧
  (∀ k, 1 ≤ k ≤ n → occupied_by a ch (row + k * sr) (col + k * sc)) ∧
  ¬ occupied_by a ch (row + (n + 1) * sr) (col + (n + 1) * sc).

(** A piece at [(row, col)] is part of four or more in a line. *)
Definition aligned4 (a : ndarray) (row col ch : Z) : Prop :=
  ∃ dr dc p n,
    (dr, dc) ∈ directions ∧
    run_of a ch row col dr dc p ∧
    run_of a ch row col (- dr) (- dc) n ∧
    4 ≤ 1 + p + n.

(** [r] is the lowest empty row of column [col]. *)
Definition lowest_empty (a : ndarray) (col r : Z) : Prop :=
  0 ≤ r ≤ 5 ∧ vacant a r col ∧ ∀ r', r < r' ≤ 5 → ¬ vacant a r' col.

(** A [ch] piece dropped in [col] completes four in a row. *)
Definition completes (a : ndarray) (col ch : Z) : Prop :=
  ∃ row a',
    lowest_empty a col row ∧ arr_set a row col ch 1 = Some a' ∧
    aligned4 a' row col ch.

(** After a [ch] piece is dropped in [col], two or more of the columns
    0..6 complete four for [ch]. *)
Definition double_threat (a : ndarray) (col ch : Z) : Prop :=
  ∃ row a',
    lowest_empty a col row ∧ arr_set a row col ch 1 = Some a' ∧
    ∃ c1 c2, 0 ≤ c1 < c2 ∧ c2 < 7 ∧ completes a' c1 ch ∧ completes a' c2 ch.

(** The action mask declares column [c] playable. *)
Definition legal (mask : list Z) (c : Z) : Prop :=
  0 ≤ c ∧ mask !! Z.to_nat c = Some 1.

(** [c] is the smallest legal column with property [P]. *)
Definition first_legal (mask : list Z) (P : Z → Prop) (c : Z) : Prop :=
  legal mask c ∧ P c ∧ ∀ c', legal mask c' → c' < c → ¬ P c'.

Definition none_legal (mask : list Z) (P : Z → Prop) : Prop :=
  ∀ c, legal mask c → ¬ P c.

(** [c] is the first legal column of the preference order. *)
Definition first_preferred (mask : list Z) (c : Z) : Prop :=
  ∃ pre post,
    center_preference = pre ++ c :: post ∧ legal mask c ∧
    ∀ c', In c' pre → ¬ legal mask c'.

(** The priority policy: the first rule that applies gives the column. *)
Definition priority_policy (a : ndarray) (mask : list Z) (c : Z) : Prop :=
  first_legal mask (λ c, completes a c 0) c ∨
  none_legal mask (λ c, completes a c 0) ∧
  (first_legal mask (λ c, completes a c 1) c ∨
   none_legal mask (λ c, completes a c 1) ∧
   (first_legal mask (λ c, double_threat a c 0) c ∨
    none_legal mask (λ c, double_threat a c 0) ∧
    (first_legal mask (λ c, double_threat a c 1) c ∨
     none_legal mask (λ c, double_threat a c 1) ∧
     first_preferred mask c))).

(** Three pieces of [ch] in a line next to [(row, col)]: the cells one, two
    and three steps away along one of the four axes, in either sense. *)
Definition three_in_line (a : ndarray) (ch row col : Z) : Prop :=
  ∃ sr sc,
    ((sr, sc) ∈ directions ∨ (- sr, - sc) ∈ directions) ∧
    ∀ k, 1 ≤ k ≤ 3 → occupied_by a ch (row + k * sr) (col + k * sc).

(** The 42 cells of the grid. *)
Definition grid_cells : list (Z * Z) := list_prod (range 6) (range 7).

(** Number of pieces of [ch] on the board. *)
Definition count_pieces (a : ndarray) (ch : Z) : nat :=
  length (List.filter (λ p, lit a ch (fst p) (snd p)) grid_cells).

(** Two boards that agree everywhere except, possibly, at [(row, col)]. *)
Definition same_but_at (a a' : ndarray) (row col : Z) : Prop :=
  ∀ r c ch, 0 ≤ r < 6 → 0 ≤ c < 7 → 0 ≤ ch < 2 → (r, c) ≠ (row, col) →
            arr_get a r c ch = arr_get a' r c ch.

(** [m] never touches an array that exists when it starts. *)
Definition allocates {A} (m : M A) : Prop :=
  ∀ h, ∃ ext, snd (m h) = h ++ ext.

(** ** Sample positions *)

(** Mover pieces on the bottom row, columns 0 to 2. *)
Definition bottom_three : ndarray :=
  with_pieces zeros [(5, 0, 0); (5, 1, 0); (5, 2, 0)].

(** Both players can complete four: the mover in column 3, the opponent in
    column 6. *)
Definition both_can_win : ndarray :=
  with_pieces zeros
    [(5, 0, 0); (5, 1, 0); (5, 2, 0); (5, 6, 1); (4, 6, 1); (3, 6, 1)].

(** The mover has a vertical run of three in column 0 and another in
    column 6; the opponent has played six pieces around them. *)
Definition two_triples : ndarray :=
  with_pieces zeros
    [(5, 0, 0); (4, 0, 0); (3, 0, 0); (5, 6, 0); (4, 6, 0); (3, 6, 0);
     (5, 1, 1); (5, 2, 1); (5, 4, 1); (5, 5, 1); (4, 1, 1); (4, 2, 1)].

Definition only_column_6 : list Z := [0; 0; 0; 0; 0; 0; 1].

(** Opponent pieces on the bottom row, columns 0 to 2. *)
Definition opponent_bottom_three : ndarray :=
  with_pieces zeros [(5, 0, 1); (5, 1, 1); (5, 2, 1)].

(** Mover pieces stacked in column 3. *)
Definition vertical_three : ndarray :=
  with_pieces zeros [(5, 3, 0); (4, 3, 0); (3, 3, 0)].

(** A mover diagonal whose fourth cell (2,3) is empty but not yet
    reachable: column 3 is empty. *)
Definition floating_diagonal : ndarray :=
  with_pieces zeros
    [(5, 0, 0); (4, 1, 0); (3, 2, 0); (5, 1, 1); (5, 2, 1); (4, 2, 1)].

(** A step that leaves the grid after at most seven cells. *)
Definition escaping (sr sc : Z) : Prop :=
  -1 ≤ sr ≤ 1 ∧ -1 ≤ sc ≤ 1 ∧ (sr ≠ 0 ∨ sc ≠ 0).

(** [m] run on [h] returns [v] and only allocates. *)
Definition returns {A} (m : M A) (h : heap) (v : A) : Prop :=
  ∃ ext, m h = (Ret v, h ++ ext).

(** ** The action mask computed from the board

    [get_action_mask] of [exercice4/test_suite.py] and the fall-back of
    [RandomAgent.choose_action] both compute
    [(board.sum(axis=2)[0, :] == 0).astype(np.int8)]. The arrays they build
    are local and never written, so they are values here, not cells of the
    store. *)

(** [a.sum(axis=2)], row by row. *)
Definition np_sum_axis2 (a : ndarray) : list (list Z) :=
  let '(n0, n1, n2) := shape a in
  map (λ i,
         map (λ j,
                foldr Z.add 0
                  (map (λ k, default 0 (data a !! ((i * n1 + j) * n2 + k)%nat))
                       (seq 0 n2)))
             (seq 0 n1))
      (seq 0 n0).

(** [(occupancy[0, :] == 0).astype(np.int8)]; [None] where row 0 does not
    exist and the indexing raises. *)
Definition top_row_free (occupancy : list (list Z)) : option (list Z) :=
  row ← occupancy !! 0%nat;
  Some (map (λ v, if v =? 0 then 1 else 0) row).

(** [get_action_mask] *)
Definition get_action_mask (board : ref) : M (list Z) := λ h,
  match h !! board with
  | Some a =>
      match top_row_free (np_sum_axis2 a) with
      | Some mask => (Ret mask, h)
      | None => (Raise IndexError, h)
      end
  | None => (Stuck, h)
  end.

(** ** RandomAgent ([exercice2/random_agent.py]) *)

(** The agent object: the one attribute its method updates. *)
Record RandomAgent : Type := { moves_count : Z }.

(** What [RandomAgent.choose_action] can raise: the [ValueError] of the
    method itself, the [AttributeError] of [.sum] on a dict that has no
    ["observation"] key, the [IndexError] of row 0 of a board without
    rows. *)
Inductive random_exn : Type := ValueError | AttributeError | RowIndexError.

Inductive random_outcome : Type :=
| Chosen (action : Z)
| Failed (e : random_exn)
| Dangling.

(** The observation the method receives: a dict, whose two keys may be
    missing, or the board itself. *)
Inductive random_observation : Type :=
| RDict (obs : option ref) (mask : option (list Z))
| RArray (obs : ref).

(** [np.nonzero(mask)[0]] *)
Definition np_nonzero (mask : list Z) : list Z :=
  List.filter
    (λ i, match mask !! Z.to_nat i with
          | Some v => negb (v =? 0)
          | None => false
          end)
    (range (length mask)).

(** [RandomAgent.choose_action]; [board] is [None] when the name is bound
    to the dict itself. It returns the outcome and the agent after the
    call. *)
Definition random_choose_action (self : RandomAgent) (rnd : nat)
    (o : random_observation) (action_mask : option (list Z)) (h : heap)
  : random_outcome * RandomAgent :=
  let self := {| moves_count := moves_count self + 1 |} in
  let mask := action_mask in
  let '(mask, board) :=
    match mask, o with
    | None, RDict obs m => (m, obs)
    | _, RDict _ _ => (mask, None)
    | _, RArray b => (mask, Some b)
    end in
  let finish (mask : list Z) :=
    let legal_moves := np_nonzero mask in
    match legal_moves with
    | [] => (Failed ValueError, self)
    | x :: _ => (Chosen (nth (rnd mod length legal_moves) legal_moves x), self)
    end in
  match mask with
  | Some mask => finish mask
  | None =>
      match board with
      | None => (Failed AttributeError, self)
      | Some b =>
          match h !! b with
          | None => (Dangling, self)
          | Some a =>
              match top_row_free (np_sum_axis2 a) with
              | None => (Failed RowIndexError, self)
              | Some mask => finish mask
              end
          end
      end
  end.

(** ** print_board ([exercice1/print_board.py])

    What the function prints is the value of the computation: [out] is the
    text written so far. *)

Definition newline : string := String "010"%char EmptyString.

(** [print(s, end=e)] after [out] has been printed. *)
Definition py_print (out s e : string) : string := out +:+ s +:+ e.

(** ["-" * n] *)
Fixpoint dashes (n : nat) : string :=
  match n with
  | O => EmptyString
  | S n' => "-" +:+ dashes n'
  end.

(** The [for col in range(7)] loop of [print_board]. *)
Fixpoint print_cells (observation : ref) (row : Z) (cols : list Z) (out : string)
  : M string :=
  match cols with
  | [] => ret out
  | col :: cols' =>
      do x <- load observation row col 0;
      if x =? 1 then print_cells observation row cols' (py_print out "X" " ")
      else
        do y <- load observation row col 1;
        if y =? 1 then print_cells observation row cols' (py_print out "O" " ")
        else print_cells observation row cols' (py_print out "." " ")
  end.

(** The [for row in range(6)] loop of [print_board]. *)
Fixpoint print_rows (observation : ref) (rows : list Z) (out : string) : M string :=
  match rows with
  | [] => ret out
  | row :: rows' =>
      let out := py_print out "|" " " in
      do out <- print_cells observation row (range 7) out;
      let out := py_print out "|" newline in
      print_rows observation rows' out
  end.

(** [print_board] *)
Definition print_board (observation : ref) : M string :=
  let out := py_print EmptyString "  0 1 2 3 4 5 6" newline in
  let out := py_print out (" " +:+ dashes 15) newline in
  do out <- print_rows observation (range 6) out;
  let out := py_print out (" " +:+ dashes 15) newline in
  ret out.

(** The character shown for a cell. *)
Definition glyph (a : ndarray) (r c : Z) : ascii :=
  if cell a r c 0 =? 1 then "X"%char
  else if cell a r c 1 =? 1 then "O"%char
  else "."%char.

Fixpoint cells_text (a : ndarray) (r : Z) (cols : list Z) : string :=
  match cols with
  | [] => EmptyString
  | c :: cols' => String (glyph a r c) (String " " (cells_text a r cols'))
  end.

Fixpoint rows_text (a : ndarray) (rows : list Z) : string :=
  match rows with
  | [] => EmptyString
  | r :: rows' =>
      "| " +:+ cells_text a r (range 7) +:+ "|" +:+ newline +:+ rows_text a rows'
  end.

Definition board_text (a : ndarray) : string :=
  "  0 1 2 3 4 5 6" +:+ newline +:+ " " +:+ dashes 15 +:+ newline
  +:+ rows_text a (range 6) +:+ " " +:+ dashes 15 +:+ newline.

(** ** run_tournament ([exercice4/tournament_2.py])

    The games are played by the PettingZoo environment, which is not part
    of the repository: the model takes the winner of each game from
    [play idx1 idx2 game_idx], any function, and follows the bookkeeping
    of the source. What is printed is left out. *)

Module Tournament.

(** The [winner] of a game: ['player_0'], ['player_1'] or [None]. *)
Inductive winner : Type := player_0 | player_1 | no_winner.

(** An entry of [stats]. *)
Record entry : Type := { wins : Z; losses : Z; draws : Z; name : string }.

Definition add_win (e : entry) : entry :=
  {| wins := wins e + 1; losses := losses e; draws := draws e; name := name e |}.
Definition add_loss (e : entry) : entry :=
  {| wins := wins e; losses := losses e + 1; draws := draws e; name := name e |}.
Definition add_draw (e : entry) : entry :=
  {| wins := wins e; losses := losses e; draws := draws e + 1; name := name e |}.

Inductive error : Type := ValueError.

(** What the function returns. *)
Record report : Type := {
  stats : list entry;
  head_to_head : list ((nat * nat) * (Z * Z * Z));
  ranking : list (nat * entry)
}.

(** [combinations(range(n), 2)] *)
Definition combinations2 (n : nat) : list (nat * nat) :=
  flat_map (λ i, map (λ j, (i, j)) (seq (S i) (n - S i))) (seq 0 n).

(** The variables of the loop over the games of one pair. *)
Record pair_state : Type := {
  p_stats : list entry;
  pair_wins0 : Z;
  pair_wins1 : Z;
  pair_draws : Z;
  games_played : Z
}.

(** One iteration of [for game_idx in range(num_games)], after the game
    has given its [winner]. *)
Definition record_game (idx1 idx2 game_idx : nat) (w : winner) (s : pair_state)
  : pair_state :=
  let agent_map0 := if Nat.even game_idx then idx1 else idx2 in
  let agent_map1 := if Nat.even game_idx then idx2 else idx1 in
  let games_played := games_played s + 1 in
  match w with
  | player_0 =>
      let winner_idx := agent_map0 in
      let loser_idx := agent_map1 in
      let st := alter add_win winner_idx (p_stats s) in
      let st := alter add_loss loser_idx st in
      if Nat.even game_idx
      then {| p_stats := st; pair_wins0 := pair_wins0 s + 1;
              pair_wins1 := pair_wins1 s; pair_draws := pair_draws s;
              games_played := games_played |}
      else {| p_stats := st; pair_wins0 := pair_wins0 s;
              pair_wins1 := pair_wins1 s + 1; pair_draws := pair_draws s;
              games_played := games_played |}
  | player_1 =>
      let winner_idx := agent_map1 in
      let loser_idx := agent_map0 in
      let st := alter add_win winner_idx (p_stats s) in
      let st := alter add_loss loser_idx st in
      if Nat.even game_idx
      then {| p_stats := st; pair_wins0 := pair_wins0 s;
              pair_wins1 := pair_wins1 s + 1; pair_draws := pair_draws s;
              games_played := games_played |}
      else {| p_stats := st; pair_wins0 := pair_wins0 s + 1;
              pair_wins1 := pair_wins1 s; pair_draws := pair_draws s;
              games_played := games_played |}
  | no_winner =>
      let st := alter add_draw idx1 (p_stats s) in
      let st := alter add_draw idx2 st in
      {| p_stats := st; pair_wins0 := pair_wins0 s; pair_wins1 := pair_wins1 s;
         pair_draws := pair_draws s + 1; games_played := games_played |}
  end.

(** The loop over the games of the pair [(idx1, idx2)]. *)
Fixpoint play_games (play : nat → nat → nat → winner) (idx1 idx2 : nat)
    (games : list nat) (s : pair_state) : pair_state :=
  match games with
  | [] => s
  | game_idx :: games' =>
      play_games play idx1 idx2 games'
        (record_game idx1 idx2 game_idx (play idx1 idx2 game_idx) s)
  end.

(** The variables of the loop over the pairs. *)
Record loop_state : Type := {
  l_stats : list entry;
  l_head_to_head : list ((nat * nat) * (Z * Z * Z));
  l_games_played : Z
}.

(** The loop [for idx1, idx2 in pairs]. *)
Fixpoint play_pairs (play : nat → nat → nat → winner) (num_games : Z)
    (pairs : list (nat * nat)) (s : loop_state) : loop_state :=
  match pairs with
  | [] => s
  | (idx1, idx2) :: pairs' =>
      let p := play_games play idx1 idx2 (seq 0 (Z.to_nat num_games))
                 {| p_stats := l_stats s; pair_wins0 := 0; pair_wins1 := 0;
                    pair_draws := 0; games_played := l_games_played s |} in
      play_pairs play num_games pairs'
        {| l_stats := p_stats p;
           l_head_to_head :=
             l_head_to_head s
             ++ [((idx1, idx2), (pair_wins0 p, pair_wins1 p, pair_draws p))];
           l_games_played := games_played p |}
  end.

(** Where [x] goes in a list in descending order of wins: after the
    entries that have at least as many. *)
Fixpoint insert_by_wins (x : nat * entry) (l : list (nat * entry))
  : list (nat * entry) :=
  match l with
  | [] => [x]
  | y :: l' =>
      if wins (snd y) <? wins (snd x) then x :: y :: l'
      else y :: insert_by_wins x l'
  end.

(** [sorted(items, key=lambda x: x[1]['wins'], reverse=True)]: the stable
    sort in descending order of wins. *)
Definition sorted_by_wins (items : list (nat * entry)) : list (nat * entry) :=
  foldl (λ acc x, insert_by_wins x acc) [] items.

(** [stats.items()] *)
Definition items (st : list entry) : list (nat * entry) :=
  zip (seq 0 (length st)) st.

(** [run_tournament]; [names] are the [__name__]s of [agents_classes]. *)
Definition run_tournament (play : nat → nat → nat → winner)
    (names : list string) (num_games : Z) : error + report :=
  let n_agents := length names in
  if (n_agents <? 2)%nat then inl ValueError
  else
    let stats :=
      map (λ nm, {| wins := 0; losses := 0; draws := 0; name := nm |}) names in
    let pairs := combinations2 n_agents in
    let s := play_pairs play num_games pairs
               {| l_stats := stats; l_head_to_head := []; l_games_played := 0 |} in
    inr {| stats := l_stats s;
           head_to_head := l_head_to_head s;
           ranking := sorted_by_wins (items (l_stats s)) |}.

(** *** Vocabulary for the properties of the tournament *)

(** Games an entry accounts for. *)
Definition total (e : entry) : Z := wins e + losses e + draws e.

(** Sum of a counter over all the agents. *)
Definition sum_of (f : entry → Z) (st : list entry) : Z :=
  foldr (λ e acc, f e + acc) 0 st.

Definition ind (b : bool) : Z := if b then 1 else 0.

(** What the head-to-head table says about agent [i]: [g1] of the results
    of the pairs where it comes first plus [g2] of those where it comes
    second. *)
Definition ledger (g1 g2 : Z * Z * Z → Z) (i : nat)
    (table : list ((nat * nat) * (Z * Z * Z))) : Z :=
  foldr (λ x acc,
           ind (fst (fst x) =? i)%nat * g1 (snd x)
           + ind (snd (fst x) =? i)%nat * g2 (snd x) + acc) 0 table.

Definition h_first (t : Z * Z * Z) : Z := fst (fst t).
Definition h_second (t : Z * Z * Z) : Z := snd (fst t).
Definition h_draws (t : Z * Z * Z) : Z := snd t.

(** The agent [idx1] of the pair won game [game_idx]: it sits as player_0
    in the even games and as player_1 in the odd ones. *)
Definition first_won (play : nat → nat → nat → winner) (idx1 idx2 game_idx : nat)
  : bool :=
  match play idx1 idx2 game_idx with
  | player_0 => Nat.even game_idx
  | player_1 => negb (Nat.even game_idx)
  | no_winner => false
  end.

Definition second_won (play : nat → nat → nat → winner) (idx1 idx2 game_idx : nat)
  : bool :=
  match play idx1 idx2 game_idx with
  | player_0 => negb (Nat.even game_idx)
  | player_1 => Nat.even game_idx
  | no_winner => false
  end.

Definition drawn (play : nat → nat → nat → winner) (idx1 idx2 game_idx : nat)
  : bool :=
  match play idx1 idx2 game_idx with
  | no_winner => true
  | _ => false
  end.

(** Number of the games in [games] for which [p] holds. *)
Definition tally (p : nat → bool) (games : list nat) : Z :=
  Z.of_nat (length (List.filter p games)).

(** The value of counter [f] for agent [i], 0 for an agent that is not
    in the table. *)
Definition counter (f : entry → Z) (st : list entry) (i : nat) : Z :=
  default 0 (f <$> st !! i).

(** The head-to-head table of [pairs] when each pair plays the games
    [0 .. num_games - 1]: for each pair the games won by its first agent,
    by its second agent, and the draws. *)
Definition results (play : nat → nat → nat → winner) (num_games : Z)
    (pairs : list (nat * nat)) : list ((nat * nat) * (Z * Z * Z)) :=
  map (λ p,
         (p, (tally (first_won play (fst p) (snd p)) (seq 0 (Z.to_nat num_games)),
              tally (second_won play (fst p) (snd p)) (seq 0 (Z.to_nat num_games)),
              tally (drawn play (fst p) (snd p)) (seq 0 (Z.to_nat num_games)))))
      pairs.

(** More wins first; among equal wins the agent listed first. *)
Definition ranked_before (x y : nat * entry) : Prop :=
  wins (snd y) < wins (snd x) ∨
  (wins (snd y) = wins (snd x) ∧ (fst x < fst y)%nat).

(** A sample of game results: the agent listed first in a pair wins when
    it moves first, the other games of the pair are drawn. *)
Definition first_mover_wins (idx1 idx2 game_idx : nat) : winner :=
  if Nat.even game_idx then player_0 else no_winner.

End Tournament.

(** ** Vocabulary for the further properties *)

(** [m] run on [h] ends with outcome [o] and only allocates. *)
Definition finishes {A} (m : M A) (h : heap) (o : outcome A) : Prop :=
  ∃ ext, m h = (o, h ++ ext).


(** Two boards with the same pieces of [ch]. *)
Definition same_channel (a a' : ndarray) (ch : Z) : Prop :=
  ∀ r c, 0 ≤ r < 6 → 0 ≤ c < 7 → arr_get a r c ch = arr_get a' r c ch.

(** An empty cell has only empty cells above it. *)
Definition settled (a : ndarray) : Prop :=
  ∀ r c, 0 ≤ r < 5 → 0 ≤ c < 7 → vacant a (r + 1) c → vacant a r c.

(** [a'] is [a] seen by the other player: the two channels exchanged. *)
Definition mirrored (a a' : ndarray) : Prop :=
  ∀ r c ch, 0 ≤ r < 6 → 0 ≤ c < 7 → 0 ≤ ch < 2 →
            arr_get a' r c (1 - ch) = arr_get a r c ch.

(** Every piece of [ch] on [a] is also on [a']. *)
Definition more_pieces (a a' : ndarray) (ch : Z) : Prop :=
  ∀ r c, occupied_by a ch r c → occupied_by a' ch r c.

(** Every cell of the board holds 0 or 1. *)
Definition binary (a : ndarray) : Prop :=
  ∀ r c ch, 0 ≤ r < 6 → 0 ≤ c < 7 → 0 ≤ ch < 2 →
            arr_get a r c ch = Some 0 ∨ arr_get a r c ch = Some 1.

(** Two mover pieces side by side on the bottom row, open on both sides,
    under two opponent pieces. *)
Definition open_pair : ndarray :=
  with_pieces zeros [(5, 2, 0); (5, 3, 0); (4, 2, 1); (4, 3, 1)].

(** One piece each. *)
Definition first_moves : ndarray :=
  with_pieces zeros [(5, 3, 0); (4, 3, 1)].

(** * Properties *)

Section Arrays.
Variable a : ndarray.
Hypothesis Ha : board_shape a.

Lemma offset_on_grid r c ch :
  0 ≤ r < 6 → 0 ≤ c < 7 → 0 ≤ ch < 2 → offset a r c ch = Some (flat r c ch).
Proof using Ha.
  intros Hr Hc Hch. destruct Ha as [Hs _]. unfold offset, np_index, flat.
  rewrite Hs.
  replace (0 <=? r) with true by (symmetry; apply Z.leb_le; lia).
  replace (r <? Z.of_nat 6) with true by (symmetry; apply Z.ltb_lt; lia).
  replace (0 <=? c) with true by (symmetry; apply Z.leb_le; lia).
  replace (c <? Z.of_nat 7) with true by (symmetry; apply Z.ltb_lt; lia).
  replace (0 <=? ch) with true by (symmetry; apply Z.leb_le; lia).
  replace (ch <? Z.of_nat 2) with true by (symmetry; apply Z.ltb_lt; lia).
  simpl. f_equal. lia.
Qed.

Lemma flat_lt r c ch :
  0 ≤ r < 6 → 0 ≤ c < 7 → 0 ≤ ch < 2 → (flat r c ch < 84)%nat.
Proof. unfold flat. lia. Qed.

Lemma flat_inj r c ch r' c' ch' :
  0 ≤ r < 6 → 0 ≤ c < 7 → 0 ≤ ch < 2 →
  0 ≤ r' < 6 → 0 ≤ c' < 7 → 0 ≤ ch' < 2 →
  flat r c ch = flat r' c' ch' → r = r' ∧ c = c' ∧ ch = ch'.
Proof. unfold flat. lia. Qed.

Lemma arr_get_cell r c ch :
  0 ≤ r < 6 → 0 ≤ c < 7 → 0 ≤ ch < 2 →
  arr_get a r c ch = Some (cell a r c ch).
Proof using Ha.
  intros Hr Hc Hch. unfold cell, arr_get.
  rewrite offset_on_grid by assumption. simpl.
  destruct (lookup_lt_is_Some_2 (data a) (flat r c ch)) as [v Hv].
  { destruct Ha as [_ Hl]. rewrite Hl. by apply flat_lt. }
  by rewrite Hv.
Qed.

Lemma arr_set_on_grid r c ch v :
  0 ≤ r < 6 → 0 ≤ c < 7 → 0 ≤ ch < 2 →
  arr_set a r c ch v = Some (NdArray (shape a) (<[flat r c ch := v]> (data a))).
Proof using Ha.
  intros Hr Hc Hch. unfold arr_set.
  rewrite offset_on_grid by assumption. simpl.
  destruct Ha as [_ Hl]. rewrite Hl.
  destruct (decide (flat r c ch < 84)%nat) as [|Hn]; [done|].
  exfalso. apply Hn. by apply flat_lt.
Qed.

Lemma arr_set_place r c ch :
  0 ≤ r < 6 → 0 ≤ c < 7 → 0 ≤ ch < 2 →
  arr_set a r c ch 1 = Some (place a r c ch).
Proof using Ha.
  intros Hr Hc Hch. unfold place. by rewrite arr_set_on_grid.
Qed.

Lemma place_shape r c ch : board_shape (place a r c ch).
Proof using Ha.
  unfold place, arr_set.
  destruct (offset a r c ch) as [o|]; simpl; [|exact Ha].
  destruct (decide (o < length (data a))%nat); simpl; [|exact Ha].
  destruct Ha as [Hs Hl]. split; simpl; [done|]. by rewrite length_insert.
Qed.

Lemma cell_place_same r c ch :
  0 ≤ r < 6 → 0 ≤ c < 7 → 0 ≤ ch < 2 → cell (place a r c ch) r c ch = 1.
Proof using Ha.
  intros Hr Hc Hch. unfold place. rewrite arr_set_on_grid by assumption.
  simpl. unfold cell, arr_get, offset. simpl.
  fold (offset a r c ch). rewrite offset_on_grid by assumption. simpl.
  rewrite list_lookup_insert_eq; [done|].
  destruct Ha as [_ Hl]. rewrite Hl. by apply flat_lt.
Qed.

Lemma cell_place_other r c ch r' c' ch' :
  0 ≤ r < 6 → 0 ≤ c < 7 → 0 ≤ ch < 2 →
  0 ≤ r' < 6 → 0 ≤ c' < 7 → 0 ≤ ch' < 2 →
  (r, c, ch) ≠ (r', c', ch') →
  cell (place a r c ch) r' c' ch' = cell a r' c' ch'.
Proof using Ha.
  intros Hr Hc Hch Hr' Hc' Hch' Hne. unfold place.
  rewrite arr_set_on_grid by assumption. simpl.
  unfold cell, arr_get, offset. simpl.
  fold (offset a r' c' ch'). rewrite offset_on_grid by assumption. simpl.
  rewrite list_lookup_insert_ne; [done|].
  intros Heq. apply Hne.
  destruct (flat_inj r c ch r' c' ch') as (-> & -> & ->); auto.
Qed.
End Arrays.

(** ** Methods that only read the board *)

Lemma grid_test r c :
  (0 <=? r) && (r <? 6) && (0 <=? c) && (c <? 7) = true ↔ 0 ≤ r < 6 ∧ 0 ≤ c < 7.
Proof.
  rewrite !andb_true_iff, !Z.leb_le, !Z.ltb_lt. lia.
Qed.

Lemma run_length_bounds n a ch sr sc r c :
  0 ≤ run_length n a ch sr sc r c ≤ Z.of_nat n.
Proof.
  revert r c. induction n as [|n IH]; intros r c; [simpl; lia|].
  cbn [run_length]. destruct (lit a ch r c); [|lia].
  specialize (IH (r + sr) (c + sc)). lia.
Qed.

Section Reads.
Variables (h : heap) (b : ref) (a : ndarray).
Hypothesis Hb : h !! b = Some a.
Hypothesis Ha : board_shape a.

Lemma load_cell r c ch :
  0 ≤ r < 6 → 0 ≤ c < 7 → 0 ≤ ch < 2 →
  load b r c ch h = (Ret (cell a r c ch), h).
Proof using Hb Ha.
  intros Hr Hc Hch. unfold load. rewrite Hb.
  by rewrite (arr_get_cell a Ha r c ch).
Qed.

Lemma next_row_loop_find col rows :
  0 ≤ col < 7 → Forall (λ r, 0 ≤ r < 6) rows →
  next_row_loop b col rows h = (Ret (List.find (λ r, empty_at a r col) rows), h).
Proof using Hb Ha.
  intros Hc. induction 1 as [|row rows Hrow _ IH]; [done|].
  simpl. unfold bind at 1. rewrite load_cell by lia.
  unfold empty_at at 1.
  destruct (cell a row col 0 =? 0); simpl; [|exact IH].
  unfold bind at 1. rewrite load_cell by lia.
  destruct (cell a row col 1 =? 0); simpl; [done|exact IH].
Qed.

Lemma get_next_row_landing col :
  0 ≤ col < 7 → _get_next_row b col h = (Ret (landing a col), h).
Proof using Hb Ha.
  intros Hc. unfold _get_next_row, landing.
  apply next_row_loop_find; [done|].
  repeat constructor; lia.
Qed.

Lemma count_while_run ch sr sc fuel :
  0 ≤ ch < 2 →
  ∀ n r c count,
    run_length n a ch sr sc r c < Z.of_nat n →
    run_length n a ch sr sc r c < Z.of_nat fuel →
    count_while fuel b ch sr sc r c count h
    = (Ret (count + run_length n a ch sr sc r c), h).
Proof using Hb Ha.
  intros Hch. induction fuel as [|fuel IH]; intros n r c count Hn Hf.
  - pose proof (run_length_bounds n a ch sr sc r c). lia.
  - destruct n as [|n]; [simpl in Hn; lia|].
    cbn [run_length count_while] in *. unfold lit in *.
    destruct ((0 <=? r) && (r <? 6) && (0 <=? c) && (c <? 7)) eqn:Hg;
      cbn [andb] in *.
    + apply grid_test in Hg. unfold bind. rewrite load_cell by lia.
      destruct (cell a r c ch =? 1).
      * rewrite (IH n) by lia. do 2 f_equal. lia.
      * unfold ret. do 2 f_equal. lia.
    + unfold ret. do 2 f_equal. lia.
Qed.
End Reads.

(** ** Runs of pieces *)

Lemma directions_escaping dr dc :
  (dr, dc) ∈ directions → escaping dr dc ∧ escaping (- dr) (- dc).
Proof.
  unfold directions. rewrite !elem_of_cons, elem_of_nil.
  intros [H|[H|[H|[H|[]]]]]; injection H as -> ->; unfold escaping; lia.
Qed.

Section Runs.
Variables (a : ndarray) (ch sr sc : Z).

Lemma run_length_lit n : ∀ r c k,
  0 ≤ k < run_length n a ch sr sc r c → lit a ch (r + k * sr) (c + k * sc) = true.
Proof.
  induction n as [|n IH]; intros r c k Hk; [simpl in Hk; lia|].
  cbn [run_length] in Hk. destruct (lit a ch r c) eqn:Hl; [|lia].
  destruct (decide (k = 0)) as [->|Hk0].
  - by rewrite !Z.mul_0_l, !Z.add_0_r.
  - replace (r + k * sr) with ((r + sr) + (k - 1) * sr) by ring.
    replace (c + k * sc) with ((c + sc) + (k - 1) * sc) by ring.
    apply IH. lia.
Qed.

Lemma run_length_stop n : ∀ r c,
  run_length n a ch sr sc r c < Z.of_nat n →
  lit a ch (r + run_length n a ch sr sc r c * sr)
           (c + run_length n a ch sr sc r c * sc) = false.
Proof.
  induction n as [|n IH]; intros r c Hlt; [simpl in Hlt; lia|].
  cbn [run_length] in *. destruct (lit a ch r c) eqn:Hl.
  - set (m := run_length n a ch sr sc (r + sr) (c + sc)) in *.
    replace (r + (1 + m) * sr) with ((r + sr) + m * sr) by ring.
    replace (c + (1 + m) * sc) with ((c + sc) + m * sc) by ring.
    apply IH. lia.
  - by rewrite !Z.mul_0_l, !Z.add_0_r.
Qed.

Lemma lit_on_grid r c : lit a ch r c = true → 0 ≤ r < 6 ∧ 0 ≤ c < 7.
Proof.
  unfold lit. rewrite andb_true_iff. intros [Hg _]. by apply grid_test.
Qed.

Lemma run_length_le7 n r c :
  escaping sr sc → run_length n a ch sr sc r c ≤ 7.
Proof.
  intros (Hsr & Hsc & Hnz).
  destruct (Z_le_gt_dec (run_length n a ch sr sc r c) 7) as [|Hgt]; [done|].
  pose proof (lit_on_grid _ _ (run_length_lit n r c 0 ltac:(lia))) as H0.
  pose proof (lit_on_grid _ _ (run_length_lit n r c 7 ltac:(lia))) as H7.
  lia.
Qed.
End Runs.

Section Alignment.
Variables (a : ndarray) (ch : Z).
Hypothesis Ha : board_shape a.
Hypothesis Hch : 0 ≤ ch < 2.

Lemma lit_occupied r c : lit a ch r c = true ↔ occupied_by a ch r c.
Proof using Ha Hch.
  unfold lit, occupied_by. rewrite andb_true_iff, grid_test, Z.eqb_eq.
  split.
  - intros [[Hr Hc] Hv]. rewrite (arr_get_cell a Ha) by lia.
    by rewrite Hv.
  - intros (Hr & Hc & Hv). rewrite (arr_get_cell a Ha) in Hv by lia.
    split; [done|]. congruence.
Qed.

(** The scan of [_check_win_from_position] measures the run. *)
Lemma run_length_run_of row col sr sc :
  escaping sr sc →
  run_of a ch row col sr sc (run_length 8 a ch sr sc (row + sr) (col + sc)).
Proof using Ha Hch.
  intros Hesc.
  pose proof (run_length_bounds 8 a ch sr sc (row + sr) (col + sc)) as Hb.
  pose proof (run_length_le7 a ch sr sc 8 (row + sr) (col + sc) Hesc) as H7.
  set (m := run_length 8 a ch sr sc (row + sr) (col + sc)) in *.
  split; [lia|]. split.
  - intros k Hk. apply lit_occupied.
    replace (row + k * sr) with ((row + sr) + (k - 1) * sr) by ring.
    replace (col + k * sc) with ((col + sc) + (k - 1) * sc) by ring.
    apply (run_length_lit a ch sr sc 8). fold m. lia.
  - rewrite <- lit_occupied.
    replace (row + (m + 1) * sr) with ((row + sr) + m * sr) by ring.
    replace (col + (m + 1) * sc) with ((col + sc) + m * sc) by ring.
    unfold m. rewrite run_length_stop; [done|]. fold m. lia.
Qed.

(** A cell has one run in each direction. *)
Lemma run_of_unique row col sr sc n n' :
  run_of a ch row col sr sc n → run_of a ch row col sr sc n' → n = n'.
Proof.
  intros (Hn & Hin & Hout) (Hn' & Hin' & Hout').
  destruct (Z.lt_trichotomy n n') as [Hlt|[Heq|Hgt]]; [|done|].
  - exfalso. apply Hout. apply Hin'. lia.
  - exfalso. apply Hout'. apply Hin. lia.
Qed.

Lemma axis_total_run_of row col dr dc p n :
  (dr, dc) ∈ directions →
  run_of a ch row col dr dc p → run_of a ch row col (- dr) (- dc) n →
  axis_total a ch row col (dr, dc) = 1 + p + n.
Proof using Ha Hch.
  intros Hd Hp Hn. destruct (directions_escaping dr dc Hd) as [He He'].
  unfold axis_total. cbn [fst snd].
  rewrite (run_of_unique _ _ _ _ _ _ Hp (run_length_run_of row col dr dc He)).
  pose proof (run_length_run_of row col (- dr) (- dc) He') as Hn'.
  replace (row + - dr) with (row - dr) in Hn' by lia.
  replace (col + - dc) with (col - dc) in Hn' by lia.
  by rewrite (run_of_unique _ _ _ _ _ _ Hn Hn').
Qed.

Lemma four_aligned4 row col : four a row col ch = true ↔ aligned4 a row col ch.
Proof using Ha Hch.
  unfold four, aligned4. rewrite existsb_exists. split.
  - intros ([dr dc] & Hin & Htot). apply list_elem_of_In in Hin.
    destruct (directions_escaping dr dc Hin) as [He He'].
    pose proof (run_length_run_of row col dr dc He) as Hp.
    pose proof (run_length_run_of row col (- dr) (- dc) He') as Hn.
    eexists dr, dc, _, _. split; [done|]. split; [exact Hp|]. split; [exact Hn|].
    apply Z.geb_le in Htot. unfold axis_total in Htot. cbn [fst snd] in Htot.
    replace (row + - dr) with (row - dr) by lia.
    replace (col + - dc) with (col - dc) by lia. lia.
  - intros (dr & dc & p & n & Hin & Hp & Hn & Hge).
    exists (dr, dc). split; [by apply list_elem_of_In|].
    rewrite (axis_total_run_of row col dr dc p n) by assumption.
    apply Z.geb_le. lia.
Qed.
End Alignment.

Section CheckWin.
Variables (h : heap) (b : ref) (a : ndarray) (fuel : nat) (ch : Z).
Hypothesis Hb : h !! b = Some a.
Hypothesis Ha : board_shape a.
Hypothesis Hch : 0 ≤ ch < 2.
Hypothesis Hfuel : (8 ≤ fuel)%nat.

Lemma count_while_escaping sr sc r c count :
  escaping sr sc →
  count_while fuel b ch sr sc r c count h
  = (Ret (count + run_length 8 a ch sr sc r c), h).
Proof using Hb Ha Hch Hfuel.
  intros He. pose proof (run_length_le7 a ch sr sc 8 r c He).
  apply (count_while_run h b a Hb Ha); [done|lia|lia].
Qed.

Lemma check_win_loop_exists row col dirs :
  dirs ⊆ directions →
  check_win_loop fuel b row col ch dirs h
  = (Ret (existsb (λ d, axis_total a ch row col d >=? 4) dirs), h).
Proof using Hb Ha Hch Hfuel.
  induction dirs as [|[dr dc] dirs IH]; intros Hsub; [done|].
  destruct (directions_escaping dr dc) as [He He'].
  { apply Hsub. left. }
  cbn [check_win_loop existsb]. unfold bind.
  rewrite count_while_escaping by done.
  rewrite count_while_escaping by done.
  unfold axis_total at 1. cbn [fst snd].
  destruct (_ >=? 4); [done|]. simpl. apply IH.
  intros d Hd. apply Hsub. by right.
Qed.

Lemma check_win_four row col :
  _check_win_from_position fuel b row col ch h = (Ret (four a row col ch), h).
Proof using Hb Ha Hch Hfuel.
  unfold _check_win_from_position, four. by apply check_win_loop_exists.
Qed.
End CheckWin.

(** ** Methods that simulate a move on a copy *)

Lemma returns_exact {A} (m : M A) h v : m h = (Ret v, h) → returns m h v.
Proof. intros H. exists []. by rewrite app_nil_r. Qed.

Lemma returns_bind {A B} (m : M A) (k : A → M B) h v w :
  returns m h v → (∀ ext, returns (k v) (h ++ ext) w) → returns (bind m k) h w.
Proof.
  intros [ext Hm] Hk. destruct (Hk ext) as [ext' Hk'].
  exists (ext ++ ext'). unfold bind. rewrite Hm, Hk'. by rewrite app_assoc.
Qed.

Lemma returns_fst {A} (m : M A) h v : returns m h v → fst (m h) = Ret v.
Proof. intros [ext ->]. done. Qed.

Lemma lookup_ext (h ext : heap) (b : ref) a :
  h !! b = Some a → (h ++ ext) !! b = Some a.
Proof. intros H. by apply lookup_app_l_Some. Qed.

Lemma lookup_fresh (h : heap) a : (h ++ [a]) !! length h = Some a.
Proof. by rewrite list_lookup_middle. Qed.

(** [c = b.copy(); c[r, col, ch] = v; k(c)] leaves the arrays of [h] alone
    and runs [k] on the updated copy. *)
Lemma returns_copy_store {A} (k : ref → M A) h b a a' r c ch v w :
  h !! b = Some a → arr_set a r c ch v = Some a' →
  returns (k (length h)) (h ++ [a']) w →
  returns (do cp <- np_copy b; do_ store cp r c ch v; k cp) h w.
Proof.
  intros Hb Hset [ext Hk]. exists ([a'] ++ ext).
  unfold bind, np_copy, store. rewrite Hb, lookup_fresh, Hset.
  replace (<[length h := a']> (h ++ [a])) with (h ++ [a']).
  - rewrite Hk. by rewrite <- app_assoc.
  - rewrite insert_app_r_alt by lia. by rewrite Nat.sub_diag.
Qed.

Lemma landing_range a col row : landing a col = Some row → 0 ≤ row < 6.
Proof.
  unfold landing. intros H. apply find_some in H as [Hin _].
  simpl in Hin. lia.
Qed.

Section Simulations.
Variables (a : ndarray) (fuel : nat) (ch : Z).
Hypothesis Ha : board_shape a.
Hypothesis Hch : 0 ≤ ch < 2.
Hypothesis Hfuel : (8 ≤ fuel)%nat.

(** The body shared by the simulations: copy, place, test. *)
Lemma simulate_move {A} (k : bool → M A) h b row col w :
  h !! b = Some a → 0 ≤ row < 6 → 0 ≤ col < 7 →
  (∀ ext, returns (k (four (place a row col ch) row col ch)) (h ++ ext) w) →
  returns
    (do cp <- np_copy b;
     do_ store cp row col ch 1;
     do t <- _check_win_from_position fuel cp row col ch;
     k t) h w.
Proof using Ha Hch Hfuel.
  intros Hb Hrow Hcol Hk.
  apply (returns_copy_store _ h b a (place a row col ch)); [done| |].
  { by apply arr_set_place. }
  eapply returns_bind.
  - apply returns_exact.
    apply (check_win_four _ _ (place a row col ch)); try done.
    + apply lookup_fresh.
    + by apply place_shape.
  - intros ext. rewrite <- app_assoc. apply Hk.
Qed.

Lemma find_winning_move_find b valid : ∀ h,
  h !! b = Some a → Forall (λ c, 0 ≤ c < 7) valid →
  returns (_find_winning_move fuel b valid ch) h
          (List.find (λ c, wins a c ch) valid).
Proof using Ha Hch Hfuel.
  induction valid as [|col rest IH]; intros h Hb Hv.
  { by apply returns_exact. }
  apply Forall_cons in Hv as [Hcol Hrest].
  cbn [_find_winning_move List.find].
  eapply returns_bind.
  { apply returns_exact. by apply (get_next_row_landing h b a). }
  intros ext. unfold wins at 1.
  destruct (landing a col) as [row|] eqn:Hl.
  - apply simulate_move; [by apply lookup_ext|by eapply landing_range|done|].
    intros ext'. destruct (four _ row col ch).
    + by apply returns_exact.
    + apply IH; [|done]. by do 2 apply lookup_ext.
  - apply IH; [|done]. by apply lookup_ext.
Qed.

Lemma double_threat_loop_count b cols : ∀ h wm,
  h !! b = Some a → Forall (λ c, 0 ≤ c < 7) cols → wm < 2 →
  returns (double_threat_loop fuel b ch cols wm) h
          (2 <=? wm + Z.of_nat (length (List.filter (λ c, wins a c ch) cols))).
Proof using Ha Hch Hfuel.
  induction cols as [|col rest IH]; intros h wm Hb Hv Hwm.
  { apply returns_exact. cbn. unfold ret. do 2 f_equal.
    symmetry. apply Z.leb_gt. lia. }
  apply Forall_cons in Hv as [Hcol Hrest].
  cbn [double_threat_loop List.filter].
  eapply returns_bind.
  { apply returns_exact. by apply (get_next_row_landing h b a). }
  intros ext. unfold wins at 1.
  destruct (landing a col) as [row|] eqn:Hl.
  - apply simulate_move; [by apply lookup_ext|by eapply landing_range|done|].
    intros ext'. destruct (four _ row col ch).
    + destruct (wm + 1 >=? 2) eqn:Hge.
      * apply returns_exact. unfold ret. do 2 f_equal.
        symmetry. apply Z.leb_le. apply Z.geb_le in Hge.
        cbn [length]. lia.
      * assert (wm + 1 < 2) as Hlt.
        { destruct (Z_lt_ge_dec (wm + 1) 2) as [|Hc]; [done|].
          apply Z.ge_le, Z.geb_le in Hc. congruence. }
        replace (wm + Z.of_nat (length (col :: List.filter (λ c, wins a c ch) rest)))
          with (wm + 1 + Z.of_nat (length (List.filter (λ c, wins a c ch) rest)))
          by (cbn [length]; lia).
        apply IH; [|done|done]. by do 2 apply lookup_ext.
    + replace (wm >=? 2) with false
        by (symmetry; rewrite Z.geb_leb; apply Z.leb_gt; lia).
      apply IH; [|done|done]. by do 2 apply lookup_ext.
  - apply IH; [|done|done]. by apply lookup_ext.
Qed.
End Simulations.

Lemma range7_columns : Forall (λ c, 0 ≤ c < 7) (range 7).
Proof. repeat constructor; cbn; lia. Qed.

Section Rules.
Variables (a : ndarray) (fuel : nat) (ch : Z).
Hypothesis Ha : board_shape a.
Hypothesis Hch : 0 ≤ ch < 2.
Hypothesis Hfuel : (8 ≤ fuel)%nat.

Lemma creates_double_threat_threat h b col :
  h !! b = Some a → 0 ≤ col < 7 →
  returns (_creates_double_threat fuel b col ch) h (threat a col ch).
Proof using Ha Hch Hfuel.
  intros Hb Hcol. unfold _creates_double_threat, threat.
  eapply returns_bind.
  { apply returns_exact. by apply (get_next_row_landing h b a). }
  intros ext. destruct (landing a col) as [row|] eqn:Hl.
  - apply (returns_copy_store _ _ b a (place a row col ch)).
    + by apply lookup_ext.
    + apply arr_set_place; [done|by eapply landing_range|done|done].
    + replace (2 <=? winning_columns (place a row col ch) ch)%nat
        with (2 <=? 0 + Z.of_nat (winning_columns (place a row col ch) ch)).
      * apply double_threat_loop_count; try done.
        -- by apply place_shape.
        -- apply lookup_fresh.
        -- apply range7_columns.
      * destruct (Nat.leb_spec 2 (winning_columns (place a row col ch) ch)).
        -- apply Z.leb_le. lia.
        -- apply Z.leb_gt. lia.
  - by apply returns_exact.
Qed.

Lemma threat_rule_find b cols : ∀ h,
  h !! b = Some a → Forall (λ c, 0 ≤ c < 7) cols →
  returns (threat_rule fuel b ch cols) h (List.find (λ c, threat a c ch) cols).
Proof using Ha Hch Hfuel.
  induction cols as [|col rest IH]; intros h Hb Hv.
  { by apply returns_exact. }
  apply Forall_cons in Hv as [Hcol Hrest].
  cbn [threat_rule List.find].
  eapply returns_bind; [by apply creates_double_threat_threat|].
  intros ext. destruct (threat a col ch).
  - by apply returns_exact.
  - apply IH; [|done]. by apply lookup_ext.
Qed.
End Rules.

(** ** The legal columns *)

Lemma valid_actions_spec mask c :
  In c (_get_valid_actions mask) ↔
  0 ≤ c < Z.of_nat (length mask) ∧ mask !! Z.to_nat c = Some 1.
Proof.
  unfold _get_valid_actions, range. rewrite filter_In, in_map_iff. split.
  - intros [(k & <- & Hk) Hm]. apply in_seq in Hk.
    split; [lia|]. destruct (mask !! Z.to_nat (Z.of_nat k)) as [v|]; [|done].
    apply Z.eqb_eq in Hm. by subst.
  - intros [Hc Hm]. split.
    + exists (Z.to_nat c). split; [lia|]. apply in_seq. lia.
    + rewrite Hm. done.
Qed.

Lemma valid_actions_columns mask :
  length mask = 7%nat → Forall (λ c, 0 ≤ c < 7) (_get_valid_actions mask).
Proof.
  intros Hl. apply List.Forall_forall. intros c Hc.
  apply valid_actions_spec in Hc. lia.
Qed.

Lemma py_in_In c l : py_in c l = true ↔ In c l.
Proof.
  unfold py_in. rewrite existsb_exists. split.
  - intros (x & Hx & Heq). apply Z.eqb_eq in Heq. by subst.
  - intros Hc. exists c. split; [done|]. apply Z.eqb_refl.
Qed.

(** Rule 5 always finds a column when one is legal. *)
Lemma center_preference_total valid :
  Forall (λ c, 0 ≤ c < 7) valid → valid ≠ [] →
  ∃ c, List.find (λ c, py_in c valid) center_preference = Some c.
Proof.
  intros Hv Hne. destruct valid as [|x rest]; [done|].
  apply Forall_cons in Hv as [Hx _].
  destruct (List.find (λ c, py_in c (x :: rest)) center_preference) as [c|] eqn:Hf;
    [by exists c|].
  exfalso. pose proof (find_none _ _ Hf x) as Hnone. cbv beta in Hnone.
  assert (py_in x (x :: rest) = true) as Hin by (apply py_in_In; by left).
  rewrite Hnone in Hin; [done|].
  unfold center_preference. simpl. lia.
Qed.

Lemma policy_None a valid :
  Forall (λ c, 0 ≤ c < 7) valid → policy a valid = None → valid = [].
Proof.
  intros Hv Hp. destruct valid as [|x rest] eqn:E; [done|]. exfalso.
  destruct (center_preference_total (x :: rest)) as [c Hc]; [done|done|].
  unfold policy in Hp. rewrite Hc in Hp.
  repeat match type of Hp with
         | match ?f with _ => _ end = None => destruct f; try discriminate
         end.
Qed.

(** [choose_action] computes [policy], or raises when nothing is legal. *)
Lemma choose_action_policy fuel rnd o am mask h a :
  obs_mask o am = Some mask → h !! obs_board o = Some a →
  board_shape a → length mask = 7%nat → (8 ≤ fuel)%nat →
  ∃ ext, choose_action fuel rnd o am h
         = (match policy a (_get_valid_actions mask) with
            | Some c => Ret c
            | None => Raise IndexError
            end, h ++ ext).
Proof.
  intros Hm Hb Ha Hl Hfuel. unfold choose_action. rewrite Hm.
  pose proof (valid_actions_columns mask Hl) as Hv.
  pose proof (policy_None a _ Hv) as Hnone.
  set (valid := _get_valid_actions mask) in *.
  set (b := obs_board o) in *. unfold policy in *.
  destruct (find_winning_move_find a fuel 0 Ha ltac:(lia) Hfuel b valid h Hb Hv)
    as [e1 H1].
  unfold bind at 1. rewrite H1.
  destruct (List.find (λ c, wins a c 0) valid); [by exists e1|].
  destruct (find_winning_move_find a fuel 1 Ha ltac:(lia) Hfuel b valid (h ++ e1)
              (lookup_ext _ _ _ _ Hb) Hv) as [e2 H2].
  unfold bind at 1. rewrite H2.
  destruct (List.find (λ c, wins a c 1) valid);
    [exists (e1 ++ e2); by rewrite app_assoc|].
  destruct (threat_rule_find a fuel 0 Ha ltac:(lia) Hfuel b valid ((h ++ e1) ++ e2)
              (lookup_ext _ _ _ _ (lookup_ext _ _ _ _ Hb)) Hv) as [e3 H3].
  unfold bind at 1. rewrite H3.
  destruct (List.find (λ c, threat a c 0) valid);
    [exists (e1 ++ e2 ++ e3); by rewrite !app_assoc|].
  destruct (threat_rule_find a fuel 1 Ha ltac:(lia) Hfuel b valid
              (((h ++ e1) ++ e2) ++ e3)
              (lookup_ext _ _ _ _ (lookup_ext _ _ _ _ (lookup_ext _ _ _ _ Hb))) Hv)
    as [e4 H4].
  unfold bind at 1. rewrite H4.
  exists (e1 ++ e2 ++ e3 ++ e4). rewrite !app_assoc.
  destruct (List.find (λ c, threat a c 1) valid); [done|].
  destruct (List.find (λ c, py_in c valid) center_preference); [done|].
  rewrite Hnone by done. done.
Qed.

(** ** The functions computed and the vocabulary of the specification *)

Section Reflection.
Variable a : ndarray.
Hypothesis Ha : board_shape a.

Lemma empty_at_vacant r c :
  0 ≤ r < 6 → 0 ≤ c < 7 → empty_at a r c = true ↔ vacant a r c.
Proof using Ha.
  intros Hr Hc. unfold empty_at, vacant.
  rewrite andb_true_iff, !Z.eqb_eq.
  rewrite !(arr_get_cell a Ha) by lia.
  split; intros [H0 H1]; split; congruence.
Qed.

Lemma landing_lowest_empty col r :
  0 ≤ col < 7 → landing a col = Some r ↔ lowest_empty a col r.
Proof using Ha.
  intros Hc.
  assert (∀ r, 0 ≤ r ≤ 5 → empty_at a r col = true ↔ vacant a r col) as Hv.
  { intros r' Hr'. apply empty_at_vacant; lia. }
  unfold landing, lowest_empty. cbn [List.find].
  repeat match goal with
         | |- context [if empty_at a ?i col then _ else _] =>
             let E := fresh "E" in destruct (empty_at a i col) eqn:E
         end.
  all: split.
  all: try (intros Heq; discriminate Heq).
  all: try (intros Heq; injection Heq as <-; split; [lia|]; split;
            [by apply Hv|]; intros r' Hr' Hvac; apply Hv in Hvac; [|lia];
            assert (r' = 0 ∨ r' = 1 ∨ r' = 2 ∨ r' = 3 ∨ r' = 4 ∨ r' = 5)
              as Hcases by lia;
            repeat (destruct Hcases as [->|Hcases]); subst;
            (congruence || lia)).
  all: intros (Hr & Hvac & Hlow);
    assert (r = 0 ∨ r = 1 ∨ r = 2 ∨ r = 3 ∨ r = 4 ∨ r = 5) as Hcases by lia;
    repeat (destruct Hcases as [->|Hcases]); subst; try done;
    exfalso;
    first
      [ apply Hv in Hvac; [congruence|lia]
      | apply (Hlow 5); [lia|apply Hv; [lia|done]]
      | apply (Hlow 4); [lia|apply Hv; [lia|done]]
      | apply (Hlow 3); [lia|apply Hv; [lia|done]]
      | apply (Hlow 2); [lia|apply Hv; [lia|done]]
      | apply (Hlow 1); [lia|apply Hv; [lia|done]] ].
Qed.

Lemma landing_None col :
  0 ≤ col < 7 →
  landing a col = None ↔ ∀ r, 0 ≤ r ≤ 5 → ¬ vacant a r col.
Proof using Ha.
  intros Hc. unfold landing. split.
  - intros Hf r Hr Hvac. apply empty_at_vacant in Hvac; [|lia|done].
    rewrite (find_none _ _ Hf r) in Hvac; [done|]. simpl. lia.
  - intros Hno.
    destruct (List.find _ _) as [r|] eqn:Hf; [|done]. exfalso.
    apply find_some in Hf as [Hin He].
    apply (Hno r); [simpl in Hin; lia|].
    apply empty_at_vacant; [simpl in Hin; lia|done|done].
Qed.

Lemma wins_completes col ch :
  0 ≤ col < 7 → 0 ≤ ch < 2 → wins a col ch = true ↔ completes a col ch.
Proof using Ha.
  intros Hc Hch. unfold wins, completes. split.
  - destruct (landing a col) as [row|] eqn:Hl; [|done]. intros Hf.
    pose proof (landing_range _ _ _ Hl) as Hrow.
    exists row, (place a row col ch). split; [by apply landing_lowest_empty|].
    split; [by apply arr_set_place|].
    apply four_aligned4; [by apply place_shape|done|done].
  - intros (row & a' & Hlow & Hset & Hal).
    pose proof Hlow as (Hrow & _).
    apply landing_lowest_empty in Hlow; [|done]. rewrite Hlow.
    rewrite arr_set_place in Hset by (done || lia).
    injection Hset as <-.
    apply four_aligned4; [by apply place_shape|done|done].
Qed.
End Reflection.

Lemma range_sorted s n : StronglySorted Z.lt (map Z.of_nat (seq s n)).
Proof.
  revert s. induction n as [|n IH]; intros s; cbn; constructor; [apply IH|].
  apply List.Forall_forall. intros x Hx. apply in_map_iff in Hx as (k & <- & Hk).
  apply in_seq in Hk. lia.
Qed.

Lemma filter_sorted (f : Z → bool) l :
  StronglySorted Z.lt l → StronglySorted Z.lt (List.filter f l).
Proof.
  induction 1 as [|x l Hs IH Hx]; cbn; [constructor|].
  destruct (f x); [|done]. constructor; [done|].
  apply List.Forall_forall. intros y Hy. apply filter_In in Hy as [Hy _].
  rewrite List.Forall_forall in Hx. by apply Hx.
Qed.

Lemma valid_actions_sorted mask : StronglySorted Z.lt (_get_valid_actions mask).
Proof. apply filter_sorted, range_sorted. Qed.

(** On an ascending list [find] gives the least element that passes. *)
Lemma find_sorted (f : Z → bool) l :
  StronglySorted Z.lt l →
  ∀ x, List.find f l = Some x ↔
       In x l ∧ f x = true ∧ ∀ y, In y l → y < x → f y = false.
Proof.
  induction 1 as [|z l Hs IH Hz]; intros x; cbn.
  { split; [done|]. by intros [[] _]. }
  rewrite List.Forall_forall in Hz. destruct (f z) eqn:Hfz.
  - split.
    + intros [= <-]. split; [by left|]. split; [done|].
      intros y [<-|Hy] Hlt; [lia|]. specialize (Hz y Hy). lia.
    + intros ([<-|Hx] & Hfx & Hmin); [done|].
      rewrite (Hmin z) in Hfz; [done|by left|by apply Hz].
  - rewrite IH. split.
    + intros (Hx & Hfx & Hmin). split; [by right|]. split; [done|].
      intros y [<-|Hy] Hlt; [done|by apply Hmin].
    + intros ([<-|Hx] & Hfx & Hmin); [congruence|].
      split; [done|]. split; [done|]. intros y Hy. apply Hmin. by right.
Qed.

(** Two or more elements of an ascending list pass the filter. *)
Lemma filter_two_sorted (f : Z → bool) l :
  StronglySorted Z.lt l →
  (2 ≤ length (List.filter f l))%nat ↔
  ∃ x y, In x l ∧ In y l ∧ x < y ∧ f x = true ∧ f y = true.
Proof.
  induction 1 as [|z l Hs IH Hz]; cbn.
  { split; [lia|]. by intros (x & y & [] & _). }
  rewrite List.Forall_forall in Hz. destruct (f z) eqn:Hfz; cbn [length].
  - split.
    + intros Hlen. destruct (List.filter f l) as [|y rest] eqn:Hfl;
        [cbn in Hlen; lia|].
      assert (In y (List.filter f l)) as Hy by (rewrite Hfl; by left).
      apply filter_In in Hy as [Hy Hfy].
      exists z, y. split; [by left|]. split; [by right|]. split; [by apply Hz|done].
    + intros (x & y & Hx & Hy & Hlt & Hfx & Hfy).
      assert (In y l) as Hyl.
      { destruct Hy as [<-|Hy]; [|done]. destruct Hx as [<-|Hx]; [lia|].
        specialize (Hz x Hx). lia. }
      assert (In y (List.filter f l)) as Hyf by (apply filter_In; done).
      destruct (List.filter f l); [done|]. cbn. lia.
  - rewrite IH. split.
    + intros (x & y & Hx & Hy & H'). exists x, y. split; [by right|].
      split; [by right|done].
    + intros (x & y & [<-|Hx] & [<-|Hy] & Hlt & Hfx & Hfy); try congruence.
      by exists x, y.
Qed.

Lemma in_range n c : In c (range n) ↔ 0 ≤ c < Z.of_nat n.
Proof.
  unfold range. rewrite in_map_iff. split.
  - intros (k & <- & Hk). apply in_seq in Hk. lia.
  - intros Hc. exists (Z.to_nat c). split; [lia|]. apply in_seq. lia.
Qed.

Lemma threat_double_threat a col ch :
  board_shape a → 0 ≤ col < 7 → 0 ≤ ch < 2 →
  threat a col ch = true ↔ double_threat a col ch.
Proof.
  intros Ha Hc Hch. unfold threat, double_threat, winning_columns.
  assert (∀ a', board_shape a' →
    (2 <=? length (List.filter (λ c, wins a' c ch) (range 7)))%nat = true ↔
    ∃ c1 c2, 0 ≤ c1 < c2 ∧ c2 < 7 ∧ completes a' c1 ch ∧ completes a' c2 ch)
    as Htwo.
  { intros a' Ha'. rewrite Nat.leb_le, filter_two_sorted by apply range_sorted.
    split.
    - intros (x & y & Hx & Hy & Hlt & Hfx & Hfy).
      apply in_range in Hx, Hy. exists x, y.
      split; [lia|]. split; [lia|].
      split; apply wins_completes; (assumption || lia).
    - intros (x & y & Hx & Hy & Hfx & Hfy). exists x, y.
      split; [apply in_range; lia|]. split; [apply in_range; lia|].
      split; [lia|]. split; apply wins_completes; (assumption || lia). }
  split.
  - destruct (landing a col) as [row|] eqn:Hl; [|done]. intros Ht.
    pose proof (landing_range _ _ _ Hl) as Hrow.
    exists row, (place a row col ch).
    split; [by apply landing_lowest_empty|].
    split; [by apply arr_set_place|].
    apply Htwo; [by apply place_shape|done].
  - intros (row & a' & Hlow & Hset & Hcs).
    pose proof Hlow as (Hrow & _).
    apply landing_lowest_empty in Hlow; [|done|done]. rewrite Hlow.
    rewrite arr_set_place in Hset by (done || lia).
    injection Hset as <-.
    apply Htwo; [by apply place_shape|done].
Qed.

(** * The placement resolver *)

(** C3. For every board and every column in [0,6], [_get_next_row] returns
    the largest row index [r] in [0,5] whose two occupancy layers are both
    empty at [(r, col)], that is the lowest empty row under gravity, and it
    returns [None] exactly when the column has no such cell. The board is
    left as it was. *)
Theorem get_next_row_lowest_empty h b a col :
  h !! b = Some a → board_shape a → 0 ≤ col ≤ 6 →
  ∃ res,
    _get_next_row b col h = (Ret res, h) ∧
    (∀ r, res = Some r ↔ lowest_empty a col r) ∧
    (res = None ↔ ∀ r, 0 ≤ r ≤ 5 → ¬ vacant a r col).
Proof.
  intros Hb Ha Hcol. exists (landing a col).
  split; [apply (get_next_row_landing h b a); (done || lia)|].
  split.
  - intros r. apply landing_lowest_empty; (done || lia).
  - apply landing_None; (done || lia).
Qed.

Lemma get_next_row_lowest_empty_witness :
  ∃ res,
    _get_next_row 0%nat 1 [bottom_three] = (Ret res, [bottom_three]) ∧
    (∀ r, res = Some r ↔ lowest_empty bottom_three 1 r) ∧
    (res = None ↔ ∀ r, 0 ≤ r ≤ 5 → ¬ vacant bottom_three r 1).
Proof.
  apply (get_next_row_lowest_empty [bottom_three] 0%nat bottom_three 1).
  - reflexivity.
  - split; reflexivity.
  - lia.
Defined.

(** * The alignment detector *)

(** C4. For every board, row, column and channel,
    [_check_win_from_position] returns true if and only if, for at least
    one of the four axes (0,1), (1,0), (-1,1), (1,1), one plus the run of
    channel cells from [(row, col)] in the positive direction plus the run
    in the negative direction is at least 4; a run ends at the edge of the
    grid and at the first cell not set for the channel. *)
Theorem check_win_aligned4 fuel h b a row col ch :
  h !! b = Some a → board_shape a → 0 ≤ ch < 2 → (8 ≤ fuel)%nat →
  ∃ res,
    _check_win_from_position fuel b row col ch h = (Ret res, h) ∧
    (res = true ↔ aligned4 a row col ch).
Proof.
  intros Hb Ha Hch Hfuel. exists (four a row col ch).
  split; [by apply (check_win_four h b a)|by apply four_aligned4].
Qed.

Lemma check_win_aligned4_witness :
  ∃ res,
    _check_win_from_position 8 0%nat 5 3 0 [bottom_three]
    = (Ret res, [bottom_three]) ∧
    (res = true ↔ aligned4 bottom_three 5 3 0).
Proof.
  apply (check_win_aligned4 8 [bottom_three] 0%nat bottom_three 5 3 0).
  - reflexivity.
  - split; reflexivity.
  - lia.
  - lia.
Defined.

Lemma occupied_by_same_but_at a a' row col sr sc ch k :
  same_but_at a a' row col → escaping sr sc → 0 ≤ ch < 2 → 1 ≤ k →
  occupied_by a ch (row + k * sr) (col + k * sc) →
  occupied_by a' ch (row + k * sr) (col + k * sc).
Proof.
  intros Hsame (Hsr & Hsc & Hnz) Hch Hk (Hr & Hc & Hv).
  split; [done|]. split; [done|]. rewrite <- Hsame; try done.
  intros [= Er Ec]. nia.
Qed.

Lemma run_of_same_but_at a a' row col sr sc ch n :
  same_but_at a a' row col → escaping sr sc → 0 ≤ ch < 2 →
  run_of a ch row col sr sc n → run_of a' ch row col sr sc n.
Proof.
  intros Hsame Hesc Hch (Hn & Hin & Hout).
  assert (same_but_at a' a row col) as Hsame'.
  { intros r c k Hr Hc Hk Hne. symmetry. by apply Hsame. }
  split; [done|]. split.
  - intros k Hk. apply (occupied_by_same_but_at a a'); try done. lia. by apply Hin.
  - intros Hocc. apply Hout.
    apply (occupied_by_same_but_at a' a); try done. lia.
Qed.

Lemma aligned4_same_but_at a a' row col ch :
  same_but_at a a' row col → 0 ≤ ch < 2 →
  aligned4 a row col ch → aligned4 a' row col ch.
Proof.
  intros Hsame Hch (dr & dc & p & n & Hd & Hp & Hn & Hge).
  destruct (directions_escaping dr dc Hd) as [He He'].
  exists dr, dc, p, n. split; [done|].
  split; [by apply (run_of_same_but_at a a')|].
  split; [by apply (run_of_same_but_at a a')|done].
Qed.

(** C10. The answer of [_check_win_from_position] does not depend on the
    content of the queried cell: on two boards that differ at most in the
    occupancy (either channel) of [(row, col)] it returns the same value,
    so it makes no difference whether the hypothetical piece has been
    written into the board or not. *)
Theorem check_win_ignores_own_cell fuel h b a h' b' a' row col ch :
  h !! b = Some a → h' !! b' = Some a' →
  board_shape a → board_shape a' → 0 ≤ ch < 2 → (8 ≤ fuel)%nat →
  same_but_at a a' row col →
  ∃ res,
    _check_win_from_position fuel b row col ch h = (Ret res, h) ∧
    _check_win_from_position fuel b' row col ch h' = (Ret res, h').
Proof.
  intros Hb Hb' Ha Ha' Hch Hfuel Hsame.
  assert (four a' row col ch = four a row col ch) as Heq.
  { apply eq_true_iff_eq. rewrite !four_aligned4 by assumption.
    split; apply aligned4_same_but_at; try assumption.
    intros r c k Hr Hc Hk Hne. symmetry. by apply Hsame. }
  exists (four a row col ch).
  split; [by apply (check_win_four h b a)|].
  rewrite (check_win_four h' b' a') by assumption. rewrite Heq. reflexivity.
Qed.

Lemma check_win_ignores_own_cell_witness :
  ∃ res,
    _check_win_from_position 8 0%nat 5 3 0 [bottom_three; place bottom_three 5 3 0]
    = (Ret res, [bottom_three; place bottom_three 5 3 0]) ∧
    _check_win_from_position 8 1%nat 5 3 0 [bottom_three; place bottom_three 5 3 0]
    = (Ret res, [bottom_three; place bottom_three 5 3 0]).
Proof.
  apply (check_win_ignores_own_cell 8 _ 0%nat bottom_three _ 1%nat
           (place bottom_three 5 3 0) 5 3 0).
  - reflexivity.
  - reflexivity.
  - split; reflexivity.
  - split; reflexivity.
  - lia.
  - lia.
  - assert (board_shape bottom_three) as Hs by (split; reflexivity).
    intros r c ch Hr Hc Hch Hne.
    rewrite (arr_get_cell bottom_three Hs) by done.
    rewrite (arr_get_cell _ (place_shape bottom_three Hs 5 3 0)) by done.
    f_equal. symmetry. apply cell_place_other; try done; try lia.
    intros [= <- <- _]. done.
Defined.

(** * The board is never written *)

Lemma allocates_ret {A} (v : A) : allocates (ret v).
Proof. intros h. exists []. by rewrite app_nil_r. Qed.

Lemma allocates_raise {A} e : allocates (@raise A e).
Proof. intros h. exists []. by rewrite app_nil_r. Qed.

Lemma allocates_stuck {A} : allocates (@stuck A).
Proof. intros h. exists []. by rewrite app_nil_r. Qed.

Lemma allocates_bind {A B} (m : M A) (k : A → M B) :
  allocates m → (∀ x, allocates (k x)) → allocates (bind m k).
Proof.
  intros Hm Hk h. destruct (Hm h) as [e He]. unfold bind.
  destruct (m h) as [[x| |] h1]; simpl in He; subst h1; [|by exists e..].
  destruct (Hk x (h ++ e)) as [e' He']. exists (e ++ e').
  by rewrite He', app_assoc.
Qed.

Lemma allocates_load b r c ch : allocates (load b r c ch).
Proof.
  intros h. exists []. rewrite app_nil_r. unfold load.
  destruct (h !! b); [|done]. by destruct (arr_get _ r c ch).
Qed.

(** Writing into a fresh copy changes no array that existed before. *)
Lemma allocates_copy_store {A} (k : ref → M A) b r c ch v :
  (∀ cp, allocates (k cp)) →
  allocates (do cp <- np_copy b; do_ store cp r c ch v; k cp).
Proof.
  intros Hk h. unfold bind, np_copy, store.
  destruct (h !! b) as [a|] eqn:Hb; [|exists []; by rewrite app_nil_r].
  rewrite lookup_fresh.
  destruct (arr_set a r c ch v) as [a'|]; [|by exists [a]].
  replace (<[length h := a']> (h ++ [a])) with (h ++ [a']).
  - destruct (Hk (length h) (h ++ [a'])) as [e He]. exists ([a'] ++ e).
    destruct (k (length h) (h ++ [a'])) as [[x| |] h1]; simpl in *;
      by rewrite He, <- app_assoc.
  - rewrite insert_app_r_alt by lia. by rewrite Nat.sub_diag.
Qed.

Lemma allocates_next_row_loop b col rows : allocates (next_row_loop b col rows).
Proof.
  induction rows as [|row rows IH]; [apply allocates_ret|].
  cbn [next_row_loop].
  apply allocates_bind; [apply allocates_load|]. intros x.
  destruct (x =? 0); [|done].
  apply allocates_bind; [apply allocates_load|]. intros y.
  destruct (y =? 0); [apply allocates_ret|done].
Qed.

Lemma allocates_get_next_row b col : allocates (_get_next_row b col).
Proof. apply allocates_next_row_loop. Qed.

Lemma allocates_count_while fuel b ch sr sc : ∀ r c count,
  allocates (count_while fuel b ch sr sc r c count).
Proof.
  induction fuel as [|fuel IH]; intros r c count; [apply allocates_stuck|].
  cbn [count_while]. destruct (_ && _); [|apply allocates_ret].
  apply allocates_bind; [apply allocates_load|]. intros v.
  destruct (v =? 1); [apply IH|apply allocates_ret].
Qed.

Lemma allocates_check_win fuel b row col ch :
  allocates (_check_win_from_position fuel b row col ch).
Proof.
  unfold _check_win_from_position.
  induction directions as [|[dr dc] dirs IH]; [apply allocates_ret|].
  cbn [check_win_loop].
  apply allocates_bind; [apply allocates_count_while|]. intros n.
  apply allocates_bind; [apply allocates_count_while|]. intros n'.
  destruct (n' >=? 4); [apply allocates_ret|done].
Qed.

Lemma allocates_find_winning_move fuel b valid ch :
  allocates (_find_winning_move fuel b valid ch).
Proof.
  induction valid as [|col rest IH]; [apply allocates_ret|].
  cbn [_find_winning_move].
  apply allocates_bind; [apply allocates_get_next_row|]. intros [row|]; [|done].
  apply allocates_copy_store. intros cp.
  apply allocates_bind; [apply allocates_check_win|]. intros w.
  destruct w; [apply allocates_ret|done].
Qed.

Lemma allocates_double_threat_loop fuel b ch cols : ∀ wm,
  allocates (double_threat_loop fuel b ch cols wm).
Proof.
  induction cols as [|col rest IH]; intros wm; [apply allocates_ret|].
  cbn [double_threat_loop].
  apply allocates_bind; [apply allocates_get_next_row|]. intros [row|]; [|done].
  apply allocates_copy_store. intros cp.
  apply allocates_bind; [apply allocates_check_win|]. intros w.
  destruct (_ >=? 2); [apply allocates_ret|done].
Qed.

Lemma allocates_creates_double_threat fuel b col ch :
  allocates (_creates_double_threat fuel b col ch).
Proof.
  unfold _creates_double_threat.
  apply allocates_bind; [apply allocates_get_next_row|].
  intros [row|]; [|apply allocates_ret].
  apply allocates_copy_store. intros cp. apply allocates_double_threat_loop.
Qed.

Lemma allocates_threat_rule fuel b ch cols : allocates (threat_rule fuel b ch cols).
Proof.
  induction cols as [|col rest IH]; [apply allocates_ret|].
  cbn [threat_rule].
  apply allocates_bind; [apply allocates_creates_double_threat|].
  intros t. destruct t; [apply allocates_ret|done].
Qed.

Lemma allocates_choose_action fuel rnd o am : allocates (choose_action fuel rnd o am).
Proof.
  unfold choose_action. destruct (obs_mask o am) as [mask|]; [|apply allocates_raise].
  apply allocates_bind; [apply allocates_find_winning_move|].
  intros [c|]; [apply allocates_ret|].
  apply allocates_bind; [apply allocates_find_winning_move|].
  intros [c|]; [apply allocates_ret|].
  apply allocates_bind; [apply allocates_threat_rule|].
  intros [c|]; [apply allocates_ret|].
  apply allocates_bind; [apply allocates_threat_rule|].
  intros [c|]; [apply allocates_ret|].
  destruct (List.find _ _); [apply allocates_ret|].
  unfold random_choice. destruct (_get_valid_actions mask);
    [apply allocates_raise|apply allocates_ret].
Qed.

Lemma allocates_keeps {A} (m : M A) h (b : ref) a :
  allocates m → h !! b = Some a → snd (m h) !! b = Some a.
Proof.
  intros Hm Hb. destruct (Hm h) as [e ->]. by apply lookup_ext.
Qed.

(** C7. [choose_action], [_find_winning_move] and [_creates_double_threat]
    leave the board they are given unchanged: every hypothetical placement
    is written into a private copy, and an array the caller holds is, after
    the call, what it was before, whatever the call returned or raised. *)
Theorem board_unchanged fuel rnd o am valid col ch h (b : ref) a :
  h !! b = Some a →
  snd (choose_action fuel rnd o am h) !! b = Some a ∧
  snd (_find_winning_move fuel b valid ch h) !! b = Some a ∧
  snd (_creates_double_threat fuel b col ch h) !! b = Some a.
Proof.
  intros Hb. split; [|split]; apply allocates_keeps; try done.
  - apply allocates_choose_action.
  - apply allocates_find_winning_move.
  - apply allocates_creates_double_threat.
Qed.

Lemma board_unchanged_witness :
  snd (choose_action 8 0 (ObsDict 0%nat full_mask) None [both_can_win]) !! 0%nat
  = Some both_can_win ∧
  snd (_find_winning_move 8 0%nat (range 7) 1 [both_can_win]) !! 0%nat
  = Some both_can_win ∧
  snd (_creates_double_threat 8 0%nat 3 1 [both_can_win]) !! 0%nat
  = Some both_can_win.
Proof.
  apply (board_unchanged 8 0 (ObsDict 0%nat full_mask) None (range 7) 3 1
           [both_can_win] 0%nat both_can_win).
  reflexivity.
Defined.

(** * The move selector *)

Lemma valid_actions_nil mask :
  ¬ In 1 mask → _get_valid_actions mask = [].
Proof.
  intros Hno. destruct (_get_valid_actions mask) as [|c rest] eqn:Hv; [done|].
  exfalso. assert (In c (_get_valid_actions mask)) as Hc by (rewrite Hv; by left).
  apply valid_actions_spec in Hc as [_ Hc]. apply Hno.
  apply list_elem_of_In. by eapply list_elem_of_lookup_2.
Qed.

Lemma valid_actions_cons mask :
  In 1 mask → _get_valid_actions mask ≠ [].
Proof.
  intros H1 Hnil. apply list_elem_of_In, list_elem_of_lookup in H1 as [i Hi].
  assert (In (Z.of_nat i) (_get_valid_actions mask)) as Hin.
  { apply valid_actions_spec. apply lookup_lt_Some in Hi as Hlt.
    split; [lia|]. by rewrite Nat2Z.id. }
  by rewrite Hnil in Hin.
Qed.

(** C8. For every board, when the action mask has no true entry
    [choose_action] does not return a column: the call fails with the
    IndexError that [random.choice] raises on the empty list of legal
    columns, and the store is what it was. *)
Theorem choose_action_no_legal_move fuel rnd o am mask h :
  obs_mask o am = Some mask → ¬ In 1 mask →
  choose_action fuel rnd o am h = (Raise IndexError, h).
Proof.
  intros Hm Hno. unfold choose_action. rewrite Hm.
  by rewrite (valid_actions_nil mask Hno).
Qed.

Lemma choose_action_no_legal_move_witness :
  choose_action 8 0 (ObsArray 0%nat) (Some [0; 0; 0; 0; 0; 0; 0]) [bottom_three]
  = (Raise IndexError, [bottom_three]).
Proof.
  apply (choose_action_no_legal_move 8 0 (ObsArray 0%nat)
           (Some [0; 0; 0; 0; 0; 0; 0]) [0; 0; 0; 0; 0; 0; 0] [bottom_three]).
  - reflexivity.
  - simpl. lia.
Defined.

Lemma policy_in_valid a valid c : policy a valid = Some c → In c valid.
Proof.
  unfold policy. intros Hp.
  repeat match type of Hp with
         | match List.find ?f valid with _ => _ end = Some _ =>
             let E := fresh "E" in
             destruct (List.find f valid) eqn:E;
               [injection Hp as ->; by apply find_some in E as [? _]|]
         end.
  apply find_some in Hp as [_ Hp]. by apply py_in_In.
Qed.

Lemma policy_Some a mask :
  length mask = 7%nat → In 1 mask →
  ∃ c, policy a (_get_valid_actions mask) = Some c.
Proof.
  intros Hl H1.
  destruct (policy a (_get_valid_actions mask)) as [c|] eqn:Hp; [by exists c|].
  apply policy_None in Hp; [|by apply valid_actions_columns].
  by apply valid_actions_cons in H1.
Qed.

(** C2. For every board and every action mask with at least one true
    entry, [choose_action] returns a column [c] in [0,6] with
    [mask[c] = 1]; so when exactly one entry of the mask is true, that
    column is returned whatever the board holds. *)
Theorem choose_action_legal fuel rnd o am mask h a :
  obs_mask o am = Some mask → h !! obs_board o = Some a →
  board_shape a → length mask = 7%nat → (8 ≤ fuel)%nat → In 1 mask →
  ∃ c,
    returns (choose_action fuel rnd o am) h c ∧
    0 ≤ c ≤ 6 ∧ mask !! Z.to_nat c = Some 1 ∧
    ∀ i, (∀ j, mask !! j = Some 1 → j = i) → c = Z.of_nat i.
Proof.
  intros Hm Hb Ha Hl Hfuel H1.
  destruct (choose_action_policy fuel rnd o am mask h a) as [ext Hc]; try assumption.
  destruct (policy_Some a mask Hl H1) as [c Hp]. rewrite Hp in Hc.
  apply policy_in_valid, valid_actions_spec in Hp as [Hr Hmc].
  exists c. split; [by exists ext|]. split; [lia|]. split; [done|].
  intros i Hi. specialize (Hi _ Hmc). lia.
Qed.

Lemma choose_action_legal_witness :
  ∃ c,
    returns (choose_action 8 0 (ObsArray 0%nat) (Some only_column_6)) [both_can_win] c ∧
    0 ≤ c ≤ 6 ∧ only_column_6 !! Z.to_nat c = Some 1 ∧
    ∀ i, (∀ j, only_column_6 !! j = Some 1 → j = i) → c = Z.of_nat i.
Proof.
  apply (choose_action_legal 8 0 (ObsArray 0%nat) (Some only_column_6)
           only_column_6 [both_can_win] both_can_win).
  - reflexivity.
  - reflexivity.
  - split; reflexivity.
  - reflexivity.
  - lia.
  - simpl. lia.
Defined.

(** C9. For every board and every action mask with at least one true
    entry, two calls of [choose_action] with the same board and mask return
    the same column, whatever the random generator would draw and whatever
    the first call left in the store: rule 5 always finds a legal column,
    so [random.choice] is never reached. *)
Theorem choose_action_deterministic fuel rnd rnd' o am mask h a :
  obs_mask o am = Some mask → h !! obs_board o = Some a →
  board_shape a → length mask = 7%nat → (8 ≤ fuel)%nat → In 1 mask →
  ∃ c h',
    choose_action fuel rnd o am h = (Ret c, h') ∧
    fst (choose_action fuel rnd' o am h') = Ret c ∧
    policy a (_get_valid_actions mask) = Some c.
Proof.
  intros Hm Hb Ha Hl Hfuel H1.
  destruct (choose_action_policy fuel rnd o am mask h a) as [ext Hc]; try assumption.
  destruct (policy_Some a mask Hl H1) as [c Hp]. rewrite Hp in Hc.
  exists c, (h ++ ext). split; [done|]. split; [|done].
  destruct (choose_action_policy fuel rnd' o am mask (h ++ ext) a)
    as [ext' Hc']; try assumption.
  { by apply lookup_ext. }
  rewrite Hc', Hp. done.
Qed.

Lemma choose_action_deterministic_witness :
  ∃ c h',
    choose_action 8 0 (ObsDict 0%nat full_mask) None [both_can_win] = (Ret c, h') ∧
    fst (choose_action 8 5 (ObsDict 0%nat full_mask) None h') = Ret c ∧
    policy both_can_win (_get_valid_actions full_mask) = Some c.
Proof.
  apply (choose_action_deterministic 8 0 5 (ObsDict 0%nat full_mask) None
           full_mask [both_can_win] both_can_win).
  - reflexivity.
  - reflexivity.
  - split; reflexivity.
  - reflexivity.
  - lia.
  - simpl. lia.
Defined.

Lemma legal_valid mask c :
  length mask = 7%nat → legal mask c ↔ In c (_get_valid_actions mask).
Proof.
  intros Hl. rewrite valid_actions_spec. unfold legal. split.
  - intros [Hc Hm]. apply lookup_lt_Some in Hm as Hlt. split; [lia|done].
  - intros [Hc Hm]. split; [lia|done].
Qed.

Lemma find_split {A} (f : A → bool) l x :
  List.find f l = Some x →
  ∃ pre post, l = pre ++ x :: post ∧ f x = true ∧ ∀ y, In y pre → f y = false.
Proof.
  induction l as [|z l IH]; [done|]. cbn. destruct (f z) eqn:Hz.
  - intros [= <-]. exists [], l. split; [done|]. split; [done|]. by intros y [].
  - intros Hf. destruct (IH Hf) as (pre & post & -> & Hx & Hpre).
    exists (z :: pre), post. split; [done|]. split; [done|].
    intros y [<-|Hy]; [done|by apply Hpre].
Qed.

Lemma find_first_legal mask (f : Z → bool) (P : Z → Prop) :
  length mask = 7%nat → (∀ c, 0 ≤ c < 7 → f c = true ↔ P c) →
  match List.find f (_get_valid_actions mask) with
  | Some c => first_legal mask P c
  | None => none_legal mask P
  end.
Proof.
  intros Hl Hfp. pose proof (valid_actions_columns mask Hl) as Hv.
  rewrite List.Forall_forall in Hv.
  destruct (List.find f (_get_valid_actions mask)) as [c|] eqn:Hf.
  - apply find_sorted in Hf as (Hc & Hfc & Hmin); [|apply valid_actions_sorted].
    split; [by apply legal_valid|]. split; [apply Hfp; auto|].
    intros c' Hc' Hlt HP. apply legal_valid in Hc'; [|done].
    apply Hfp in HP; [|auto]. rewrite Hmin in HP; done.
  - intros c Hc HP. apply legal_valid in Hc; [|done].
    apply Hfp in HP; [|auto]. by rewrite (find_none _ _ Hf c Hc) in HP.
Qed.

Lemma policy_priority a mask c :
  board_shape a → length mask = 7%nat →
  policy a (_get_valid_actions mask) = Some c → priority_policy a mask c.
Proof.
  intros Ha Hl Hp. unfold policy in Hp. unfold priority_policy.
  pose proof (find_first_legal mask (λ c, wins a c 0) (λ c, completes a c 0) Hl
                (λ c Hc, wins_completes a Ha c 0 Hc ltac:(lia))) as H1.
  destruct (List.find (λ c, wins a c 0) _); [injection Hp as ->; by left|].
  right. split; [done|].
  pose proof (find_first_legal mask (λ c, wins a c 1) (λ c, completes a c 1) Hl
                (λ c Hc, wins_completes a Ha c 1 Hc ltac:(lia))) as H2.
  destruct (List.find (λ c, wins a c 1) _); [injection Hp as ->; by left|].
  right. split; [done|].
  pose proof (find_first_legal mask (λ c, threat a c 0) (λ c, double_threat a c 0) Hl
                (λ c Hc, threat_double_threat a c 0 Ha Hc ltac:(lia))) as H3.
  destruct (List.find (λ c, threat a c 0) _); [injection Hp as ->; by left|].
  right. split; [done|].
  pose proof (find_first_legal mask (λ c, threat a c 1) (λ c, double_threat a c 1) Hl
                (λ c Hc, threat_double_threat a c 1 Ha Hc ltac:(lia))) as H4.
  destruct (List.find (λ c, threat a c 1) _); [injection Hp as ->; by left|].
  right. split; [done|].
  apply find_split in Hp as (pre & post & Hsplit & Hc & Hpre).
  exists pre, post. split; [done|].
  split; [apply legal_valid; [done|by apply py_in_In]|].
  intros c' Hc' Hleg. apply legal_valid, py_in_In in Hleg; [|done].
  by rewrite (Hpre c' Hc') in Hleg.
Qed.

Lemma first_legal_unique mask (P : Z → Prop) c c' :
  first_legal mask P c → first_legal mask P c' → c = c'.
Proof.
  intros (Hl & HP & Hmin) (Hl' & HP' & Hmin').
  destruct (Z.lt_trichotomy c c') as [Hlt|[Heq|Hgt]]; [|done|].
  - destruct (Hmin' c Hl Hlt HP).
  - destruct (Hmin c' Hl' Hgt HP').
Qed.

(** C1. [choose_action] implements the priority policy over the board and
    the legal columns: (1) the first legal column that wins for the mover
    if there is one, else (2) the first legal column in which the opponent
    would win, else (3) the first legal column (ascending) creating a mover
    double threat, else (4) the first legal column (ascending) creating an
    opponent double threat, else (5) the first legal column of the order
    [3,2,4,1,5,0,6]. In particular, when both players have a winning column
    the mover's is returned, and on the empty board with all columns legal
    the answer is column 3. *)
Theorem choose_action_priority fuel rnd o am mask h a :
  obs_mask o am = Some mask → h !! obs_board o = Some a →
  board_shape a → length mask = 7%nat → (8 ≤ fuel)%nat →
  ((∃ c, legal mask c) →
   ∃ c, returns (choose_action fuel rnd o am) h c ∧ priority_policy a mask c) ∧
  (∀ c0 c1,
     legal mask c0 → completes a c0 0 → legal mask c1 → completes a c1 1 →
     ∃ c, returns (choose_action fuel rnd o am) h c ∧
          legal mask c ∧ completes a c 0) ∧
  (a = zeros → mask = full_mask → returns (choose_action fuel rnd o am) h 3).
Proof.
  intros Hm Hb Ha Hl Hfuel.
  destruct (choose_action_policy fuel rnd o am mask h a) as [ext Hc]; try assumption.
  assert ((∃ c, legal mask c) →
    ∃ c, returns (choose_action fuel rnd o am) h c ∧ priority_policy a mask c)
    as Hgen.
  { intros [c0 Hc0].
    destruct (policy_Some a mask Hl) as [c Hp].
    { destruct Hc0 as [_ Hc0]. apply list_elem_of_In.
      by eapply list_elem_of_lookup_2. }
    rewrite Hp in Hc. exists c. split; [by exists ext|].
    by apply policy_priority. }
  split; [exact Hgen|]. split.
  - intros c0 c1 Hl0 Hc0 Hl1 Hc1.
    destruct Hgen as (c & Hret & Hpol); [by exists c0|].
    exists c. split; [done|].
    destruct Hpol as [(Hlc & Hcc & _)|[Hnone _]]; [done|].
    destruct (Hnone c0 Hl0 Hc0).
  - intros -> ->. exists ext. rewrite Hc.
    by vm_compute.
Qed.

Lemma choose_action_priority_witness :
  ((∃ c, legal full_mask c) →
   ∃ c, returns (choose_action 8 0 (ObsDict 0%nat full_mask) None) [both_can_win] c ∧
        priority_policy both_can_win full_mask c) ∧
  (∀ c0 c1,
     legal full_mask c0 → completes both_can_win c0 0 →
     legal full_mask c1 → completes both_can_win c1 1 →
     ∃ c, returns (choose_action 8 0 (ObsDict 0%nat full_mask) None) [both_can_win] c ∧
          legal full_mask c ∧ completes both_can_win c 0) ∧
  (both_can_win = zeros → full_mask = full_mask →
   returns (choose_action 8 0 (ObsDict 0%nat full_mask) None) [both_can_win] 3).
Proof.
  apply (choose_action_priority 8 0 (ObsDict 0%nat full_mask) None full_mask
           [both_can_win] both_can_win).
  - reflexivity.
  - reflexivity.
  - split; reflexivity.
  - reflexivity.
  - lia.
Defined.

(** * The threat analyzer *)

Lemma find_unsplit {A} (f : A → bool) pre x post :
  f x = true → (∀ y, In y pre → f y = false) →
  List.find f (pre ++ x :: post) = Some x.
Proof.
  intros Hx. induction pre as [|z pre IH]; intros Hpre; cbn.
  - by rewrite Hx.
  - rewrite (Hpre z) by (by left). apply IH. intros y Hy. apply Hpre. by right.
Qed.

Lemma place_same_but_at a row col ch :
  board_shape a → 0 ≤ row < 6 → 0 ≤ col < 7 → 0 ≤ ch < 2 →
  same_but_at a (place a row col ch) row col.
Proof.
  intros Ha Hrow Hcol Hch r c k Hr Hc Hk Hne.
  rewrite (arr_get_cell a Ha) by assumption.
  rewrite (arr_get_cell _ (place_shape a Ha row col ch)) by assumption.
  f_equal. destruct (decide (k = ch)) as [->|Hk'].
  - symmetry. apply cell_place_other; try assumption. intros [= <- <-]. by apply Hne.
  - symmetry. apply cell_place_other; try assumption. intros [= _ _ <-]. by apply Hk'.
Qed.

(** Three pieces in a line next to the landing cell make the move a win. *)
Lemma three_in_line_aligned4 a ch row col :
  board_shape a → 0 ≤ row < 6 → 0 ≤ col < 7 → 0 ≤ ch < 2 →
  three_in_line a ch row col → aligned4 (place a row col ch) row col ch.
Proof.
  intros Ha Hrow Hcol Hch (sr & sc & Hdir & Hthree).
  pose proof (place_shape a Ha row col ch) as Ha'.
  pose proof (place_same_but_at a row col ch Ha Hrow Hcol Hch) as Hsame.
  set (a' := place a row col ch) in *.
  assert (escaping sr sc ∧ escaping (- sr) (- sc)) as [He He'].
  { destruct Hdir as [Hd|Hd]; apply directions_escaping in Hd as [H1 H2];
      [done|]. rewrite !Z.opp_involutive in H2. done. }
  pose proof (run_length_run_of a' ch Ha' Hch row col sr sc He) as Hp.
  pose proof (run_length_run_of a' ch Ha' Hch row col (- sr) (- sc) He') as Hn.
  set (p := run_length 8 a' ch sr sc (row + sr) (col + sc)) in *.
  set (n := run_length 8 a' ch (- sr) (- sc) (row + - sr) (col + - sc)) in *.
  assert (3 ≤ p) as Hp3.
  { destruct Hp as (Hp0 & _ & Hstop).
    destruct (Z_le_gt_dec 3 p) as [|Hlt]; [done|]. exfalso. apply Hstop.
    apply (occupied_by_same_but_at a a'); try assumption; [lia|].
    apply Hthree. lia. }
  assert (0 ≤ n) as Hn0 by (by destruct Hn).
  destruct Hdir as [Hd|Hd].
  - exists sr, sc, p, n. split; [done|]. split; [done|]. split; [done|lia].
  - exists (- sr), (- sc), n, p. split; [done|]. split; [done|].
    rewrite !Z.opp_involutive. split; [done|lia].
Qed.

(** C5. For every board, list of legal columns and channel,
    [_find_winning_move] returns the first column of the list, which for an
    ascending list is the smallest, whose gravity placement of a channel
    piece completes four, and [None] when no column of the list does.
    Moreover, when the channel has three pieces in a line (horizontal,
    vertical or diagonal) next to a cell that is the landing cell of a legal
    column, that column completes four, so a winning column is returned: it
    is that extension column unless an earlier column of the list also
    completes four. *)
Theorem find_winning_move_first fuel h b a valid ch :
  h !! b = Some a → board_shape a → Forall (λ c, 0 ≤ c < 7) valid →
  0 ≤ ch < 2 → (8 ≤ fuel)%nat →
  ∃ res,
    returns (_find_winning_move fuel b valid ch) h res ∧
    (∀ c, res = Some c ↔
          ∃ pre post, valid = pre ++ c :: post ∧ completes a c ch ∧
                      ∀ c', In c' pre → ¬ completes a c' ch) ∧
    (res = None ↔ ∀ c, In c valid → ¬ completes a c ch) ∧
    (StronglySorted Z.lt valid →
     ∀ c, res = Some c → ∀ c', In c' valid → c' < c → ¬ completes a c' ch) ∧
    (∀ row col,
       In col valid → lowest_empty a col row → three_in_line a ch row col →
       completes a col ch ∧
       (∃ c, res = Some c ∧ completes a c ch ∧
             (StronglySorted Z.lt valid → c ≤ col)) ∧
       ∀ pre post, valid = pre ++ col :: post →
                   (∀ c', In c' pre → ¬ completes a c' ch) → res = Some col).
Proof.
  intros Hb Ha Hv Hch Hfuel.
  rewrite List.Forall_forall in Hv.
  assert (∀ c, In c valid → wins a c ch = true ↔ completes a c ch) as Hrefl.
  { intros c Hc. apply wins_completes; auto. }
  set (res := List.find (λ c, wins a c ch) valid).
  assert (∀ c, res = Some c ↔
          ∃ pre post, valid = pre ++ c :: post ∧ completes a c ch ∧
                      ∀ c', In c' pre → ¬ completes a c' ch) as Hfirst.
  { intros c. split.
    - intros Hf. destruct (find_split _ _ _ Hf) as (pre & post & Hsplit & Hc & Hpre).
      exists pre, post. split; [done|].
      assert (∀ y, In y pre → In y valid) as Hin.
      { intros y Hy. rewrite Hsplit. apply in_or_app. by left. }
      split.
      + apply Hrefl; [|done]. rewrite Hsplit. apply in_or_app. right. by left.
      + intros c' Hc' Hcomp. apply Hrefl in Hcomp; [|auto].
        by rewrite (Hpre c' Hc') in Hcomp.
    - intros (pre & post & Hsplit & Hc & Hpre). unfold res.
      assert (∀ y, In y pre → In y valid) as Hin.
      { intros y Hy. rewrite Hsplit. apply in_or_app. by left. }
      assert (In c valid) as Hcin.
      { rewrite Hsplit. apply in_or_app. right. by left. }
      apply Hrefl in Hc; [|done].
      rewrite Hsplit at 1. apply find_unsplit; [done|].
      intros y Hy. destruct (wins a y ch) eqn:Hw; [|done].
      apply Hrefl in Hw; [|auto]. destruct (Hpre y Hy Hw). }
  assert (res = None ↔ ∀ c, In c valid → ¬ completes a c ch) as Hnone.
  { split.
    - intros Hf c Hc Hcomp. apply Hrefl in Hcomp; [|done].
      by rewrite (find_none _ _ Hf c Hc) in Hcomp.
    - intros Hno. destruct res as [c|] eqn:Hres; [|done]. exfalso.
      apply find_some in Hres as [Hc Hw]. apply (Hno c Hc). by apply Hrefl. }
  assert (StronglySorted Z.lt valid →
     ∀ c, res = Some c → ∀ c', In c' valid → c' < c → ¬ completes a c' ch)
    as Hsorted.
  { intros Hs c Hf c' Hc' Hlt Hcomp.
    apply find_sorted in Hf as (_ & _ & Hmin); [|done].
    apply Hrefl in Hcomp; [|done]. by rewrite (Hmin c' Hc' Hlt) in Hcomp. }
  exists res. split.
  { apply find_winning_move_find; try assumption.
    by apply List.Forall_forall. }
  split; [exact Hfirst|]. split; [exact Hnone|]. split; [exact Hsorted|].
  intros row col Hcol Hlow Hthree.
  pose proof Hlow as (Hrow & _).
  assert (completes a col ch) as Hcomp.
  { exists row, (place a row col ch). split; [done|].
    split; [apply arr_set_place; auto; lia|].
    apply three_in_line_aligned4; auto. lia. }
  split; [done|]. split.
  - destruct res as [c|] eqn:Hres.
    + exists c. split; [done|].
      apply find_some in Hres as Hcw. destruct Hcw as [Hc Hw].
      split; [by apply Hrefl|].
      intros Hs. destruct (Z_le_gt_dec c col) as [|Hgt]; [done|].
      destruct (Hsorted Hs c eq_refl col Hcol ltac:(lia) Hcomp).
    + destruct (proj1 Hnone eq_refl col Hcol Hcomp).
  - intros pre post Hsplit Hpre. apply Hfirst. by exists pre, post.
Qed.

Lemma find_winning_move_first_witness :
  ∃ res,
    returns (_find_winning_move 8 0%nat (range 7) 0) [two_triples] res ∧
    (∀ c, res = Some c ↔
          ∃ pre post, range 7 = pre ++ c :: post ∧ completes two_triples c 0 ∧
                      ∀ c', In c' pre → ¬ completes two_triples c' 0) ∧
    (res = None ↔ ∀ c, In c (range 7) → ¬ completes two_triples c 0) ∧
    (StronglySorted Z.lt (range 7) →
     ∀ c, res = Some c →
          ∀ c', In c' (range 7) → c' < c → ¬ completes two_triples c' 0) ∧
    (∀ row col,
       In col (range 7) → lowest_empty two_triples col row →
       three_in_line two_triples 0 row col →
       completes two_triples col 0 ∧
       (∃ c, res = Some c ∧ completes two_triples c 0 ∧
             (StronglySorted Z.lt (range 7) → c ≤ col)) ∧
       ∀ pre post, range 7 = pre ++ col :: post →
                   (∀ c', In c' pre → ¬ completes two_triples c' 0) →
                   res = Some col).
Proof.
  apply (find_winning_move_first 8 [two_triples] 0%nat two_triples (range 7) 0).
  - reflexivity.
  - split; reflexivity.
  - apply range7_columns.
  - lia.
  - lia.
Defined.

(** The second half of C5 as it is worded: a run of three with an open
    extension cell does not make [_find_winning_move] return that
    extension column. With mover runs in columns 0 and 6 the cell (2,6) is
    open, and it is even the landing cell of a legal column, yet column 0
    is returned. *)
Lemma find_winning_move_extension_counterexample :
  ¬ (∀ a valid row col,
       board_shape a → In col valid → Forall (λ c, 0 ≤ c < 7) valid →
       three_in_line a 0 row col → vacant a row col →
       fst (_find_winning_move 8 0%nat valid 0 [a]) = Ret (Some col)).
Proof.
  intros Hclaim.
  specialize (Hclaim two_triples (_get_valid_actions full_mask) 2 6).
  assert (fst (_find_winning_move 8 0%nat (_get_valid_actions full_mask) 0
                 [two_triples]) = Ret (Some 0)) as Hrun by (by vm_compute).
  rewrite Hrun in Hclaim. discriminate Hclaim.
  - split; reflexivity.
  - vm_compute. tauto.
  - apply valid_actions_columns. reflexivity.
  - exists 1, 0. split; [left; apply list_elem_of_In; cbn; tauto|].
    intros k Hk. assert (k = 1 ∨ k = 2 ∨ k = 3) as [->|[->| ->]] by lia;
      (split; [lia|]; split; [lia|]; reflexivity).
  - split; reflexivity.
Qed.

(** ** Material needed for a win *)

Lemma occupied_by_other a a' row col ch r c :
  same_but_at a a' row col → 0 ≤ ch < 2 → (r, c) ≠ (row, col) →
  occupied_by a ch r c → occupied_by a' ch r c.
Proof.
  intros Hsame Hch Hne (Hr & Hc & Hv).
  split; [done|]. split; [done|]. by rewrite <- Hsame.
Qed.

Lemma same_but_at_sym a a' row col :
  same_but_at a a' row col → same_but_at a' a row col.
Proof. intros Hsame r c k Hr Hc Hk Hne. symmetry. by apply Hsame. Qed.

Lemma ray_injective dr dc r c k k' :
  (dr, dc) ∈ directions →
  (r + k * dr, c + k * dc) = (r + k' * dr, c + k' * dc) → k = k'.
Proof.
  unfold directions. rewrite !elem_of_cons, elem_of_nil.
  intros [H|[H|[H|[H|[]]]]]; injection H as -> ->; intros [= H1 H2]; lia.
Qed.

Lemma in_grid_cells r c : 0 ≤ r < 6 → 0 ≤ c < 7 → In (r, c) grid_cells.
Proof.
  intros Hr Hc. unfold grid_cells. apply in_prod; apply in_range; lia.
Qed.

Lemma count_two a ch r1 c1 r2 c2 :
  board_shape a → 0 ≤ ch < 2 → (r1, c1) ≠ (r2, c2) →
  occupied_by a ch r1 c1 → occupied_by a ch r2 c2 →
  (2 ≤ count_pieces a ch)%nat.
Proof.
  intros Ha Hch Hne H1 H2. unfold count_pieces.
  apply (NoDup_incl_length (l := [(r1, c1); (r2, c2)])).
  - constructor; [|constructor; [by intros []|constructor]].
    intros [Heq|[]]. by apply Hne.
  - intros q [<-|[<-|[]]]; apply filter_In; cbn [fst snd].
    + split; [apply in_grid_cells; apply H1|by apply lit_occupied].
    + split; [apply in_grid_cells; apply H2|by apply lit_occupied].
Qed.

(** Four in a line through [(r, c)] has three pieces on cells other than
    [(r, c)]. *)
Lemma aligned4_three a r c ch :
  aligned4 a r c ch →
  ∃ dr dc k1 k2 k3,
    (dr, dc) ∈ directions ∧ k1 < k2 < k3 ∧ k1 ≠ 0 ∧ k2 ≠ 0 ∧ k3 ≠ 0 ∧
    occupied_by a ch (r + k1 * dr) (c + k1 * dc) ∧
    occupied_by a ch (r + k2 * dr) (c + k2 * dc) ∧
    occupied_by a ch (r + k3 * dr) (c + k3 * dc).
Proof.
  intros (dr & dc & p & n & Hd & (Hp0 & Hp & _) & (Hn0 & Hn & _) & Hge).
  assert (∀ k, 1 ≤ k ≤ p ∨ - n ≤ k ≤ -1 →
               occupied_by a ch (r + k * dr) (c + k * dc)) as Hcell.
  { intros k [Hk|Hk]; [by apply Hp|].
    replace (r + k * dr) with (r + (- k) * (- dr)) by ring.
    replace (c + k * dc) with (c + (- k) * (- dc)) by ring.
    apply Hn. lia. }
  exists dr, dc.
  destruct (Z_le_gt_dec 3 p); [exists 1, 2, 3|
    destruct (Z.eq_dec p 2); [exists (-1), 1, 2|
      destruct (Z.eq_dec p 1); [exists (-2), (-1), 1|exists (-3), (-2), (-1)]]].
  all: split; [done|]; split; [lia|]; split; [lia|]; split; [lia|];
       split; [lia|]; split; [|split]; apply Hcell; lia.
Qed.

(** A winning column needs three pieces of the channel on the board. *)
Lemma wins_three a col ch :
  board_shape a → 0 ≤ col < 7 → 0 ≤ ch < 2 → wins a col ch = true →
  ∃ q1 q2 q3 : Z * Z,
    q1 ≠ q2 ∧ q1 ≠ q3 ∧ q2 ≠ q3 ∧
    occupied_by a ch (fst q1) (snd q1) ∧
    occupied_by a ch (fst q2) (snd q2) ∧
    occupied_by a ch (fst q3) (snd q3).
Proof.
  intros Ha Hcol Hch Hw. unfold wins in Hw.
  destruct (landing a col) as [row|] eqn:Hl; [|done].
  pose proof (landing_range _ _ _ Hl) as Hrow.
  apply four_aligned4 in Hw; [|by apply place_shape|done].
  apply aligned4_three in Hw
    as (dr & dc & k1 & k2 & k3 & Hd & Hlt & H1 & H2 & H3 & O1 & O2 & O3).
  pose proof (same_but_at_sym _ _ _ _ (place_same_but_at a row col ch Ha Hrow Hcol Hch))
    as Hsame.
  assert (∀ k, k ≠ 0 → (row + k * dr, col + k * dc) ≠ (row, col)) as Hoff.
  { intros k Hk Heq. apply Hk. apply (ray_injective dr dc row col k 0 Hd).
    rewrite Heq. f_equal; ring. }
  exists (row + k1 * dr, col + k1 * dc), (row + k2 * dr, col + k2 * dc),
         (row + k3 * dr, col + k3 * dc). cbn [fst snd].
  split; [intros Heq; apply ray_injective in Heq; [lia|done]|].
  split; [intros Heq; apply ray_injective in Heq; [lia|done]|].
  split; [intros Heq; apply ray_injective in Heq; [lia|done]|].
  split; [|split]; eapply occupied_by_other; eauto.
Qed.

(** A double threat needs two pieces of the channel before the move. *)
Lemma threat_two_pieces a col ch :
  board_shape a → 0 ≤ col < 7 → 0 ≤ ch < 2 → threat a col ch = true →
  (2 ≤ count_pieces a ch)%nat.
Proof.
  intros Ha Hcol Hch Ht. unfold threat in Ht.
  destruct (landing a col) as [row|] eqn:Hl; [|done].
  pose proof (landing_range _ _ _ Hl) as Hrow.
  pose proof (place_shape a Ha row col ch) as Ha'.
  apply Nat.leb_le in Ht. unfold winning_columns in Ht.
  destruct (List.filter _ (range 7)) as [|c1 rest] eqn:Hf; [cbn in Ht; lia|].
  assert (In c1 (List.filter (λ c, wins (place a row col ch) c ch) (range 7)))
    as Hc1 by (rewrite Hf; by left).
  apply filter_In in Hc1 as [Hc1 Hw]. apply in_range in Hc1.
  apply wins_three in Hw
    as (q1 & q2 & q3 & N12 & N13 & N23 & O1 & O2 & O3); [|done|lia|done].
  pose proof (same_but_at_sym _ _ _ _ (place_same_but_at a row col ch Ha Hrow Hcol Hch))
    as Hsame.
  destruct q1 as [r1 c1'], q2 as [r2 c2'], q3 as [r3 c3']. cbn [fst snd] in *.
  destruct (decide ((r1, c1') = (row, col))) as [E1|E1].
  - apply (count_two a ch r2 c2' r3 c3'); try assumption.
    + eapply occupied_by_other; eauto. congruence.
    + eapply occupied_by_other; eauto. congruence.
  - destruct (decide ((r2, c2') = (row, col))) as [E2|E2].
    + apply (count_two a ch r1 c1' r3 c3'); try assumption.
      * eapply occupied_by_other; eauto.
      * eapply occupied_by_other; eauto. congruence.
    + apply (count_two a ch r1 c1' r2 c2'); try assumption.
      * eapply occupied_by_other; eauto.
      * eapply occupied_by_other; eauto.
Qed.

(** C6. For every board, column and channel, [_creates_double_threat]
    returns false when the column is full; otherwise, with a channel piece
    placed on the column's landing row, it returns true if and only if at
    least two of the columns 0..6 have, on the board after the move, a
    landing row where a second channel piece completes four. So it is
    false whenever the board holds fewer than two pieces of the channel. *)
Theorem creates_double_threat_two_wins fuel h b a col ch :
  h !! b = Some a → board_shape a → 0 ≤ col ≤ 6 → 0 ≤ ch < 2 →
  (8 ≤ fuel)%nat →
  ∃ res,
    returns (_creates_double_threat fuel b col ch) h res ∧
    ((∀ r, 0 ≤ r ≤ 5 → ¬ vacant a r col) → res = false) ∧
    (∀ row a',
       lowest_empty a col row → arr_set a row col ch 1 = Some a' →
       res = true ↔
       ∃ c1 c2, 0 ≤ c1 < c2 ∧ c2 < 7 ∧ completes a' c1 ch ∧ completes a' c2 ch) ∧
    ((count_pieces a ch < 2)%nat → res = false).
Proof.
  intros Hb Ha Hcol Hch Hfuel. exists (threat a col ch).
  split; [apply creates_double_threat_threat; (assumption || lia)|].
  split; [|split].
  - intros Hfull. apply landing_None in Hfull; [|done|lia].
    unfold threat. by rewrite Hfull.
  - intros row a' Hlow Hset.
    rewrite threat_double_threat by (assumption || lia). split.
    + intros (row' & a'' & Hlow' & Hset' & Htwo).
      apply landing_lowest_empty in Hlow, Hlow'; try (assumption || lia).
      assert (row' = row) as -> by congruence.
      assert (a'' = a') as -> by congruence. done.
    + intros Htwo. by exists row, a'.
  - intros Hfew. destruct (threat a col ch) eqn:Ht; [|done].
    apply threat_two_pieces in Ht; try (assumption || lia).
Qed.

Lemma creates_double_threat_two_wins_witness :
  ∃ res,
    returns (_creates_double_threat 8 0%nat 3 0) [bottom_three] res ∧
    ((∀ r, 0 ≤ r ≤ 5 → ¬ vacant bottom_three r 3) → res = false) ∧
    (∀ row a',
       lowest_empty bottom_three 3 row → arr_set bottom_three row 3 0 1 = Some a' →
       res = true ↔
       ∃ c1 c2, 0 ≤ c1 < c2 ∧ c2 < 7 ∧ completes a' c1 0 ∧ completes a' c2 0) ∧
    ((count_pieces bottom_three 0 < 2)%nat → res = false).
Proof.
  apply (creates_double_threat_two_wins 8 [bottom_three] 0%nat bottom_three 3 0).
  - reflexivity.
  - split; reflexivity.
  - lia.
  - lia.
  - lia.
Defined.

(** * The scenarios of the specification, run on the model *)

Example scenario_empty_board :
  fst (choose_action 8 0 (ObsArray 0%nat) (Some full_mask) [zeros]) = Ret 3.
Proof. by vm_compute. Qed.

Example scenario_mover_bottom_row :
  fst (choose_action 8 0 (ObsDict 0%nat full_mask) None [bottom_three]) = Ret 3.
Proof. by vm_compute. Qed.

Example scenario_opponent_bottom_row :
  fst (choose_action 8 0 (ObsDict 0%nat full_mask) None [opponent_bottom_three])
  = Ret 3.
Proof. by vm_compute. Qed.

Example scenario_vertical_run :
  fst (choose_action 8 0 (ObsDict 0%nat full_mask) None [vertical_three]) = Ret 3
  ∧ fst (_get_next_row 0%nat 3 [vertical_three]) = Ret (Some 2).
Proof. by vm_compute. Qed.

Example scenario_only_column_6 :
  fst (choose_action 8 0 (ObsArray 0%nat) (Some only_column_6) [both_can_win])
  = Ret 6.
Proof. by vm_compute. Qed.

Example scenario_mover_wins_first :
  fst (choose_action 8 0 (ObsDict 0%nat full_mask) None [both_can_win]) = Ret 3
  ∧ fst (_find_winning_move 8 0%nat (range 7) 1 [both_can_win]) = Ret (Some 6).
Proof. by vm_compute. Qed.

(** An empty cell at the end of a run is no win while it hangs in the
    air: the piece dropped in column 3 lands on row 5. *)
Example scenario_floating_extension :
  fst (_find_winning_move 8 0%nat (range 7) 0 [floating_diagonal]) = Ret None
  ∧ fst (_get_next_row 0%nat 3 [floating_diagonal]) = Ret (Some 5).
Proof. by vm_compute. Qed.

(** The store after a call: the board, then the copies the call made. *)
Example scenario_store_after_call :
  snd (_find_winning_move 8 0%nat [3] 0 [bottom_three])
  = [bottom_three; place bottom_three 5 3 0].
Proof. by vm_compute. Qed.

(** * Further properties of SmartAgent *)

(** X1. [_get_valid_actions] lists exactly the indices of the mask whose
    entry is 1, each once and in ascending order. *)
Theorem get_valid_actions_exact mask :
  StronglySorted Z.lt (_get_valid_actions mask) ∧
  List.NoDup (_get_valid_actions mask) ∧
  ∀ c, In c (_get_valid_actions mask) ↔
       0 ≤ c < Z.of_nat (length mask) ∧ mask !! Z.to_nat c = Some 1.
Proof.
  pose proof (valid_actions_sorted mask) as Hs.
  split; [exact Hs|]. split; [|apply valid_actions_spec].
  induction Hs as [|x l Hs IH Hx]; constructor; [|exact IH].
  intros Hin. rewrite List.Forall_forall in Hx. specialize (Hx x Hin). lia.
Qed.

Lemma lit_same_channel a a' ch r c :
  board_shape a → board_shape a' → 0 ≤ ch < 2 → same_channel a a' ch →
  lit a ch r c = lit a' ch r c.
Proof.
  intros Ha Ha' Hch Hsame. unfold lit.
  destruct ((0 <=? r) && (r <? 6) && (0 <=? c) && (c <? 7)) eqn:Hg; [|done].
  apply grid_test in Hg as [Hr Hc]. cbn [andb]. f_equal.
  specialize (Hsame r c Hr Hc).
  rewrite (arr_get_cell a Ha), (arr_get_cell a' Ha') in Hsame by assumption.
  congruence.
Qed.

Lemma run_length_same_channel a a' ch sr sc n :
  board_shape a → board_shape a' → 0 ≤ ch < 2 → same_channel a a' ch →
  ∀ r c, run_length n a ch sr sc r c = run_length n a' ch sr sc r c.
Proof.
  intros Ha Ha' Hch Hsame. induction n as [|n IH]; intros r c; [done|].
  cbn [run_length]. rewrite (lit_same_channel a a') by assumption.
  by rewrite IH.
Qed.

Lemma existsb_pointwise {A} (f g : A → bool) l :
  (∀ x, f x = g x) → existsb f l = existsb g l.
Proof.
  intros Hfg. induction l as [|x l IH]; [reflexivity|].
  cbn [existsb]. by rewrite Hfg, IH.
Qed.

Lemma four_same_channel a a' ch row col :
  board_shape a → board_shape a' → 0 ≤ ch < 2 → same_channel a a' ch →
  four a row col ch = four a' row col ch.
Proof.
  intros Ha Ha' Hch Hsame. unfold four. apply existsb_pointwise. intros d.
  unfold axis_total.
  rewrite !(run_length_same_channel a a' ch _ _ 8 Ha Ha' Hch Hsame).
  reflexivity.
Qed.

(** X2. [_check_win_from_position] looks at the pieces of the channel it
    is asked about and at nothing else: on two boards with the same
    pieces of that channel it gives the same answer, wherever the other
    player's pieces are. *)
Theorem check_win_reads_one_channel fuel h b a h' b' a' row col ch :
  h !! b = Some a → h' !! b' = Some a' →
  board_shape a → board_shape a' → 0 ≤ ch < 2 → (8 ≤ fuel)%nat →
  same_channel a a' ch →
  ∃ res,
    _check_win_from_position fuel b row col ch h = (Ret res, h) ∧
    _check_win_from_position fuel b' row col ch h' = (Ret res, h').
Proof.
  intros Hb Hb' Ha Ha' Hch Hfuel Hsame. exists (four a row col ch).
  split; [by apply (check_win_four h b a)|].
  rewrite (check_win_four h' b' a') by assumption.
  by rewrite (four_same_channel a a').
Qed.

Lemma same_channel_place_other a row col ch ch' :
  board_shape a → 0 ≤ row < 6 → 0 ≤ col < 7 → 0 ≤ ch < 2 → 0 ≤ ch' < 2 →
  ch ≠ ch' → same_channel a (place a row col ch') ch.
Proof.
  intros Ha Hrow Hcol Hch Hch' Hne r c Hr Hc.
  rewrite (arr_get_cell a Ha) by assumption.
  rewrite (arr_get_cell _ (place_shape a Ha row col ch')) by assumption.
  f_equal. symmetry. apply cell_place_other; try assumption.
  intros [= _ _ E]. by apply Hne.
Qed.

Lemma check_win_reads_one_channel_witness :
  ∃ res,
    _check_win_from_position 8 0%nat 5 3 0 [bottom_three; place bottom_three 4 3 1]
    = (Ret res, [bottom_three; place bottom_three 4 3 1]) ∧
    _check_win_from_position 8 1%nat 5 3 0 [bottom_three; place bottom_three 4 3 1]
    = (Ret res, [bottom_three; place bottom_three 4 3 1]).
Proof.
  apply (check_win_reads_one_channel 8 _ 0%nat bottom_three _ 1%nat
           (place bottom_three 4 3 1) 5 3 0).
  - reflexivity.
  - reflexivity.
  - split; reflexivity.
  - split; reflexivity.
  - lia.
  - lia.
  - apply same_channel_place_other; try lia. split; reflexivity.
Defined.

Lemma empty_at_place_other a row col ch r c :
  board_shape a → 0 ≤ row < 6 → 0 ≤ col < 7 → 0 ≤ ch < 2 →
  0 ≤ r < 6 → 0 ≤ c < 7 → (r, c) ≠ (row, col) →
  empty_at (place a row col ch) r c = empty_at a r c.
Proof.
  intros Ha Hrow Hcol Hch Hr Hc Hne. unfold empty_at.
  rewrite !(cell_place_other a Ha row col ch r c) by
    (assumption || lia || (intros [= <- <- _]; by apply Hne)).
  done.
Qed.

Lemma empty_at_place_same a row col ch :
  board_shape a → 0 ≤ row < 6 → 0 ≤ col < 7 → 0 ≤ ch < 2 →
  empty_at (place a row col ch) row col = false.
Proof.
  intros Ha Hrow Hcol Hch. unfold empty_at.
  assert (ch = 0 ∨ ch = 1) as [-> | ->] by lia;
    rewrite (cell_place_same a Ha) by (assumption || lia);
    [done|by rewrite andb_false_r].
Qed.

Lemma landing_place_other_column a row col ch c :
  board_shape a → 0 ≤ row < 6 → 0 ≤ col < 7 → 0 ≤ ch < 2 → 0 ≤ c < 7 →
  c ≠ col → landing (place a row col ch) c = landing a c.
Proof.
  intros Ha Hrow Hcol Hch Hc Hne. unfold landing. cbn [List.find].
  rewrite !(empty_at_place_other a row col ch) by
    (assumption || lia || (intros [= _ E]; by apply Hne)).
  done.
Qed.

Lemma get_next_row_result h b a col res :
  h !! b = Some a → board_shape a → 0 ≤ col < 7 →
  fst (_get_next_row b col h) = Ret res → landing a col = res.
Proof.
  intros Hb Ha Hcol. rewrite (get_next_row_landing h b a) by assumption.
  cbn. by intros [= ->].
Qed.

(** X3. Gravity: once a piece has been written on the landing row of a
    column, [_get_next_row] answers with a row strictly above it for that
    column: the row just above when that cell is empty, [None] when the
    piece went to row 0. For the other columns the answer is what it was. *)
Theorem get_next_row_after_move h b a h' b' col row ch :
  h !! b = Some a → board_shape a → 0 ≤ col ≤ 6 → 0 ≤ ch < 2 →
  fst (_get_next_row b col h) = Ret (Some row) →
  h' !! b' = Some (place a row col ch) →
  ∃ res,
    _get_next_row b' col h' = (Ret res, h') ∧
    (∀ r, res = Some r → 0 ≤ r < row) ∧
    (row = 0 → res = None) ∧
    (0 < row → vacant a (row - 1) col → res = Some (row - 1)) ∧
    ∀ c, 0 ≤ c ≤ 6 → c ≠ col →
         fst (_get_next_row b' c h') = fst (_get_next_row b c h).
Proof.
  intros Hb Ha Hcol Hch Hrow Hb'.
  apply (get_next_row_result h b a) in Hrow; [|assumption|assumption|lia].
  pose proof (landing_range _ _ _ Hrow) as Hr.
  pose proof (place_shape a Ha row col ch) as Ha'.
  pose proof Hrow as Hlow. apply landing_lowest_empty in Hlow; [|done|lia].
  destruct Hlow as (_ & Hvac & Habove).
  set (a' := place a row col ch) in *.
  assert (∀ r, 0 ≤ r < 6 → r ≠ row → vacant a' r col ↔ vacant a r col) as Hoth.
  { intros r Hr' Hne.
    rewrite <- !empty_at_vacant by (assumption || lia). unfold a'.
    rewrite empty_at_place_other by
      (assumption || lia || (intros [= E]; by apply Hne)).
    done. }
  assert (¬ vacant a' row col) as Hnew.
  { rewrite <- empty_at_vacant by (assumption || lia). unfold a'.
    rewrite empty_at_place_same by (assumption || lia). done. }
  assert (∀ r, row ≤ r ≤ 5 → ¬ vacant a' r col) as Hfull.
  { intros r Hr'. destruct (decide (r = row)) as [->|Hne]; [done|].
    rewrite Hoth by lia. apply Habove. lia. }
  exists (landing a' col).
  split; [apply (get_next_row_landing h' b' a'); (assumption || lia)|].
  split; [|split; [|split]].
  - intros r Hres. pose proof (landing_range _ _ _ Hres) as Hr'.
    apply landing_lowest_empty in Hres as (_ & Hv & _); [|done|lia].
    destruct (Z_lt_ge_dec r row) as [|Hge]; [lia|].
    destruct (Hfull r ltac:(lia) Hv).
  - intros ->. apply landing_None; [done|lia|]. intros r Hr'. apply Hfull. lia.
  - intros Hpos Hup. apply landing_lowest_empty; [done|lia|].
    split; [lia|]. split; [apply Hoth; (done || lia)|].
    intros r Hr'. apply Hfull. lia.
  - intros c Hc Hne.
    rewrite (get_next_row_landing h' b' a') by (assumption || lia).
    rewrite (get_next_row_landing h b a) by (assumption || lia). cbn.
    f_equal. apply landing_place_other_column; (assumption || lia).
Qed.

Lemma get_next_row_after_move_witness :
  ∃ res,
    _get_next_row 1%nat 3 [bottom_three; place bottom_three 5 3 1]
    = (Ret res, [bottom_three; place bottom_three 5 3 1]) ∧
    (∀ r, res = Some r → 0 ≤ r < 5) ∧
    (5 = 0 → res = None) ∧
    (0 < 5 → vacant bottom_three (5 - 1) 3 → res = Some (5 - 1)) ∧
    ∀ c, 0 ≤ c ≤ 6 → c ≠ 3 →
         fst (_get_next_row 1%nat c [bottom_three; place bottom_three 5 3 1])
         = fst (_get_next_row 0%nat c [bottom_three; place bottom_three 5 3 1]).
Proof.
  apply (get_next_row_after_move [bottom_three; place bottom_three 5 3 1] 0%nat
           bottom_three [bottom_three; place bottom_three 5 3 1] 1%nat 3 5 1).
  - reflexivity.
  - split; reflexivity.
  - lia.
  - lia.
  - reflexivity.
  - reflexivity.
Defined.

Lemma wins_after_reply a rd d ch' c ch :
  board_shape a → 0 ≤ rd < 6 → 0 ≤ d < 7 → 0 ≤ ch' < 2 →
  0 ≤ c < 7 → 0 ≤ ch < 2 → c ≠ d → ch ≠ ch' →
  wins (place a rd d ch') c ch = wins a c ch.
Proof.
  intros Ha Hrd Hd Hch' Hc Hch Hcd Hne. unfold wins.
  rewrite landing_place_other_column by assumption.
  destruct (landing a c) as [r|] eqn:Hl; [|done].
  pose proof (landing_range _ _ _ Hl) as Hr.
  pose proof (place_shape a Ha rd d ch') as Ha2.
  apply four_same_channel; try assumption; try by apply place_shape.
  intros r0 c0 Hr0 Hc0.
  rewrite !arr_get_cell by (assumption || by apply place_shape). f_equal.
  destruct (decide ((r0, c0) = (r, c))) as [[= -> ->]|Hoff].
  - by rewrite !cell_place_same by assumption.
  - rewrite (cell_place_other _ Ha2 r c ch r0 c0 ch) by
      (assumption || (intros [= <- <-]; by apply Hoff)).
    rewrite (cell_place_other a Ha r c ch r0 c0 ch) by
      (assumption || (intros [= <- <-]; by apply Hoff)).
    apply cell_place_other; try assumption. intros [= _ _ E]. by apply Hne.
Qed.

(** X4. A double threat cannot be parried by one reply. When
    [_creates_double_threat] answers [True] for a column, then after that
    move and after any single piece of the other player, dropped in any
    column that still has room, [_find_winning_move] over the seven
    columns finds a winning column for the player who made the threat. *)
Theorem double_threat_survives_reply fuel h b a col row ch ch' h1 b1 d rd h2 b2 :
  h !! b = Some a → board_shape a → 0 ≤ col ≤ 6 → (8 ≤ fuel)%nat →
  0 ≤ ch < 2 → 0 ≤ ch' < 2 → ch ≠ ch' →
  fst (_creates_double_threat fuel b col ch h) = Ret true →
  fst (_get_next_row b col h) = Ret (Some row) →
  h1 !! b1 = Some (place a row col ch) →
  0 ≤ d ≤ 6 → fst (_get_next_row b1 d h1) = Ret (Some rd) →
  h2 !! b2 = Some (place (place a row col ch) rd d ch') →
  ∃ c, fst (_find_winning_move fuel b2 (range 7) ch h2) = Ret (Some c) ∧
       0 ≤ c ≤ 6.
Proof.
  intros Hb Ha Hcol Hfuel Hch Hch' Hne Ht Hrow Hb1 Hd Hrd Hb2.
  apply (get_next_row_result h b a) in Hrow; [|assumption|assumption|lia].
  pose proof (landing_range _ _ _ Hrow) as Hr.
  pose proof (place_shape a Ha row col ch) as Ha1.
  apply (get_next_row_result h1 b1 (place a row col ch)) in Hrd;
    [|assumption|assumption|lia].
  pose proof (landing_range _ _ _ Hrd) as Hrd'.
  pose proof (place_shape _ Ha1 rd d ch') as Ha2.
  rewrite (returns_fst _ _ _
             (creates_double_threat_threat a fuel ch Ha Hch Hfuel h b col Hb
                ltac:(lia))) in Ht.
  injection Ht as Ht. unfold threat in Ht. rewrite Hrow in Ht.
  apply Nat.leb_le in Ht. unfold winning_columns in Ht.
  apply filter_two_sorted in Ht as (c1 & c2 & H1 & H2 & Hlt & W1 & W2);
    [|apply range_sorted].
  apply in_range in H1, H2.
  set (a1 := place a row col ch) in *.
  set (a2 := place a1 rd d ch') in *.
  assert (∃ c, 0 ≤ c ≤ 6 ∧ wins a2 c ch = true) as (c & Hc & Hw).
  { destruct (decide (c1 = d)) as [->|Hc1].
    - exists c2. split; [lia|].
      unfold a2. rewrite wins_after_reply; (assumption || lia).
    - exists c1. split; [lia|].
      unfold a2. rewrite wins_after_reply; (assumption || lia). }
  pose proof (find_winning_move_find a2 fuel ch Ha2 Hch Hfuel b2 (range 7) h2 Hb2
                range7_columns) as Hret.
  rewrite (returns_fst _ _ _ Hret).
  destruct (List.find (λ c0, wins a2 c0 ch) (range 7)) as [c0|] eqn:Hf.
  - apply find_some in Hf as [Hin _]. apply in_range in Hin.
    exists c0. split; [done|lia].
  - rewrite (find_none _ _ Hf c) in Hw; [done|]. apply in_range. lia.
Qed.

Lemma double_threat_survives_reply_witness :
  ∃ c,
    fst (_find_winning_move 8 2%nat (range 7) 0
           [open_pair; place open_pair 5 4 0; place (place open_pair 5 4 0) 5 1 1])
    = Ret (Some c) ∧ 0 ≤ c ≤ 6.
Proof.
  apply (double_threat_survives_reply 8
           [open_pair; place open_pair 5 4 0; place (place open_pair 5 4 0) 5 1 1]
           0%nat open_pair 4 5 0 1
           [open_pair; place open_pair 5 4 0; place (place open_pair 5 4 0) 5 1 1]
           1%nat 1 5
           [open_pair; place open_pair 5 4 0; place (place open_pair 5 4 0) 5 1 1]
           2%nat).
  - reflexivity.
  - split; reflexivity.
  - lia.
  - lia.
  - lia.
  - lia.
  - lia.
  - by vm_compute.
  - by vm_compute.
  - reflexivity.
  - lia.
  - by vm_compute.
  - reflexivity.
Defined.

Lemma find_all_false {A} (f : A → bool) l :
  (∀ x, In x l → f x = false) → List.find f l = None.
Proof.
  induction l as [|x l IH]; intros Hall; [done|]. cbn.
  rewrite (Hall x) by (by left). apply IH. intros y Hy. apply Hall. by right.
Qed.

Lemma wins_two_pieces a col ch :
  board_shape a → 0 ≤ col < 7 → 0 ≤ ch < 2 → wins a col ch = true →
  (2 ≤ count_pieces a ch)%nat.
Proof.
  intros Ha Hcol Hch Hw.
  apply wins_three in Hw
    as ([r1 c1] & [r2 c2] & q3 & N12 & _ & _ & O1 & O2 & _); try assumption.
  by apply (count_two a ch r1 c1 r2 c2).
Qed.

(** X5. In the opening, rules 1 to 4 cannot apply: on a board where each
    player has fewer than two pieces, [choose_action] returns the first
    legal column of the order [3,2,4,1,5,0,6], whatever cells the pieces
    are on. *)
Theorem choose_action_opening fuel rnd o am mask h a :
  obs_mask o am = Some mask → h !! obs_board o = Some a →
  board_shape a → length mask = 7%nat → (8 ≤ fuel)%nat → In 1 mask →
  (count_pieces a 0 < 2)%nat → (count_pieces a 1 < 2)%nat →
  ∃ c, returns (choose_action fuel rnd o am) h c ∧ first_preferred mask c.
Proof.
  intros Hm Hb Ha Hl Hfuel H1 Hc0 Hc1.
  destruct (choose_action_policy fuel rnd o am mask h a) as [ext Hc]; try assumption.
  destruct (policy_Some a mask Hl H1) as [c Hp]. rewrite Hp in Hc.
  exists c. split; [by exists ext|].
  pose proof (valid_actions_columns mask Hl) as Hv.
  rewrite List.Forall_forall in Hv.
  assert (∀ ch, 0 ≤ ch < 2 → (count_pieces a ch < 2)%nat →
    List.find (λ c, wins a c ch) (_get_valid_actions mask) = None ∧
    List.find (λ c, threat a c ch) (_get_valid_actions mask) = None) as Hnone.
  { intros ch Hch Hfew. split; apply find_all_false; intros x Hx.
    - destruct (wins a x ch) eqn:Hw; [|done].
      apply wins_two_pieces in Hw; [lia|assumption|by apply Hv|assumption].
    - destruct (threat a x ch) eqn:Ht; [|done].
      apply threat_two_pieces in Ht; [lia|assumption|by apply Hv|assumption]. }
  destruct (Hnone 0 ltac:(lia) Hc0) as [W0 T0].
  destruct (Hnone 1 ltac:(lia) Hc1) as [W1 T1].
  unfold policy in Hp. rewrite W0, W1, T0, T1 in Hp.
  apply find_split in Hp as (pre & post & Hsplit & Hin & Hpre).
  exists pre, post. split; [done|].
  split; [apply legal_valid; [done|by apply py_in_In]|].
  intros c' Hc' Hleg. apply legal_valid, py_in_In in Hleg; [|done].
  by rewrite (Hpre c' Hc') in Hleg.
Qed.

Lemma choose_action_opening_witness :
  ∃ c,
    returns (choose_action 8 0 (ObsDict 0%nat full_mask) None) [first_moves] c ∧
    first_preferred full_mask c.
Proof.
  apply (choose_action_opening 8 0 (ObsDict 0%nat full_mask) None full_mask
           [first_moves] first_moves).
  - reflexivity.
  - reflexivity.
  - split; reflexivity.
  - reflexivity.
  - lia.
  - simpl. lia.
  - vm_compute. lia.
  - vm_compute. lia.
Defined.

(** * The action mask computed from the board *)

Lemma top_row_free_board a :
  board_shape a →
  top_row_free (np_sum_axis2 a)
  = Some (map (λ c, if cell a 0 c 0 + cell a 0 c 1 =? 0 then 1 else 0) (range 7)).
Proof.
  intros [Hs Hl]. destruct a as [sh dat]. cbn in Hs, Hl. subst sh.
  unfold top_row_free, np_sum_axis2, cell, arr_get, offset. cbn.
  rewrite !Z.add_0_r. reflexivity.
Qed.

Lemma computed_mask_entry a c :
  board_shape a → 0 ≤ c < 7 →
  map (λ c, if cell a 0 c 0 + cell a 0 c 1 =? 0 then 1 else 0) (range 7)
    !! Z.to_nat c
  = Some (if cell a 0 c 0 + cell a 0 c 1 =? 0 then 1 else 0).
Proof.
  intros Ha Hc.
  assert (c = 0 ∨ c = 1 ∨ c = 2 ∨ c = 3 ∨ c = 4 ∨ c = 5 ∨ c = 6)
    as [->|[->|[->|[->|[->|[->| ->]]]]]] by lia; reflexivity.
Qed.

Lemma binary_cell a r c ch :
  board_shape a → binary a → 0 ≤ r < 6 → 0 ≤ c < 7 → 0 ≤ ch < 2 →
  cell a r c ch = 0 ∨ cell a r c ch = 1.
Proof.
  intros Ha Hbin Hr Hc Hch. specialize (Hbin r c ch Hr Hc Hch).
  rewrite (arr_get_cell a Ha) in Hbin by assumption.
  destruct Hbin as [[= ->]|[= ->]]; auto.
Qed.

Lemma top_free_vacant a c :
  board_shape a → binary a → 0 ≤ c < 7 →
  (cell a 0 c 0 + cell a 0 c 1 =? 0) = true ↔ vacant a 0 c.
Proof.
  intros Ha Hbin Hc. rewrite Z.eqb_eq. unfold vacant.
  rewrite !(arr_get_cell a Ha) by lia.
  pose proof (binary_cell a 0 c 0 Ha Hbin ltac:(lia) Hc ltac:(lia)).
  pose proof (binary_cell a 0 c 1 Ha Hbin ltac:(lia) Hc ltac:(lia)).
  split.
  - intros Hsum. split; f_equal; lia.
  - intros [[= ->] [= ->]]. done.
Qed.

Lemma settled_top a r c :
  settled a → 0 ≤ r < 6 → 0 ≤ c < 7 → vacant a r c → vacant a 0 c.
Proof.
  intros Hset Hr Hc.
  assert (∀ n : nat, (n < 6)%nat → vacant a (Z.of_nat n) c → vacant a 0 c) as Hn.
  { induction n as [|n IH]; intros Hlt Hv; [done|].
    apply IH; [lia|]. apply Hset; [lia|done|].
    replace (Z.of_nat n + 1) with (Z.of_nat (S n)) by lia. done. }
  intros Hv. apply (Hn (Z.to_nat r)); [lia|]. by rewrite Z2Nat.id by lia.
Qed.

(** X6. The mask of [get_action_mask] and [_get_next_row] agree. On a
    board of zeros and ones the mask has seven entries, each 0 or 1; a
    column with entry 1 has a landing row; and when no piece floats above
    an empty cell, a column with entry 0 is full for [_get_next_row]. *)
Theorem get_action_mask_next_row h b a :
  h !! b = Some a → board_shape a → binary a →
  ∃ mask,
    get_action_mask b h = (Ret mask, h) ∧ length mask = 7%nat ∧
    (∀ c, 0 ≤ c ≤ 6 →
          mask !! Z.to_nat c = Some 1 ∨ mask !! Z.to_nat c = Some 0) ∧
    (∀ c, 0 ≤ c ≤ 6 → mask !! Z.to_nat c = Some 1 →
          ∃ row, _get_next_row b c h = (Ret (Some row), h)) ∧
    (settled a →
     ∀ c, 0 ≤ c ≤ 6 → mask !! Z.to_nat c = Some 0 →
          _get_next_row b c h = (Ret None, h)).
Proof.
  intros Hb Ha Hbin. eexists. split.
  { unfold get_action_mask. rewrite Hb, (top_row_free_board a Ha). reflexivity. }
  split; [reflexivity|]. split; [|split].
  - intros c Hc. rewrite computed_mask_entry by (assumption || lia).
    destruct (_ =? 0); auto.
  - intros c Hc. rewrite computed_mask_entry by (assumption || lia).
    destruct (cell a 0 c 0 + cell a 0 c 1 =? 0) eqn:Hfree; [|done]. intros _.
    apply top_free_vacant in Hfree; [|assumption|assumption|lia].
    rewrite (get_next_row_landing h b a) by (assumption || lia).
    destruct (landing a c) as [row|] eqn:Hl; [by exists row|].
    pose proof (proj1 (landing_None a Ha c ltac:(lia)) Hl) as Hfull.
    destruct (Hfull 0 ltac:(lia) Hfree).
  - intros Hset c Hc. rewrite computed_mask_entry by (assumption || lia).
    destruct (cell a 0 c 0 + cell a 0 c 1 =? 0) eqn:Hfree; [done|]. intros _.
    rewrite (get_next_row_landing h b a) by (assumption || lia).
    destruct (landing a c) as [row|] eqn:Hl; [|done]. exfalso.
    pose proof (landing_range _ _ _ Hl) as Hr.
    apply landing_lowest_empty in Hl as (_ & Hv & _); [|assumption|lia].
    apply (settled_top a row c Hset) in Hv; [|lia|lia].
    apply top_free_vacant in Hv; [|assumption|assumption|lia]. congruence.
Qed.

Lemma binary_open_pair :
  binary open_pair.
Proof.
  intros r c ch Hr Hc Hch.
  assert (r = 0 ∨ r = 1 ∨ r = 2 ∨ r = 3 ∨ r = 4 ∨ r = 5)
    as [->|[->|[->|[->|[->| ->]]]]] by lia;
  assert (c = 0 ∨ c = 1 ∨ c = 2 ∨ c = 3 ∨ c = 4 ∨ c = 5 ∨ c = 6)
    as [->|[->|[->|[->|[->|[->| ->]]]]]] by lia;
  assert (ch = 0 ∨ ch = 1) as [->| ->] by lia;
  vm_compute; auto.
Qed.

Lemma get_action_mask_next_row_witness :
  ∃ mask,
    get_action_mask 0%nat [open_pair] = (Ret mask, [open_pair]) ∧
    length mask = 7%nat ∧
    (∀ c, 0 ≤ c ≤ 6 →
          mask !! Z.to_nat c = Some 1 ∨ mask !! Z.to_nat c = Some 0) ∧
    (∀ c, 0 ≤ c ≤ 6 → mask !! Z.to_nat c = Some 1 →
          ∃ row, _get_next_row 0%nat c [open_pair] = (Ret (Some row), [open_pair])) ∧
    (settled open_pair →
     ∀ c, 0 ≤ c ≤ 6 → mask !! Z.to_nat c = Some 0 →
          _get_next_row 0%nat c [open_pair] = (Ret None, [open_pair])).
Proof.
  apply (get_action_mask_next_row [open_pair] 0%nat open_pair).
  - reflexivity.
  - split; reflexivity.
  - exact binary_open_pair.
Defined.

Lemma computed_mask_legal a c :
  board_shape a → binary a → 0 ≤ c < 7 →
  map (λ c, if cell a 0 c 0 + cell a 0 c 1 =? 0 then 1 else 0) (range 7)
    !! Z.to_nat c = Some 1 ↔ vacant a 0 c.
Proof.
  intros Ha Hbin Hc. rewrite computed_mask_entry by assumption.
  rewrite <- top_free_vacant by assumption.
  destruct (_ =? 0); split; (done || intros [=]).
Qed.

Lemma choose_action_no_legal_move_aux fuel rnd o am mask h :
  obs_mask o am = Some mask → ¬ In 1 mask →
  choose_action fuel rnd o am h = (Raise IndexError, h).
Proof.
  intros Hm Hno. unfold choose_action. rewrite Hm.
  by rewrite (valid_actions_nil mask Hno).
Qed.

(** X7. With the mask that [get_action_mask] computes from the board,
    [choose_action] never plays a full column: on a board of zeros and
    ones it returns a column whose top cell is empty, for which
    [_get_next_row] finds a landing row, and it raises IndexError exactly
    when the top row has no empty cell. *)
Theorem choose_action_on_computed_mask fuel rnd h b a :
  h !! b = Some a → board_shape a → binary a → (8 ≤ fuel)%nat →
  ∃ mask,
    get_action_mask b h = (Ret mask, h) ∧
    ((∃ c, 0 ≤ c ≤ 6 ∧ vacant a 0 c) →
     ∃ c row,
       returns (choose_action fuel rnd (ObsArray b) (Some mask)) h c ∧
       0 ≤ c ≤ 6 ∧ vacant a 0 c ∧
       _get_next_row b c h = (Ret (Some row), h)) ∧
    ((∀ c, 0 ≤ c ≤ 6 → ¬ vacant a 0 c) →
     choose_action fuel rnd (ObsArray b) (Some mask) h = (Raise IndexError, h)).
Proof.
  intros Hb Ha Hbin Hfuel.
  set (mask := map (λ c, if cell a 0 c 0 + cell a 0 c 1 =? 0 then 1 else 0)
                   (range 7)).
  exists mask. split.
  { unfold get_action_mask. rewrite Hb, (top_row_free_board a Ha). reflexivity. }
  split.
  - intros (c0 & Hc0 & Hv0).
    assert (In 1 mask) as H1.
    { apply list_elem_of_In. apply (list_elem_of_lookup_2 _ (Z.to_nat c0)).
      apply computed_mask_legal; (assumption || lia). }
    destruct (choose_action_policy fuel rnd (ObsArray b) (Some mask) mask h a)
      as [ext Hc]; try (assumption || reflexivity).
    destruct (policy_Some a mask eq_refl H1) as [c Hp]. rewrite Hp in Hc.
    apply policy_in_valid, valid_actions_spec in Hp as [Hr Hmc].
    change (Z.of_nat (length mask)) with 7 in Hr.
    apply computed_mask_legal in Hmc; [|assumption|assumption|lia].
    destruct (landing a c) as [row|] eqn:Hl.
    + exists c, row. split; [by exists ext|]. split; [lia|]. split; [done|].
      rewrite (get_next_row_landing h b a) by (assumption || lia).
      by rewrite Hl.
    + pose proof (proj1 (landing_None a Ha c ltac:(lia)) Hl) as Hfull.
      destruct (Hfull 0 ltac:(lia) Hmc).
  - intros Hfull. apply (choose_action_no_legal_move_aux fuel rnd _ _ mask);
      [reflexivity|].
    intros H1. apply list_elem_of_In, list_elem_of_lookup in H1 as [i Hi].
    apply lookup_lt_Some in Hi as Hlt. change (length mask) with 7%nat in Hlt.
    apply (Hfull (Z.of_nat i)); [lia|].
    apply computed_mask_legal; try (assumption || lia). by rewrite Nat2Z.id.
Qed.

Lemma choose_action_on_computed_mask_witness :
  ∃ mask,
    get_action_mask 0%nat [open_pair] = (Ret mask, [open_pair]) ∧
    ((∃ c, 0 ≤ c ≤ 6 ∧ vacant open_pair 0 c) →
     ∃ c row,
       returns (choose_action 8 0 (ObsArray 0%nat) (Some mask)) [open_pair] c ∧
       0 ≤ c ≤ 6 ∧ vacant open_pair 0 c ∧
       _get_next_row 0%nat c [open_pair] = (Ret (Some row), [open_pair])) ∧
    ((∀ c, 0 ≤ c ≤ 6 → ¬ vacant open_pair 0 c) →
     choose_action 8 0 (ObsArray 0%nat) (Some mask) [open_pair]
     = (Raise IndexError, [open_pair])).
Proof.
  apply (choose_action_on_computed_mask 8 0 [open_pair] 0%nat open_pair).
  - reflexivity.
  - split; reflexivity.
  - exact binary_open_pair.
  - lia.
Defined.

(** * RandomAgent *)

Lemma np_nonzero_spec mask c :
  In c (np_nonzero mask) ↔
  0 ≤ c < Z.of_nat (length mask) ∧
  ∃ v, mask !! Z.to_nat c = Some v ∧ v ≠ 0.
Proof.
  unfold np_nonzero, range. rewrite filter_In, in_map_iff. split.
  - intros [(k & <- & Hk) Hm]. apply in_seq in Hk. split; [lia|].
    destruct (mask !! Z.to_nat (Z.of_nat k)) as [v|]; [|done].
    exists v. split; [done|]. intros ->. done.
  - intros [Hc (v & Hm & Hv)]. split.
    + exists (Z.to_nat c). split; [lia|]. apply in_seq. lia.
    + rewrite Hm. apply negb_true_iff, Z.eqb_neq. done.
Qed.

Lemma np_nonzero_nil mask : np_nonzero mask = [] ↔ ∀ v, In v mask → v = 0.
Proof.
  split.
  - intros Hnil v Hv. apply list_elem_of_In, list_elem_of_lookup in Hv as [i Hi].
    destruct (Z.eq_dec v 0) as [|Hne]; [done|]. exfalso.
    assert (In (Z.of_nat i) (np_nonzero mask)) as Hin.
    { apply np_nonzero_spec. apply lookup_lt_Some in Hi as Hlt.
      split; [lia|]. exists v. by rewrite Nat2Z.id. }
    by rewrite Hnil in Hin.
  - intros Hall. destruct (np_nonzero mask) as [|c rest] eqn:Hnz; [done|].
    exfalso. assert (In c (np_nonzero mask)) as Hin by (rewrite Hnz; by left).
    apply np_nonzero_spec in Hin as [_ (v & Hm & Hv)]. apply Hv, Hall.
    apply list_elem_of_In. by eapply list_elem_of_lookup_2.
Qed.

(** The mask the method works with when the caller supplies one. *)
Lemma random_choose_supplied self rnd o am mask h :
  match am, o with
  | Some m, _ => Some m
  | None, RDict _ m => m
  | None, RArray _ => None
  end = Some mask →
  random_choose_action self rnd o am h
  = (match np_nonzero mask with
     | [] => Failed ValueError
     | x :: _ => Chosen (nth (rnd mod length (np_nonzero mask)) (np_nonzero mask) x)
     end, {| moves_count := moves_count self + 1 |}).
Proof.
  intros Hm. unfold random_choose_action.
  destruct am as [m|], o as [obs m'|b']; cbn in Hm; try discriminate;
    [injection Hm as ->..|subst m']; by destruct (np_nonzero mask).
Qed.

(** X8. Given a mask, as the argument or in the observation dict,
    [RandomAgent.choose_action] returns an index of the mask whose entry
    is not zero, and raises ValueError exactly when every entry is zero.
    Either way [moves_count] has grown by one: failed calls are counted
    too. *)
Theorem random_choose_action_legal self rnd o am mask h :
  match am, o with
  | Some m, _ => Some m
  | None, RDict _ m => m
  | None, RArray _ => None
  end = Some mask →
  moves_count (snd (random_choose_action self rnd o am h)) = moves_count self + 1 ∧
  match fst (random_choose_action self rnd o am h) with
  | Chosen c =>
      0 ≤ c < Z.of_nat (length mask) ∧ ∃ v, mask !! Z.to_nat c = Some v ∧ v ≠ 0
  | Failed e => e = ValueError ∧ ∀ v, In v mask → v = 0
  | Dangling => False
  end.
Proof.
  intros Hm. rewrite (random_choose_supplied self rnd o am mask h Hm). cbn.
  split; [done|].
  destruct (np_nonzero mask) as [|x rest] eqn:Hnz.
  - split; [done|]. by apply np_nonzero_nil.
  - apply np_nonzero_spec. rewrite Hnz.
    apply nth_In. apply Nat.mod_upper_bound. done.
Qed.

Lemma random_choose_action_legal_witness :
  moves_count
    (snd (random_choose_action {| moves_count := 4 |} 5
            (RDict None (Some [0; 2; 0; 1; 0; 0; 1])) None [])) = 4 + 1 ∧
  match fst (random_choose_action {| moves_count := 4 |} 5
               (RDict None (Some [0; 2; 0; 1; 0; 0; 1])) None []) with
  | Chosen c =>
      0 ≤ c < Z.of_nat (length [0; 2; 0; 1; 0; 0; 1]) ∧
      ∃ v, [0; 2; 0; 1; 0; 0; 1] !! Z.to_nat c = Some v ∧ v ≠ 0
  | Failed e => e = ValueError ∧ ∀ v, In v [0; 2; 0; 1; 0; 0; 1] → v = 0
  | Dangling => False
  end.
Proof.
  apply (random_choose_action_legal {| moves_count := 4 |} 5
           (RDict None (Some [0; 2; 0; 1; 0; 0; 1])) None [0; 2; 0; 1; 0; 0; 1] []).
  reflexivity.
Defined.

(** X9. Every legal column can be drawn: for each index of the mask whose
    entry is not zero there is a draw of the generator for which
    [RandomAgent.choose_action] returns it. *)
Theorem random_choose_action_reaches self o am mask h c v :
  match am, o with
  | Some m, _ => Some m
  | None, RDict _ m => m
  | None, RArray _ => None
  end = Some mask →
  0 ≤ c → mask !! Z.to_nat c = Some v → v ≠ 0 →
  ∃ rnd, fst (random_choose_action self rnd o am h) = Chosen c.
Proof.
  intros Hm Hc Hmc Hv.
  assert (In c (np_nonzero mask)) as Hin.
  { apply np_nonzero_spec. apply lookup_lt_Some in Hmc as Hlt.
    split; [lia|]. by exists v. }
  apply (In_nth _ _ 0) in Hin as (i & Hi & Hnth).
  exists i. rewrite (random_choose_supplied self i o am mask h Hm). cbn.
  destruct (np_nonzero mask) as [|x rest] eqn:Hnz; [cbn in Hi; lia|].
  f_equal. rewrite Nat.mod_small by done.
  rewrite <- Hnth. apply nth_indep. done.
Qed.

Lemma random_choose_action_reaches_witness :
  ∃ rnd,
    fst (random_choose_action {| moves_count := 0 |} rnd (RArray 0%nat)
           (Some [0; 2; 0; 1; 0; 0; 1]) [zeros]) = Chosen 6.
Proof.
  apply (random_choose_action_reaches {| moves_count := 0 |} (RArray 0%nat)
           (Some [0; 2; 0; 1; 0; 0; 1]) [0; 2; 0; 1; 0; 0; 1] [zeros] 6 1).
  - reflexivity.
  - lia.
  - reflexivity.
  - lia.
Defined.

(** X10. Without a mask [RandomAgent.choose_action] computes one from the
    top row of the board. On a board of zeros and ones it returns a column
    whose top cell is empty, for which [_get_next_row] finds a landing
    row, and it raises ValueError exactly when the top row is full. A dict
    with neither key raises AttributeError; that call is counted too. *)
Theorem random_choose_action_from_board self rnd o h b a :
  o = RArray b ∨ o = RDict (Some b) None →
  h !! b = Some a → board_shape a → binary a →
  match fst (random_choose_action self rnd o None h) with
  | Chosen c =>
      0 ≤ c ≤ 6 ∧ vacant a 0 c ∧
      ∃ row, _get_next_row b c h = (Ret (Some row), h)
  | Failed e => e = ValueError ∧ ∀ c, 0 ≤ c ≤ 6 → ¬ vacant a 0 c
  | Dangling => False
  end ∧
  random_choose_action self rnd (RDict None None) None h
  = (Failed AttributeError, {| moves_count := moves_count self + 1 |}).
Proof.
  intros Ho Hb Ha Hbin. split; [|reflexivity].
  set (mask := map (λ c, if cell a 0 c 0 + cell a 0 c 1 =? 0 then 1 else 0)
                   (range 7)).
  assert (fst (random_choose_action self rnd o None h)
          = match np_nonzero mask with
            | [] => Failed ValueError
            | x :: _ =>
                Chosen (nth (rnd mod length (np_nonzero mask)) (np_nonzero mask) x)
            end) as ->.
  { unfold random_choose_action.
    destruct Ho as [-> | ->]; rewrite Hb, (top_row_free_board a Ha);
      fold mask; by destruct (np_nonzero mask). }
  assert (∀ c, In c (np_nonzero mask) ↔ 0 ≤ c ≤ 6 ∧ vacant a 0 c) as Hspec.
  { intros c. rewrite np_nonzero_spec.
    change (Z.of_nat (length mask)) with 7. split.
    - intros [Hc (v & Hm & Hv)]. split; [lia|].
      apply computed_mask_legal; try assumption. fold mask. rewrite Hm.
      unfold mask in Hm. rewrite computed_mask_entry in Hm by assumption.
      destruct (_ =? 0); congruence.
    - intros [Hc Hvac]. split; [lia|]. exists 1. split; [|done].
      apply computed_mask_legal; (assumption || lia). }
  destruct (np_nonzero mask) as [|x rest] eqn:Hnz.
  - split; [done|]. intros c Hc Hvac.
    destruct (proj2 (Hspec c) (conj Hc Hvac)).
  - set (c := nth _ _ x).
    assert (In c (x :: rest)) as Hin.
    { apply nth_In. apply Nat.mod_upper_bound. done. }
    apply Hspec in Hin as [Hc Hvac]. split; [done|]. split; [done|].
    rewrite (get_next_row_landing h b a) by (assumption || lia).
    destruct (landing a c) as [row|] eqn:Hl; [by exists row|].
    pose proof (proj1 (landing_None a Ha c ltac:(lia)) Hl) as Hfull.
    destruct (Hfull 0 ltac:(lia) Hvac).
Qed.

Lemma random_choose_action_from_board_witness :
  match fst (random_choose_action {| moves_count := 0 |} 3 (RArray 0%nat) None
               [open_pair]) with
  | Chosen c =>
      0 ≤ c ≤ 6 ∧ vacant open_pair 0 c ∧
      ∃ row, _get_next_row 0%nat c [open_pair] = (Ret (Some row), [open_pair])
  | Failed e => e = ValueError ∧ ∀ c, 0 ≤ c ≤ 6 → ¬ vacant open_pair 0 c
  | Dangling => False
  end ∧
  random_choose_action {| moves_count := 0 |} 3 (RDict None None) None [open_pair]
  = (Failed AttributeError, {| moves_count := 0 + 1 |}).
Proof.
  apply (random_choose_action_from_board {| moves_count := 0 |} 3 (RArray 0%nat)
           [open_pair] 0%nat open_pair).
  - by left.
  - reflexivity.
  - split; reflexivity.
  - exact binary_open_pair.
Defined.

Lemma np_nonzero_valid_actions mask :
  (∀ v, In v mask → v = 0 ∨ v = 1) → np_nonzero mask = _get_valid_actions mask.
Proof.
  intros Hbin. unfold np_nonzero, _get_valid_actions.
  apply filter_ext_in. intros c Hc.
  destruct (mask !! Z.to_nat c) as [v|] eqn:Hm; [|done].
  destruct (Hbin v) as [-> | ->]; [|done..].
  apply list_elem_of_In. by eapply list_elem_of_lookup_2.
Qed.

(** X11. The two agents read the mask differently: SmartAgent takes the
    entries equal to 1 as legal, RandomAgent the entries different from 0.
    On a mask of zeros and ones the legal columns are the same, and the
    column SmartAgent returns is one RandomAgent can draw. On a mask with
    a non-zero entry but no entry equal to 1, RandomAgent returns a column
    where SmartAgent raises IndexError. *)
Theorem agents_read_mask fuel rnd self mask h b a :
  h !! b = Some a → board_shape a → length mask = 7%nat → (8 ≤ fuel)%nat →
  ((∀ v, In v mask → v = 0 ∨ v = 1) →
   np_nonzero mask = _get_valid_actions mask ∧
   (In 1 mask →
    ∃ c rnd',
      returns (choose_action fuel rnd (ObsArray b) (Some mask)) h c ∧
      fst (random_choose_action self rnd' (RArray b) (Some mask) h) = Chosen c)) ∧
  (¬ In 1 mask → (∃ v, In v mask ∧ v ≠ 0) →
   choose_action fuel rnd (ObsArray b) (Some mask) h = (Raise IndexError, h) ∧
   ∃ c, fst (random_choose_action self rnd (RArray b) (Some mask) h) = Chosen c).
Proof.
  intros Hb Ha Hl Hfuel. split.
  - intros Hbin. split; [by apply np_nonzero_valid_actions|]. intros H1.
    destruct (choose_action_policy fuel rnd (ObsArray b) (Some mask) mask h a)
      as [ext Hc]; try (assumption || reflexivity).
    destruct (policy_Some a mask Hl H1) as [c Hp]. rewrite Hp in Hc.
    apply policy_in_valid in Hp.
    rewrite <- np_nonzero_valid_actions in Hp by assumption.
    apply (In_nth _ _ 0) in Hp as (i & Hi & Hnth).
    exists c, i. split; [by exists ext|].
    rewrite (random_choose_supplied self i (RArray b) (Some mask) mask h eq_refl).
    cbn. destruct (np_nonzero mask) as [|x rest] eqn:Hnz; [cbn in Hi; lia|].
    f_equal. rewrite Nat.mod_small by done.
    rewrite <- Hnth. apply nth_indep. done.
  - intros Hno (v & Hv & Hv0). split.
    + by apply (choose_action_no_legal_move_aux fuel rnd _ _ mask).
    + rewrite (random_choose_supplied self rnd (RArray b) (Some mask) mask h eq_refl).
      cbn. destruct (np_nonzero mask) as [|x rest] eqn:Hnz; [|by eexists].
      exfalso. apply Hv0. by apply (proj1 (np_nonzero_nil mask) Hnz).
Qed.

Lemma agents_read_mask_witness :
  ((∀ v, In v [2; 0; 0; 0; 0; 0; 0] → v = 0 ∨ v = 1) →
   np_nonzero [2; 0; 0; 0; 0; 0; 0] = _get_valid_actions [2; 0; 0; 0; 0; 0; 0] ∧
   (In 1 [2; 0; 0; 0; 0; 0; 0] →
    ∃ c rnd',
      returns (choose_action 8 0 (ObsArray 0%nat) (Some [2; 0; 0; 0; 0; 0; 0]))
              [zeros] c ∧
      fst (random_choose_action {| moves_count := 0 |} rnd' (RArray 0%nat)
             (Some [2; 0; 0; 0; 0; 0; 0]) [zeros]) = Chosen c)) ∧
  (¬ In 1 [2; 0; 0; 0; 0; 0; 0] → (∃ v, In v [2; 0; 0; 0; 0; 0; 0] ∧ v ≠ 0) →
   choose_action 8 0 (ObsArray 0%nat) (Some [2; 0; 0; 0; 0; 0; 0]) [zeros]
   = (Raise IndexError, [zeros]) ∧
   ∃ c, fst (random_choose_action {| moves_count := 0 |} 0 (RArray 0%nat)
               (Some [2; 0; 0; 0; 0; 0; 0]) [zeros]) = Chosen c).
Proof.
  apply (agents_read_mask 8 0 {| moves_count := 0 |} [2; 0; 0; 0; 0; 0; 0]
           [zeros] 0%nat zeros).
  - reflexivity.
  - split; reflexivity.
  - reflexivity.
  - lia.
Defined.

(** * print_board *)

Lemma append_assoc (s1 s2 s3 : string) : (s1 +:+ s2) +:+ s3 = s1 +:+ s2 +:+ s3.
Proof.
  induction s1 as [|x s1 IH]; [done|].
  change (String x ((s1 +:+ s2) +:+ s3) = String x (s1 +:+ s2 +:+ s3)).
  by rewrite IH.
Qed.

Lemma append_nil_r (s : string) : s +:+ EmptyString = s.
Proof.
  induction s as [|x s IH]; [done|].
  change (String x (s +:+ EmptyString) = String x s). by rewrite IH.
Qed.

Lemma print_cells_text h b a row cols :
  h !! b = Some a → board_shape a → 0 ≤ row < 6 →
  Forall (λ c, 0 ≤ c < 7) cols →
  ∀ out, print_cells b row cols out h = (Ret (out +:+ cells_text a row cols), h).
Proof.
  intros Hb Ha Hrow. induction 1 as [|col cols Hcol _ IH]; intros out.
  { cbn [print_cells print_rows cells_text rows_text].
    by rewrite append_nil_r. }
  cbn [print_cells cells_text]. unfold bind at 1, glyph.
  rewrite (load_cell h b a Hb Ha) by (assumption || lia).
  destruct (cell a row col 0 =? 1).
  - rewrite IH. unfold py_print. by rewrite !append_assoc.
  - unfold bind at 1. rewrite (load_cell h b a Hb Ha) by (assumption || lia).
    destruct (cell a row col 1 =? 1); rewrite IH; unfold py_print;
      by rewrite !append_assoc.
Qed.

Lemma print_rows_text h b a rows :
  h !! b = Some a → board_shape a → Forall (λ r, 0 ≤ r < 6) rows →
  ∀ out, print_rows b rows out h = (Ret (out +:+ rows_text a rows), h).
Proof.
  intros Hb Ha. induction 1 as [|row rows Hrow _ IH]; intros out.
  { cbn [print_cells print_rows cells_text rows_text].
    by rewrite append_nil_r. }
  cbn [print_rows rows_text]. unfold bind at 1.
  rewrite (print_cells_text h b a row (range 7) Hb Ha Hrow range7_columns).
  rewrite IH. unfold py_print. by rewrite !append_assoc.
Qed.

Lemma print_board_text h b a :
  h !! b = Some a → board_shape a →
  print_board b h = (Ret (board_text a), h).
Proof.
  intros Hb Ha. unfold print_board, bind.
  rewrite (print_rows_text h b a (range 6) Hb Ha).
  - unfold ret, py_print, board_text. by rewrite !append_assoc.
  - repeat constructor; cbn; lia.
Qed.

Lemma board_text_get a r c :
  0 ≤ r ≤ 5 → 0 ≤ c ≤ 6 →
  String.get (Z.to_nat (35 + 18 * r + 2 * c)) (board_text a) = Some (glyph a r c).
Proof.
  intros Hr Hc.
  assert (r = 0 ∨ r = 1 ∨ r = 2 ∨ r = 3 ∨ r = 4 ∨ r = 5)
    as [->|[->|[->|[->|[->| ->]]]]] by lia;
  assert (c = 0 ∨ c = 1 ∨ c = 2 ∨ c = 3 ∨ c = 4 ∨ c = 5 ∨ c = 6)
    as [->|[->|[->|[->|[->|[->| ->]]]]]] by lia;
  reflexivity.
Qed.

Lemma glyph_arr_get a r c :
  board_shape a → 0 ≤ r ≤ 5 → 0 ≤ c ≤ 6 →
  glyph a r c
  = (if decide (arr_get a r c 0 = Some 1) then "X"
     else if decide (arr_get a r c 1 = Some 1) then "O" else ".")%char.
Proof.
  intros Ha Hr Hc. unfold glyph.
  rewrite !(arr_get_cell a Ha) by lia.
  destruct (Z.eqb_spec (cell a r c 0) 1) as [->|H0].
  - by rewrite decide_True.
  - rewrite decide_False by congruence.
    destruct (Z.eqb_spec (cell a r c 1) 1) as [->|H1].
    + by rewrite decide_True.
    + by rewrite decide_False by congruence.
Qed.

(** X12. [print_board] prints 158 characters and leaves the board alone:
    two header lines, six lines of the grid and a closing line. The
    character for the cell in row [r] and column [c] is at position
    [35 + 18 r + 2 c]: X when channel 0 holds 1, else O when channel 1
    holds 1, else a dot. A cell set in both channels is shown as X. *)
Theorem print_board_shows_cells h b a :
  h !! b = Some a → board_shape a →
  ∃ text,
    print_board b h = (Ret text, h) ∧
    String.length text = 158%nat ∧
    ∀ r c, 0 ≤ r ≤ 5 → 0 ≤ c ≤ 6 →
      String.get (Z.to_nat (35 + 18 * r + 2 * c)) text
      = Some (if decide (arr_get a r c 0 = Some 1) then "X"
              else if decide (arr_get a r c 1 = Some 1) then "O" else ".")%char.
Proof.
  intros Hb Ha. exists (board_text a).
  split; [by apply print_board_text|]. split; [reflexivity|].
  intros r c Hr Hc. rewrite board_text_get by assumption.
  by rewrite glyph_arr_get.
Qed.

Lemma print_board_shows_cells_witness :
  ∃ text,
    print_board 0%nat [both_can_win] = (Ret text, [both_can_win]) ∧
    String.length text = 158%nat ∧
    ∀ r c, 0 ≤ r ≤ 5 → 0 ≤ c ≤ 6 →
      String.get (Z.to_nat (35 + 18 * r + 2 * c)) text
      = Some (if decide (arr_get both_can_win r c 0 = Some 1) then "X"
              else if decide (arr_get both_can_win r c 1 = Some 1) then "O"
              else ".")%char.
Proof.
  apply (print_board_shows_cells [both_can_win] 0%nat both_can_win).
  - reflexivity.
  - split; reflexivity.
Defined.

Example print_board_sample :
  fst (print_board 0%nat [both_can_win])
  = Ret ("  0 1 2 3 4 5 6" +:+ newline +:+
         " ---------------" +:+ newline +:+
         "| . . . . . . . |" +:+ newline +:+
         "| . . . . . . . |" +:+ newline +:+
         "| . . . . . . . |" +:+ newline +:+
         "| . . . . . . O |" +:+ newline +:+
         "| . . . . . . O |" +:+ newline +:+
         "| X X X . . . O |" +:+ newline +:+
         " ---------------" +:+ newline).
Proof. by vm_compute. Qed.

(** * Masks with more than seven entries *)

Lemma finishes_bind {A B} (m : M A) (k : A → M B) h v o :
  returns m h v → (∀ ext, finishes (k v) (h ++ ext) o) → finishes (bind m k) h o.
Proof.
  intros [ext Hm] Hk. destruct (Hk ext) as [ext' Hk'].
  exists (ext ++ ext'). unfold bind. rewrite Hm, Hk'. by rewrite app_assoc.
Qed.

Lemma finishes_raise {A B} (m : M A) (k : A → M B) h e :
  finishes m h (Raise e) → finishes (bind m k) h (Raise e).
Proof. intros [ext Hm]. exists ext. unfold bind. by rewrite Hm. Qed.

Lemma get_next_row_off_grid h b a col :
  h !! b = Some a → board_shape a → 7 ≤ col →
  _get_next_row b col h = (Raise IndexError, h).
Proof.
  intros Hb [Hs Hl] Hcol. unfold _get_next_row. cbn [next_row_loop].
  unfold bind, load. rewrite Hb.
  assert (arr_get a 5 col 0 = None) as ->; [|done].
  unfold arr_get, offset. rewrite Hs. cbn.
  unfold np_index.
  replace (col <? Z.of_nat 7) with false by (symmetry; apply Z.ltb_ge; lia).
  replace (col <? 0) with false by (symmetry; apply Z.ltb_ge; lia).
  by rewrite andb_false_r.
Qed.

Lemma find_winning_move_off_grid a fuel ch b pre c post :
  board_shape a → 0 ≤ ch < 2 → (8 ≤ fuel)%nat →
  Forall (λ x, 0 ≤ x < 7) pre → (∀ x, In x pre → wins a x ch = false) →
  7 ≤ c →
  ∀ h, h !! b = Some a →
       finishes (_find_winning_move fuel b (pre ++ c :: post) ch) h
                (Raise IndexError).
Proof.
  intros Ha Hch Hfuel Hpre Hlose Hc.
  induction Hpre as [|x pre Hx _ IH]; intros h Hb.
  - cbn [app _find_winning_move]. apply finishes_raise. exists [].
    rewrite app_nil_r. by apply (get_next_row_off_grid h b a).
  - cbn [app _find_winning_move].
    eapply finishes_bind.
    { apply returns_exact. by apply (get_next_row_landing h b a). }
    intros ext. pose proof (Hlose x ltac:(by left)) as Hw. unfold wins in Hw.
    assert (∀ h', h' !! b = Some a →
              finishes (_find_winning_move fuel b (pre ++ c :: post) ch) h'
                       (Raise IndexError)) as IH'.
    { apply IH. intros y Hy. apply Hlose. by right. }
    destruct (landing a x) as [row|] eqn:Hl; [|by apply IH', lookup_ext].
    pose proof (landing_range _ _ _ Hl) as Hrow.
    destruct (IH' (((h ++ ext) ++ [place a row x ch])))
      as [ext' Hrest]; [by do 2 apply lookup_ext|].
    exists ([place a row x ch] ++ ext').
    unfold bind, np_copy, store.
    rewrite (lookup_ext _ _ _ _ Hb), lookup_fresh.
    rewrite (arr_set_place a Ha) by assumption.
    replace (<[length (h ++ ext) := place a row x ch]> ((h ++ ext) ++ [a]))
      with ((h ++ ext) ++ [place a row x ch])
      by (rewrite insert_app_r_alt by lia; by rewrite Nat.sub_diag).
    rewrite (check_win_four _ _ (place a row x ch) fuel ch
               (lookup_fresh _ _) (place_shape a Ha row x ch) Hch Hfuel).
    rewrite Hw. rewrite Hrest. by rewrite <- app_assoc.
Qed.

(** X13. [choose_action] relies on a mask of seven entries. When a longer
    mask marks a column from 7 on as legal and no legal column of the grid
    wins for the mover, the call fails with the IndexError of
    [board[5, col, 0]] in [_get_next_row]; the board is not changed. *)
Theorem choose_action_long_mask fuel rnd o am mask h a i :
  obs_mask o am = Some mask → h !! obs_board o = Some a →
  board_shape a → (8 ≤ fuel)%nat →
  (7 ≤ i)%nat → mask !! i = Some 1 →
  (∀ c, 0 ≤ c < 7 → mask !! Z.to_nat c = Some 1 → ¬ completes a c 0) →
  ∃ ext, choose_action fuel rnd o am h = (Raise IndexError, h ++ ext).
Proof.
  intros Hm Hb Ha Hfuel Hi Hmi Hnowin.
  assert (In (Z.of_nat i) (_get_valid_actions mask)) as Hin.
  { apply valid_actions_spec. apply lookup_lt_Some in Hmi as Hlt.
    split; [lia|]. by rewrite Nat2Z.id. }
  destruct (List.find (λ c, 7 <=? c) (_get_valid_actions mask)) as [c|] eqn:Hf.
  2:{ pose proof (find_none _ _ Hf _ Hin) as Hno. cbv beta in Hno.
      apply Z.leb_gt in Hno. lia. }
  apply find_split in Hf as (pre & post & Hsplit & Hc & Hpre).
  apply Z.leb_le in Hc.
  assert (∀ x, In x pre → 0 ≤ x < 7 ∧ mask !! Z.to_nat x = Some 1) as Hlow.
  { intros x Hx. pose proof (Hpre x Hx) as Hlt. apply Z.leb_gt in Hlt.
    assert (In x (_get_valid_actions mask)) as Hxv.
    { rewrite Hsplit. apply in_or_app. by left. }
    apply valid_actions_spec in Hxv as [Hr Hxm]. split; [lia|done]. }
  destruct (find_winning_move_off_grid a fuel 0 (obs_board o) pre c post
              Ha ltac:(lia) Hfuel) with (h := h) as [ext Hrun]; try assumption.
  - apply List.Forall_forall. intros x Hx. by apply Hlow.
  - intros x Hx. destruct (Hlow x Hx) as [Hr Hxm].
    destruct (wins a x 0) eqn:Hw; [|done].
    apply wins_completes in Hw; [|assumption|assumption|lia].
    destruct (Hnowin x Hr Hxm Hw).
  - exists ext. unfold choose_action. rewrite Hm, Hsplit.
    unfold bind at 1. by rewrite Hrun.
Qed.

Lemma choose_action_long_mask_witness :
  ∃ ext,
    choose_action 8 0 (ObsArray 0%nat) (Some [0; 0; 0; 1; 0; 0; 0; 1]) [zeros]
    = (Raise IndexError, [zeros] ++ ext).
Proof.
  apply (choose_action_long_mask 8 0 (ObsArray 0%nat)
           (Some [0; 0; 0; 1; 0; 0; 0; 1]) [0; 0; 0; 1; 0; 0; 0; 1] [zeros] zeros
           7%nat).
  - reflexivity.
  - reflexivity.
  - split; reflexivity.
  - lia.
  - lia.
  - reflexivity.
  - intros c Hc Hm Hcomp.
    apply wins_completes in Hcomp; [|split; reflexivity|assumption|lia].
    assert (c = 0 ∨ c = 1 ∨ c = 2 ∨ c = 3 ∨ c = 4 ∨ c = 5 ∨ c = 6)
      as [->|[->|[->|[->|[->|[->| ->]]]]]] by lia;
      vm_compute in Hcomp; discriminate.
Defined.

(** * run_tournament *)

Lemma lookup_alter_cases {A} (g : A → A) (st : list A) i j e :
  st !! j = Some e →
  alter g i st !! j = Some (if (i =? j)%nat then g e else e).
Proof.
  intros He. destruct (Nat.eqb_spec i j) as [->|Hne].
  - by rewrite list_lookup_alter_eq, He.
  - by rewrite list_lookup_alter_ne.
Qed.

(** What one game changes: the counters of the two agents of the pair and
    the tallies of the pair. *)
Lemma record_game_entry play idx1 idx2 g s i e :
  Tournament.p_stats s !! i = Some e →
  ∃ e',
    Tournament.p_stats
      (Tournament.record_game idx1 idx2 g (play idx1 idx2 g) s) !! i = Some e' ∧
    Tournament.name e' = Tournament.name e ∧
    Tournament.wins e' =
      Tournament.wins e
      + Tournament.ind (idx1 =? i)%nat
        * Tournament.ind (Tournament.first_won play idx1 idx2 g)
      + Tournament.ind (idx2 =? i)%nat
        * Tournament.ind (Tournament.second_won play idx1 idx2 g) ∧
    Tournament.losses e' =
      Tournament.losses e
      + Tournament.ind (idx1 =? i)%nat
        * Tournament.ind (Tournament.second_won play idx1 idx2 g)
      + Tournament.ind (idx2 =? i)%nat
        * Tournament.ind (Tournament.first_won play idx1 idx2 g) ∧
    Tournament.draws e' =
      Tournament.draws e
      + (Tournament.ind (idx1 =? i)%nat + Tournament.ind (idx2 =? i)%nat)
        * Tournament.ind (Tournament.drawn play idx1 idx2 g).
Proof.
  intros He.
  unfold Tournament.record_game, Tournament.first_won, Tournament.second_won,
    Tournament.drawn.
  destruct (play idx1 idx2 g), (Nat.even g); cbn [Tournament.p_stats];
    (eexists; split;
     [apply lookup_alter_cases, lookup_alter_cases, He|]);
    destruct (idx1 =? i)%nat, (idx2 =? i)%nat; cbn; repeat split; lia.
Qed.

Lemma record_game_tallies play idx1 idx2 g s :
  let s' := Tournament.record_game idx1 idx2 g (play idx1 idx2 g) s in
  length (Tournament.p_stats s') = length (Tournament.p_stats s) ∧
  Tournament.pair_wins0 s' =
    Tournament.pair_wins0 s + Tournament.ind (Tournament.first_won play idx1 idx2 g) ∧
  Tournament.pair_wins1 s' =
    Tournament.pair_wins1 s + Tournament.ind (Tournament.second_won play idx1 idx2 g) ∧
  Tournament.pair_draws s' =
    Tournament.pair_draws s + Tournament.ind (Tournament.drawn play idx1 idx2 g) ∧
  Tournament.games_played s' = Tournament.games_played s + 1.
Proof.
  unfold Tournament.record_game, Tournament.first_won, Tournament.second_won,
    Tournament.drawn.
  destruct (play idx1 idx2 g), (Nat.even g); cbn;
    rewrite !length_alter; repeat split; lia.
Qed.

Lemma tally_cons p g games :
  Tournament.tally p (g :: games) = Tournament.ind (p g) + Tournament.tally p games.
Proof.
  unfold Tournament.tally, Tournament.ind. cbn [List.filter].
  destruct (p g); cbn [length]; lia.
Qed.

Lemma play_games_entry play idx1 idx2 games : ∀ s i e,
  Tournament.p_stats s !! i = Some e →
  ∃ e',
    Tournament.p_stats (Tournament.play_games play idx1 idx2 games s) !! i
    = Some e' ∧
    Tournament.name e' = Tournament.name e ∧
    Tournament.wins e' =
      Tournament.wins e
      + Tournament.ind (idx1 =? i)%nat
        * Tournament.tally (Tournament.first_won play idx1 idx2) games
      + Tournament.ind (idx2 =? i)%nat
        * Tournament.tally (Tournament.second_won play idx1 idx2) games ∧
    Tournament.losses e' =
      Tournament.losses e
      + Tournament.ind (idx1 =? i)%nat
        * Tournament.tally (Tournament.second_won play idx1 idx2) games
      + Tournament.ind (idx2 =? i)%nat
        * Tournament.tally (Tournament.first_won play idx1 idx2) games ∧
    Tournament.draws e' =
      Tournament.draws e
      + (Tournament.ind (idx1 =? i)%nat + Tournament.ind (idx2 =? i)%nat)
        * Tournament.tally (Tournament.drawn play idx1 idx2) games.
Proof.
  induction games as [|g games IH]; intros s i e He.
  - exists e. cbn. unfold Tournament.tally. cbn. repeat split; (done || lia).
  - cbn [Tournament.play_games].
    destruct (record_game_entry play idx1 idx2 g s i e He)
      as (e1 & He1 & Hn1 & Hw1 & Hl1 & Hd1).
    destruct (IH _ i e1 He1) as (e2 & He2 & Hn2 & Hw2 & Hl2 & Hd2).
    exists e2. split; [done|]. split; [congruence|].
    rewrite !tally_cons. repeat split; lia.
Qed.

Lemma play_games_tallies play idx1 idx2 games : ∀ s,
  let s' := Tournament.play_games play idx1 idx2 games s in
  length (Tournament.p_stats s') = length (Tournament.p_stats s) ∧
  Tournament.pair_wins0 s' =
    Tournament.pair_wins0 s
    + Tournament.tally (Tournament.first_won play idx1 idx2) games ∧
  Tournament.pair_wins1 s' =
    Tournament.pair_wins1 s
    + Tournament.tally (Tournament.second_won play idx1 idx2) games ∧
  Tournament.pair_draws s' =
    Tournament.pair_draws s
    + Tournament.tally (Tournament.drawn play idx1 idx2) games ∧
  Tournament.games_played s' = Tournament.games_played s + Z.of_nat (length games).
Proof.
  induction games as [|g games IH]; intros s.
  - cbn. unfold Tournament.tally. cbn. repeat split; lia.
  - cbn [Tournament.play_games].
    pose proof (record_game_tallies play idx1 idx2 g s) as (H0 & H1 & H2 & H3 & H4).
    pose proof (IH (Tournament.record_game idx1 idx2 g (play idx1 idx2 g) s))
      as (K0 & K1 & K2 & K3 & K4).
    cbv zeta. rewrite !tally_cons. cbn [length].
    repeat split; (congruence || lia).
Qed.

Lemma play_pairs_table play G pairs : ∀ s,
  let s' := Tournament.play_pairs play G pairs s in
  length (Tournament.l_stats s') = length (Tournament.l_stats s) ∧
  Tournament.l_head_to_head s' =
    Tournament.l_head_to_head s ++ Tournament.results play G pairs ∧
  Tournament.l_games_played s' =
    Tournament.l_games_played s + Z.of_nat (length pairs) * Z.of_nat (Z.to_nat G).
Proof.
  induction pairs as [|[idx1 idx2] pairs IH]; intros s.
  - cbn. rewrite app_nil_r. repeat split; lia.
  - cbn [Tournament.play_pairs]. cbv zeta.
    match goal with
    | |- context [Tournament.play_games play idx1 idx2 ?gs ?p0] =>
        pose proof (play_games_tallies play idx1 idx2 gs p0)
          as (H0 & H1 & H2 & H3 & H4);
        set (p := Tournament.play_games play idx1 idx2 gs p0) in *
    end.
    cbn [Tournament.p_stats Tournament.pair_wins0 Tournament.pair_wins1
         Tournament.pair_draws Tournament.games_played] in *.
    match goal with
    | |- context [Tournament.play_pairs play G pairs ?s1] =>
        pose proof (IH s1) as (K0 & K1 & K2)
    end.
    cbn [Tournament.l_stats Tournament.l_head_to_head Tournament.l_games_played]
      in *.
    split; [congruence|]. split.
    + rewrite K1, <- app_assoc. f_equal. cbn [Tournament.results map app fst snd].
      rewrite H1, H2, H3. rewrite !Z.add_0_l. reflexivity.
    + rewrite K2, H4, length_seq. cbn [length]. lia.
Qed.

Lemma play_pairs_entry play G pairs : ∀ s i e,
  Tournament.l_stats s !! i = Some e →
  ∃ e',
    Tournament.l_stats (Tournament.play_pairs play G pairs s) !! i = Some e' ∧
    Tournament.name e' = Tournament.name e ∧
    Tournament.wins e' =
      Tournament.wins e
      + Tournament.ledger Tournament.h_first Tournament.h_second i
          (Tournament.results play G pairs) ∧
    Tournament.losses e' =
      Tournament.losses e
      + Tournament.ledger Tournament.h_second Tournament.h_first i
          (Tournament.results play G pairs) ∧
    Tournament.draws e' =
      Tournament.draws e
      + Tournament.ledger Tournament.h_draws Tournament.h_draws i
          (Tournament.results play G pairs).
Proof.
  induction pairs as [|[idx1 idx2] pairs IH]; intros s i e He.
  - exists e. cbn. repeat split; (done || lia).
  - cbn [Tournament.play_pairs]. cbv zeta.
    match goal with
    | |- context [Tournament.play_games play idx1 idx2 ?gs ?p0] =>
        destruct (play_games_entry play idx1 idx2 gs p0 i e He)
          as (e1 & He1 & Hn1 & Hw1 & Hl1 & Hd1);
        set (p := Tournament.play_games play idx1 idx2 gs p0) in *
    end.
    match goal with
    | |- context [Tournament.play_pairs play G pairs ?s1] =>
        destruct (IH s1 i e1 He1) as (e2 & He2 & Hn2 & Hw2 & Hl2 & Hd2)
    end.
    exists e2. split; [done|]. split; [congruence|].
    cbn [Tournament.results map Tournament.ledger foldr fst snd
         Tournament.h_first Tournament.h_second Tournament.h_draws].
    fold (Tournament.results play G pairs).
    unfold Tournament.ledger in Hw2, Hl2, Hd2.
    repeat split; lia.
Qed.

Lemma run_tournament_report play names G :
  (2 ≤ length names)%nat →
  Tournament.run_tournament play names G
  = inr (let s := Tournament.play_pairs play G
                    (Tournament.combinations2 (length names))
                    {| Tournament.l_stats :=
                         map (λ nm, {| Tournament.wins := 0; Tournament.losses := 0;
                                       Tournament.draws := 0; Tournament.name := nm |})
                             names;
                       Tournament.l_head_to_head := [];
                       Tournament.l_games_played := 0 |} in
         {| Tournament.stats := Tournament.l_stats s;
            Tournament.head_to_head := Tournament.l_head_to_head s;
            Tournament.ranking :=
              Tournament.sorted_by_wins (Tournament.items (Tournament.l_stats s)) |}).
Proof.
  intros Hn. unfold Tournament.run_tournament.
  destruct (Nat.ltb_spec (length names) 2) as [Hlt|_]; [lia|]. reflexivity.
Qed.

Lemma initial_stats_lookup names i nm :
  names !! i = Some nm →
  map (λ nm, {| Tournament.wins := 0; Tournament.losses := 0;
                Tournament.draws := 0; Tournament.name := nm |}) names !! i
  = Some {| Tournament.wins := 0; Tournament.losses := 0;
            Tournament.draws := 0; Tournament.name := nm |}.
Proof. intros Hi. by rewrite list_lookup_fmap, Hi. Qed.

(** The counters of [stats] are the sums of the head-to-head table. *)
Lemma run_tournament_ledger play names G :
  (2 ≤ length names)%nat →
  ∃ r,
    Tournament.run_tournament play names G = inr r ∧
    length (Tournament.stats r) = length names ∧
    Tournament.head_to_head r
    = Tournament.results play G (Tournament.combinations2 (length names)) ∧
    ∀ i e,
      Tournament.stats r !! i = Some e →
      Tournament.wins e
      = Tournament.ledger Tournament.h_first Tournament.h_second i
          (Tournament.head_to_head r) ∧
      Tournament.losses e
      = Tournament.ledger Tournament.h_second Tournament.h_first i
          (Tournament.head_to_head r) ∧
      Tournament.draws e
      = Tournament.ledger Tournament.h_draws Tournament.h_draws i
          (Tournament.head_to_head r).
Proof.
  intros Hn. eexists. split; [by apply run_tournament_report|].
  cbv zeta. cbn [Tournament.stats Tournament.head_to_head].
  set (s0 := {| Tournament.l_stats := _; Tournament.l_head_to_head := [];
                Tournament.l_games_played := 0 |}).
  pose proof (play_pairs_table play G (Tournament.combinations2 (length names)) s0)
    as (Hlen & Htab & _).
  cbn [Tournament.l_stats Tournament.l_head_to_head s0] in Hlen, Htab.
  rewrite length_map in Hlen. rewrite app_nil_l in Htab.
  split; [exact Hlen|]. split; [exact Htab|].
  intros i e He.
  assert (i < length names)%nat as Hi.
  { apply lookup_lt_Some in He. lia. }
  destruct (lookup_lt_is_Some_2 names i Hi) as [nm Hnm].
  destruct (play_pairs_entry play G (Tournament.combinations2 (length names))
              s0 i _ (initial_stats_lookup names i nm Hnm))
    as (e' & He' & _ & Hw & Hl & Hd).
  rewrite He in He'. injection He' as <-. rewrite Htab.
  cbn in Hw, Hl, Hd. repeat split; lia.
Qed.

(** X14. The two tables [run_tournament] returns agree, whatever the
    games give. [head_to_head] has one entry per pair of agents, in the
    order of [combinations]: the games the first agent of the pair won
    (as player_0 in the even games, as player_1 in the odd ones), the
    games the second won, and the draws. In [stats] every agent keeps its
    name, and its wins, losses and draws are the sums of its head-to-head
    results over the pairs it belongs to. *)
Theorem tournament_tables_agree play names G :
  (2 ≤ length names)%nat →
  ∃ r,
    Tournament.run_tournament play names G = inr r ∧
    Tournament.head_to_head r
    = Tournament.results play G (Tournament.combinations2 (length names)) ∧
    map Tournament.name (Tournament.stats r) = names ∧
    ∀ i e,
      Tournament.stats r !! i = Some e →
      Tournament.wins e
      = Tournament.ledger Tournament.h_first Tournament.h_second i
          (Tournament.head_to_head r) ∧
      Tournament.losses e
      = Tournament.ledger Tournament.h_second Tournament.h_first i
          (Tournament.head_to_head r) ∧
      Tournament.draws e
      = Tournament.ledger Tournament.h_draws Tournament.h_draws i
          (Tournament.head_to_head r).
Proof.
  intros Hn.
  destruct (run_tournament_ledger play names G Hn) as (r & Hrun & Hlen & Htab & Hled).
  exists r. split; [done|]. split; [done|]. split; [|done].
  rewrite (run_tournament_report play names G Hn) in Hrun.
  injection Hrun as <-. cbn [Tournament.stats] in *.
  apply list_eq. intros i. rewrite list_lookup_fmap.
  destruct (names !! i) as [nm|] eqn:Hi.
  - match goal with
    | |- context [Tournament.play_pairs play G ?ps ?s0] =>
        destruct (play_pairs_entry play G ps s0 i _
                    (initial_stats_lookup names i nm Hi)) as (e' & He' & Hnm & _)
    end.
    rewrite He'. cbn. by rewrite Hnm.
  - apply lookup_ge_None in Hi.
    rewrite (proj2 (lookup_ge_None _ i)); [done|]. lia.
Qed.

Lemma tournament_tables_agree_witness :
  ∃ r,
    Tournament.run_tournament Tournament.first_mover_wins
      ["SmartAgent"; "RandomAgent"; "Third"]%string 4 = inr r ∧
    Tournament.head_to_head r
    = Tournament.results Tournament.first_mover_wins 4
        (Tournament.combinations2
           (length ["SmartAgent"; "RandomAgent"; "Third"]%string)) ∧
    map Tournament.name (Tournament.stats r)
    = ["SmartAgent"; "RandomAgent"; "Third"]%string ∧
    ∀ i e,
      Tournament.stats r !! i = Some e →
      Tournament.wins e
      = Tournament.ledger Tournament.h_first Tournament.h_second i
          (Tournament.head_to_head r) ∧
      Tournament.losses e
      = Tournament.ledger Tournament.h_second Tournament.h_first i
          (Tournament.head_to_head r) ∧
      Tournament.draws e
      = Tournament.ledger Tournament.h_draws Tournament.h_draws i
          (Tournament.head_to_head r).
Proof.
  apply (tournament_tables_agree Tournament.first_mover_wins
           ["SmartAgent"; "RandomAgent"; "Third"]%string 4).
  cbn. lia.
Defined.

Example tournament_sample :
  Tournament.run_tournament Tournament.first_mover_wins
    ["SmartAgent"; "RandomAgent"; "Third"]%string 4
  = inr {| Tournament.stats :=
             [ {| Tournament.wins := 4; Tournament.losses := 0;
                  Tournament.draws := 4; Tournament.name := "SmartAgent" |};
               {| Tournament.wins := 2; Tournament.losses := 2;
                  Tournament.draws := 4; Tournament.name := "RandomAgent" |};
               {| Tournament.wins := 0; Tournament.losses := 4;
                  Tournament.draws := 4; Tournament.name := "Third" |} ];
           Tournament.head_to_head :=
             [ ((0, 1)%nat, (2, 0, 2)); ((0, 2)%nat, (2, 0, 2));
               ((1, 2)%nat, (2, 0, 2)) ];
           Tournament.ranking :=
             [ (0%nat, {| Tournament.wins := 4; Tournament.losses := 0;
                          Tournament.draws := 4; Tournament.name := "SmartAgent" |});
               (1%nat, {| Tournament.wins := 2; Tournament.losses := 2;
                          Tournament.draws := 4; Tournament.name := "RandomAgent" |});
               (2%nat, {| Tournament.wins := 0; Tournament.losses := 4;
                          Tournament.draws := 4; Tournament.name := "Third" |}) ] |}.
Proof. by vm_compute. Qed.

(** ** Every game is counted once for each of its two agents *)

Lemma tally_partition play idx1 idx2 games :
  Tournament.tally (Tournament.first_won play idx1 idx2) games
  + Tournament.tally (Tournament.second_won play idx1 idx2) games
  + Tournament.tally (Tournament.drawn play idx1 idx2) games
  = Z.of_nat (length games).
Proof.
  induction games as [|g games IH]; [done|].
  rewrite !tally_cons. cbn [length].
  assert (Tournament.ind (Tournament.first_won play idx1 idx2 g)
          + Tournament.ind (Tournament.second_won play idx1 idx2 g)
          + Tournament.ind (Tournament.drawn play idx1 idx2 g) = 1) as Hone.
  { unfold Tournament.first_won, Tournament.second_won, Tournament.drawn,
      Tournament.ind.
    destruct (play idx1 idx2 g), (Nat.even g); cbn; lia. }
  lia.
Qed.

Lemma tally_nonneg p games : 0 ≤ Tournament.tally p games.
Proof. unfold Tournament.tally. lia. Qed.

Lemma ledger_app g1 g2 i t1 t2 :
  Tournament.ledger g1 g2 i (t1 ++ t2)
  = Tournament.ledger g1 g2 i t1 + Tournament.ledger g1 g2 i t2.
Proof.
  unfold Tournament.ledger.
  induction t1 as [|x t1 IH]; cbn [app foldr]; [lia|]. rewrite IH. lia.
Qed.

Lemma ind_cases b : Tournament.ind b = 0 ∨ Tournament.ind b = 1.
Proof. destruct b; cbn; auto. Qed.

(** The three counters of an agent add up to the games of its pairs. *)
Lemma ledger_total play G pairs i :
  Tournament.ledger Tournament.h_first Tournament.h_second i
    (Tournament.results play G pairs)
  + Tournament.ledger Tournament.h_second Tournament.h_first i
      (Tournament.results play G pairs)
  + Tournament.ledger Tournament.h_draws Tournament.h_draws i
      (Tournament.results play G pairs)
  = Z.of_nat (Z.to_nat G)
    * Tournament.ledger (λ _, 1) (λ _, 1) i (Tournament.results play G pairs).
Proof.
  induction pairs as [|[a b] pairs IH];
    [unfold Tournament.ledger; cbn [Tournament.results map foldr]; lia|].
  cbn [Tournament.results map]. fold (Tournament.results play G pairs).
  unfold Tournament.ledger in *. cbn [foldr fst snd].
  unfold Tournament.h_first, Tournament.h_second, Tournament.h_draws in *.
  cbn [fst snd].
  pose proof (tally_partition play a b (seq 0 (Z.to_nat G))) as Hp.
  rewrite length_seq in Hp.
  destruct (ind_cases (a =? i)%nat) as [-> | ->],
           (ind_cases (b =? i)%nat) as [-> | ->]; lia.
Qed.

Lemma ledger_nonneg play G pairs g1 g2 i :
  (∀ t, In t (map snd (Tournament.results play G pairs)) → 0 ≤ g1 t ∧ 0 ≤ g2 t) →
  0 ≤ Tournament.ledger g1 g2 i (Tournament.results play G pairs).
Proof.
  unfold Tournament.ledger.
  induction (Tournament.results play G pairs) as [|x t IH]; intros Hpos;
    cbn [foldr]; [lia|].
  destruct (Hpos (snd x)) as [H1 H2]; [by left|].
  specialize (IH (λ t' Ht', Hpos t' (or_intror Ht'))).
  destruct (ind_cases (fst (fst x) =? i)%nat) as [-> | ->],
           (ind_cases (snd (fst x) =? i)%nat) as [-> | ->]; lia.
Qed.

Lemma results_app play G l1 l2 :
  Tournament.results play G (l1 ++ l2)
  = Tournament.results play G l1 ++ Tournament.results play G l2.
Proof. unfold Tournament.results. apply map_app. Qed.

Lemma ledger_ones_row play G a i k : ∀ s,
  Tournament.ledger (λ _, 1) (λ _, 1) i
    (Tournament.results play G (map (λ b, (a, b)) (seq s k)))
  = Z.of_nat k * Tournament.ind (a =? i)%nat
    + Tournament.ind ((s <=? i)%nat && (i <? s + k)%nat).
Proof.
  unfold Tournament.ledger, Tournament.results.
  induction k as [|k IH]; intros s; cbn [seq map foldr fst snd].
  - unfold Tournament.ind.
    destruct (Nat.leb_spec s i), (Nat.ltb_spec i (s + 0)); cbn [andb]; lia.
  - rewrite IH. unfold Tournament.ind.
    destruct (a =? i)%nat;
      destruct (Nat.eqb_spec s i), (Nat.leb_spec (S s) i), (Nat.leb_spec s i),
        (Nat.ltb_spec i (S s + k)), (Nat.ltb_spec i (s + S k));
      cbn [andb]; lia.
Qed.

(** In [combinations(range(n), 2)] every agent is in [n - 1] pairs. *)
Lemma ledger_ones_combinations play G n i :
  (i < n)%nat →
  Tournament.ledger (λ _, 1) (λ _, 1) i
    (Tournament.results play G (Tournament.combinations2 n))
  = Z.of_nat n - 1.
Proof.
  intros Hi. unfold Tournament.combinations2.
  assert (∀ m, (m ≤ n)%nat →
    Tournament.ledger (λ _, 1) (λ _, 1) i
      (Tournament.results play G
         (flat_map (λ a, map (λ b, (a, b)) (seq (S a) (n - S a))) (seq 0 m)))
    = (if (i <? m)%nat then Z.of_nat n - 1 - Z.of_nat i else 0)
      + Z.of_nat (Nat.min m i)) as Hm.
  { induction m as [|m IH]; intros Hle.
    - unfold Tournament.ledger. cbn. lia.
    - rewrite seq_S, flat_map_app, results_app, ledger_app, IH by lia.
      cbn [flat_map Nat.add]. rewrite app_nil_r, ledger_ones_row.
      unfold Tournament.ind.
      destruct (Nat.eqb_spec m i), (Nat.ltb_spec i m), (Nat.ltb_spec i (S m)),
        (Nat.leb_spec (S m) i), (Nat.ltb_spec i (S m + (n - S m)));
        cbn [andb]; lia. }
  rewrite (Hm n) by lia.
  destruct (Nat.ltb_spec i n); lia.
Qed.

Lemma in_combinations2 n a b :
  In (a, b) (Tournament.combinations2 n) ↔ (a < b < n)%nat.
Proof.
  unfold Tournament.combinations2. rewrite in_flat_map. split.
  - intros (x & Hx & Hab). apply in_map_iff in Hab as (y & [= <- <-] & Hy).
    apply in_seq in Hx, Hy. lia.
  - intros Hab. exists a. split; [apply in_seq; lia|].
    apply in_map_iff. exists b. split; [done|]. apply in_seq. lia.
Qed.

(** ** Wins and losses balance *)

Lemma sum_alter_delta (f : Tournament.entry → Z) g d st : ∀ i,
  (∀ e, f (g e) = f e + d) → (i < length st)%nat →
  Tournament.sum_of f (alter g i st) = Tournament.sum_of f st + d.
Proof.
  unfold Tournament.sum_of.
  induction st as [|e st IH]; intros i Hg Hi; [cbn in Hi; lia|].
  destruct i as [|i]; cbn [alter list_alter foldr].
  - rewrite Hg. lia.
  - cbn in Hi. rewrite (IH i Hg) by lia. lia.
Qed.

Lemma record_game_balance play idx1 idx2 g s :
  (idx1 < length (Tournament.p_stats s))%nat →
  (idx2 < length (Tournament.p_stats s))%nat →
  Tournament.sum_of Tournament.wins
    (Tournament.p_stats (Tournament.record_game idx1 idx2 g (play idx1 idx2 g) s))
  - Tournament.sum_of Tournament.losses
      (Tournament.p_stats (Tournament.record_game idx1 idx2 g (play idx1 idx2 g) s))
  = Tournament.sum_of Tournament.wins (Tournament.p_stats s)
    - Tournament.sum_of Tournament.losses (Tournament.p_stats s).
Proof.
  intros H1 H2. unfold Tournament.record_game.
  destruct (play idx1 idx2 g), (Nat.even g); cbn [Tournament.p_stats].
  all: repeat
    (first
       [ rewrite (sum_alter_delta Tournament.wins Tournament.add_win 1)
       | rewrite (sum_alter_delta Tournament.wins Tournament.add_loss 0)
       | rewrite (sum_alter_delta Tournament.wins Tournament.add_draw 0)
       | rewrite (sum_alter_delta Tournament.losses Tournament.add_win 0)
       | rewrite (sum_alter_delta Tournament.losses Tournament.add_loss 1)
       | rewrite (sum_alter_delta Tournament.losses Tournament.add_draw 0) ];
     [|intros; cbn; lia|rewrite ?length_alter; lia]).
  all: lia.
Qed.

Lemma play_games_balance play idx1 idx2 games : ∀ s,
  (idx1 < length (Tournament.p_stats s))%nat →
  (idx2 < length (Tournament.p_stats s))%nat →
  Tournament.sum_of Tournament.wins
    (Tournament.p_stats (Tournament.play_games play idx1 idx2 games s))
  - Tournament.sum_of Tournament.losses
      (Tournament.p_stats (Tournament.play_games play idx1 idx2 games s))
  = Tournament.sum_of Tournament.wins (Tournament.p_stats s)
    - Tournament.sum_of Tournament.losses (Tournament.p_stats s).
Proof.
  induction games as [|g games IH]; intros s H1 H2; [done|].
  cbn [Tournament.play_games].
  pose proof (record_game_tallies play idx1 idx2 g s) as (Hlen & _).
  rewrite IH by (rewrite Hlen; assumption).
  by apply record_game_balance.
Qed.

Lemma play_pairs_balance play G pairs : ∀ s,
  (∀ a b, In (a, b) pairs →
          (a < length (Tournament.l_stats s))%nat ∧
          (b < length (Tournament.l_stats s))%nat) →
  Tournament.sum_of Tournament.wins
    (Tournament.l_stats (Tournament.play_pairs play G pairs s))
  - Tournament.sum_of Tournament.losses
      (Tournament.l_stats (Tournament.play_pairs play G pairs s))
  = Tournament.sum_of Tournament.wins (Tournament.l_stats s)
    - Tournament.sum_of Tournament.losses (Tournament.l_stats s).
Proof.
  induction pairs as [|[idx1 idx2] pairs IH]; intros s Hin; [done|].
  cbn [Tournament.play_pairs]. cbv zeta.
  destruct (Hin idx1 idx2 ltac:(by left)) as [H1 H2].
  match goal with
  | |- context [Tournament.play_games play idx1 idx2 ?gs ?p0] =>
      pose proof (play_games_tallies play idx1 idx2 gs p0) as (Hlen & _);
      pose proof (play_games_balance play idx1 idx2 gs p0 H1 H2) as Hbal;
      set (p := Tournament.play_games play idx1 idx2 gs p0) in *
  end.
  cbn [Tournament.p_stats] in Hlen, Hbal.
  rewrite IH; [exact Hbal|].
  intros a b Hab. cbn [Tournament.l_stats]. rewrite Hlen.
  apply Hin. by right.
Qed.

(** X15. The tournament table is conserved, whatever the games give.
    With fewer than two agents [run_tournament] raises ValueError.
    Otherwise there is one line per agent, no counter is negative, every
    agent's wins, losses and draws add up to the [(n - 1) * num_games]
    games it played, every head-to-head entry adds up to [num_games], and
    over all agents there are as many wins as losses. *)
Theorem tournament_conservation play names G :
  match Tournament.run_tournament play names G with
  | inl e => (length names < 2)%nat
  | inr r =>
      (2 ≤ length names)%nat ∧
      length (Tournament.stats r) = length names ∧
      (∀ i e,
         Tournament.stats r !! i = Some e →
         0 ≤ Tournament.wins e ∧ 0 ≤ Tournament.losses e ∧
         0 ≤ Tournament.draws e ∧
         Tournament.total e = (Z.of_nat (length names) - 1) * Z.max 0 G) ∧
      (∀ p w1 w2 d,
         In (p, (w1, w2, d)) (Tournament.head_to_head r) →
         0 ≤ w1 ∧ 0 ≤ w2 ∧ 0 ≤ d ∧ w1 + w2 + d = Z.max 0 G) ∧
      Tournament.sum_of Tournament.wins (Tournament.stats r)
      = Tournament.sum_of Tournament.losses (Tournament.stats r)
  end.
Proof.
  destruct (Nat.ltb_spec (length names) 2) as [Hlt|Hn].
  { unfold Tournament.run_tournament.
    by destruct (Nat.ltb_spec (length names) 2); [|lia]. }
  destruct (run_tournament_ledger play names G Hn)
    as (r & Hrun & Hlen & Htab & Hled).
  rewrite Hrun. split; [done|]. split; [done|].
  assert (∀ t, In t (map snd (Tournament.head_to_head r)) →
               0 ≤ Tournament.h_first t ∧ 0 ≤ Tournament.h_second t ∧
               0 ≤ Tournament.h_draws t ∧
               Tournament.h_first t + Tournament.h_second t + Tournament.h_draws t
               = Z.max 0 G) as Hentries.
  { intros t Ht. rewrite Htab in Ht. unfold Tournament.results in Ht.
    rewrite map_map in Ht. apply in_map_iff in Ht as ([a b] & <- & _).
    cbn [fst snd Tournament.h_first Tournament.h_second Tournament.h_draws].
    pose proof (tally_partition play a b (seq 0 (Z.to_nat G))) as Hp.
    rewrite length_seq in Hp.
    repeat split; try apply tally_nonneg. lia. }
  split; [|split].
  - intros i e He. destruct (Hled i e He) as (Hw & Hl & Hd).
    assert (i < length names)%nat as Hi.
    { apply lookup_lt_Some in He. lia. }
    rewrite Htab in Hw, Hl, Hd, Hentries.
    split; [|split; [|split]].
    + rewrite Hw. apply ledger_nonneg. intros t Ht.
      destruct (Hentries t Ht) as (? & ? & _). done.
    + rewrite Hl. apply ledger_nonneg. intros t Ht.
      destruct (Hentries t Ht) as (? & ? & _). done.
    + rewrite Hd. apply ledger_nonneg. intros t Ht.
      destruct (Hentries t Ht) as (_ & _ & ? & _). done.
    + unfold Tournament.total. rewrite Hw, Hl, Hd, ledger_total.
      rewrite ledger_ones_combinations by done. lia.
  - intros p w1 w2 d Hin.
    apply (Hentries (w1, w2, d)). apply in_map_iff. by exists (p, (w1, w2, d)).
  - rewrite (run_tournament_report play names G Hn) in Hrun.
    injection Hrun as <-. cbn [Tournament.stats].
    match goal with
    | |- context [Tournament.play_pairs play G ?ps ?s0] =>
        pose proof (play_pairs_balance play G ps s0) as Hbal
    end.
    cbn [Tournament.l_stats] in Hbal. rewrite length_map in Hbal.
    assert (∀ l : list string,
              Tournament.sum_of Tournament.wins
                (map (λ nm, {| Tournament.wins := 0; Tournament.losses := 0;
                               Tournament.draws := 0; Tournament.name := nm |}) l)
              = Tournament.sum_of Tournament.losses
                  (map (λ nm, {| Tournament.wins := 0; Tournament.losses := 0;
                                 Tournament.draws := 0; Tournament.name := nm |}) l))
      as Hzero.
    { intros l. unfold Tournament.sum_of.
      induction l as [|x l IH]; [done|]. cbn. cbn in IH. lia. }
    specialize (Hzero names).
    enough (Tournament.sum_of Tournament.wins
              (Tournament.l_stats
                 (Tournament.play_pairs play G
                    (Tournament.combinations2 (length names))
                    {| Tournament.l_stats :=
                         map (λ nm, {| Tournament.wins := 0;
                                       Tournament.losses := 0;
                                       Tournament.draws := 0;
                                       Tournament.name := nm |}) names;
                       Tournament.l_head_to_head := [];
                       Tournament.l_games_played := 0 |}))
            - Tournament.sum_of Tournament.losses
                (Tournament.l_stats
                   (Tournament.play_pairs play G
                      (Tournament.combinations2 (length names))
                      {| Tournament.l_stats :=
                           map (λ nm, {| Tournament.wins := 0;
                                         Tournament.losses := 0;
                                         Tournament.draws := 0;
                                         Tournament.name := nm |}) names;
                         Tournament.l_head_to_head := [];
                         Tournament.l_games_played := 0 |}))
            = 0) by lia.
    rewrite Hbal; [lia|].
    intros a b Hab. apply in_combinations2 in Hab. lia.
Qed.

(** ** The ranking *)

Lemma insert_by_wins_perm x l : Tournament.insert_by_wins x l ≡ₚ x :: l.
Proof.
  induction l as [|y l IH]; [done|]. cbn.
  destruct (_ <? _); [done|]. rewrite IH. apply Permutation_swap.
Qed.

Lemma insert_by_wins_sorted x l :
  StronglySorted Tournament.ranked_before l →
  (∀ y, In y l → (fst y < fst x)%nat) →
  StronglySorted Tournament.ranked_before (Tournament.insert_by_wins x l).
Proof.
  induction 1 as [|y l Hs IH Hy]; intros Hidx; cbn.
  { repeat constructor. }
  rewrite List.Forall_forall in Hy.
  destruct (Z.ltb_spec (Tournament.wins (snd y)) (Tournament.wins (snd x)))
    as [Hlt|Hge].
  - constructor; [by constructor; [|apply List.Forall_forall]|].
    constructor; [by left|]. apply List.Forall_forall. intros z Hz.
    destruct (Hy z Hz) as [Hw|[Hw _]]; left; lia.
  - constructor.
    + apply IH. intros z Hz. apply Hidx. by right.
    + apply List.Forall_forall. intros z Hz.
      apply (Permutation_in _ (insert_by_wins_perm x l)) in Hz as [<-|Hz].
      * assert (fst y < fst x)%nat by (apply Hidx; by left).
        unfold Tournament.ranked_before. lia.
      * by apply Hy.
Qed.

Lemma sorted_by_wins_spec its : ∀ acc,
  StronglySorted Tournament.ranked_before acc →
  StronglySorted (λ x y : nat * Tournament.entry, (fst x < fst y)%nat) its →
  (∀ x y, In x acc → In y its → (fst x < fst y)%nat) →
  foldl (λ acc x, Tournament.insert_by_wins x acc) acc its ≡ₚ acc ++ its ∧
  StronglySorted Tournament.ranked_before
    (foldl (λ acc x, Tournament.insert_by_wins x acc) acc its).
Proof.
  induction its as [|x its IH]; intros acc Hacc Hits Hlt.
  { cbn. by rewrite app_nil_r. }
  cbn [foldl]. apply StronglySorted_inv in Hits as [Hits Hx].
  rewrite List.Forall_forall in Hx.
  destruct (IH (Tournament.insert_by_wins x acc)) as [Hperm Hsorted].
  - apply insert_by_wins_sorted; [done|]. intros y Hy. apply Hlt; [done|by left].
  - done.
  - intros y z Hy Hz.
    apply (Permutation_in _ (insert_by_wins_perm x acc)) in Hy as [<-|Hy].
    + by apply Hx.
    + apply Hlt; [done|by right].
  - split; [|done]. rewrite Hperm, insert_by_wins_perm.
    cbn [app]. apply Permutation_middle.
Qed.

Lemma items_ascending (st : list Tournament.entry) : ∀ s n,
  StronglySorted (λ x y : nat * Tournament.entry, (fst x < fst y)%nat)
    (zip (seq s n) st).
Proof.
  induction st as [|e st IH]; intros s n; destruct n as [|n]; cbn;
    try constructor; [apply IH|].
  apply List.Forall_forall. intros [i e'] Hin.
  apply list_elem_of_In, elem_of_zip_l, list_elem_of_In, in_seq in Hin. cbn. lia.
Qed.

Lemma items_lookup (st : list Tournament.entry) i e :
  In (i, e) (Tournament.items st) ↔ st !! i = Some e.
Proof.
  unfold Tournament.items. rewrite <- list_elem_of_In, list_elem_of_lookup.
  split.
  - intros [k Hk]. apply lookup_zip_with_Some in Hk as (a & b & [= -> ->] & Ha & Hb).
    apply lookup_seq in Ha as [-> _]. done.
  - intros He. exists i. apply lookup_zip_with_Some. exists i, e.
    split; [done|]. split; [|done]. apply lookup_seq.
    apply lookup_lt_Some in He. split; [done|lia].
Qed.

(** X16. The ranking lists every agent of [stats] once, with its index
    and its counters, in descending order of wins; agents with the same
    number of wins stay in the order of [agents_classes]. *)
Theorem tournament_ranking play names G :
  (2 ≤ length names)%nat →
  ∃ r,
    Tournament.run_tournament play names G = inr r ∧
    Tournament.ranking r ≡ₚ Tournament.items (Tournament.stats r) ∧
    (∀ i e, In (i, e) (Tournament.ranking r) ↔ Tournament.stats r !! i = Some e) ∧
    length (Tournament.ranking r) = length names ∧
    StronglySorted Tournament.ranked_before (Tournament.ranking r).
Proof.
  intros Hn.
  destruct (run_tournament_ledger play names G Hn) as (r & Hrun & Hlen & _).
  exists r. split; [done|].
  assert (Tournament.ranking r
          = Tournament.sorted_by_wins (Tournament.items (Tournament.stats r)))
    as ->.
  { rewrite (run_tournament_report play names G Hn) in Hrun. by injection Hrun as <-. }
  destruct (sorted_by_wins_spec (Tournament.items (Tournament.stats r)) [])
    as [Hperm Hsorted].
  - constructor.
  - apply items_ascending.
  - by intros x y [].
  - rewrite app_nil_l in Hperm. fold (Tournament.sorted_by_wins
      (Tournament.items (Tournament.stats r))) in Hperm, Hsorted.
    split; [done|]. split; [|split; [|done]].
    + intros i e. rewrite <- items_lookup. split; apply Permutation_in; [done|].
      by symmetry.
    + rewrite (Permutation_length Hperm). unfold Tournament.items.
      rewrite length_zip, length_seq. lia.
Qed.

Lemma tournament_ranking_witness :
  ∃ r,
    Tournament.run_tournament Tournament.first_mover_wins
      ["SmartAgent"; "RandomAgent"; "Third"]%string 4 = inr r ∧
    Tournament.ranking r ≡ₚ Tournament.items (Tournament.stats r) ∧
    (∀ i e, In (i, e) (Tournament.ranking r) ↔ Tournament.stats r !! i = Some e) ∧
    length (Tournament.ranking r)
    = length ["SmartAgent"; "RandomAgent"; "Third"]%string ∧
    StronglySorted Tournament.ranked_before (Tournament.ranking r).
Proof.
  apply (tournament_ranking Tournament.first_mover_wins
           ["SmartAgent"; "RandomAgent"; "Third"]%string 4).
  cbn. lia.
Defined.

(** * The two players' views of a position *)

Section Mirror.
Variables (a a' : ndarray).
Hypothesis Ha : board_shape a.
Hypothesis Ha' : board_shape a'.
Hypothesis Hmir : mirrored a a'.

Lemma cell_mirrored r c ch :
  0 ≤ r < 6 → 0 ≤ c < 7 → 0 ≤ ch < 2 → cell a' r c (1 - ch) = cell a r c ch.
Proof using Ha Ha' Hmir.
  intros Hr Hc Hch. specialize (Hmir r c ch Hr Hc Hch).
  rewrite (arr_get_cell a Ha), (arr_get_cell a' Ha') in Hmir by lia.
  congruence.
Qed.

Lemma lit_mirrored ch r c : 0 ≤ ch < 2 → lit a' (1 - ch) r c = lit a ch r c.
Proof using Ha Ha' Hmir.
  intros Hch. unfold lit.
  destruct ((0 <=? r) && (r <? 6) && (0 <=? c) && (c <? 7)) eqn:Hg; [|done].
  apply grid_test in Hg as [Hr Hc]. cbn [andb].
  by rewrite cell_mirrored.
Qed.

Lemma run_length_mirrored ch sr sc n : 0 ≤ ch < 2 →
  ∀ r c, run_length n a' (1 - ch) sr sc r c = run_length n a ch sr sc r c.
Proof using Ha Ha' Hmir.
  intros Hch. induction n as [|n IH]; intros r c; [done|].
  cbn [run_length]. rewrite lit_mirrored by done. by rewrite IH.
Qed.

Lemma four_mirrored ch row col :
  0 ≤ ch < 2 → four a' row col (1 - ch) = four a row col ch.
Proof using Ha Ha' Hmir.
  intros Hch. unfold four. apply existsb_pointwise. intros d.
  unfold axis_total. by rewrite !run_length_mirrored.
Qed.

Lemma empty_at_mirrored r c :
  0 ≤ r < 6 → 0 ≤ c < 7 → empty_at a' r c = empty_at a r c.
Proof using Ha Ha' Hmir.
  intros Hr Hc. unfold empty_at.
  rewrite <- (cell_mirrored r c 0), <- (cell_mirrored r c 1) by lia.
  cbn. apply andb_comm.
Qed.

Lemma landing_mirrored col : 0 ≤ col < 7 → landing a' col = landing a col.
Proof using Ha Ha' Hmir.
  intros Hc. unfold landing. cbn [List.find].
  by rewrite !empty_at_mirrored by lia.
Qed.

Lemma place_mirrored row col ch :
  0 ≤ row < 6 → 0 ≤ col < 7 → 0 ≤ ch < 2 →
  mirrored (place a row col ch) (place a' row col (1 - ch)).
Proof using Ha Ha' Hmir.
  intros Hrow Hcol Hch r c k Hr Hc Hk.
  rewrite !arr_get_cell by (by apply place_shape || lia). f_equal.
  destruct (decide ((row, col, ch) = (r, c, k))) as [[= <- <- <-]|Hne].
  - by rewrite !cell_place_same by (assumption || lia).
  - rewrite !cell_place_other; try (assumption || lia).
    + by apply cell_mirrored.
    + intros [= E1 E2 E3]. apply Hne. f_equal; [f_equal|]; (done || lia).
Qed.
End Mirror.

Lemma wins_mirrored a a' col ch :
  board_shape a → board_shape a' → mirrored a a' →
  0 ≤ col < 7 → 0 ≤ ch < 2 → wins a' col (1 - ch) = wins a col ch.
Proof.
  intros Ha Ha' Hmir Hcol Hch. unfold wins.
  rewrite (landing_mirrored a a') by assumption.
  destruct (landing a col) as [row|] eqn:Hl; [|done].
  pose proof (landing_range _ _ _ Hl).
  apply four_mirrored; try (assumption || by apply place_shape).
  by apply place_mirrored.
Qed.

Lemma threat_mirrored a a' col ch :
  board_shape a → board_shape a' → mirrored a a' →
  0 ≤ col < 7 → 0 ≤ ch < 2 → threat a' col (1 - ch) = threat a col ch.
Proof.
  intros Ha Ha' Hmir Hcol Hch. unfold threat.
  rewrite (landing_mirrored a a') by assumption.
  destruct (landing a col) as [row|] eqn:Hl; [|done].
  pose proof (landing_range _ _ _ Hl).
  unfold winning_columns. do 2 f_equal.
  apply filter_ext_in. intros c Hc. apply in_range in Hc.
  apply wins_mirrored; try (assumption || by apply place_shape || lia).
  by apply place_mirrored.
Qed.

Lemma find_pointwise {A} (f g : A → bool) l :
  (∀ x, In x l → f x = g x) → List.find f l = List.find g l.
Proof.
  induction l as [|x l IH]; intros Hfg; [done|]. cbn.
  rewrite <- (Hfg x) by (by left). destruct (f x); [done|].
  apply IH. intros y Hy. apply Hfg. by right.
Qed.

(** X17. What is a block for one player is a win for the other. On the
    position as the opponent sees it (the two channels exchanged),
    [_find_winning_move] and [_creates_double_threat] for channel 0 answer
    what they answer for channel 1 on the mover's board. So when the mover
    has no winning column and the opponent has one, the column
    [choose_action] returns to block is the column [choose_action] returns
    to win on the opponent's view. *)
Theorem blocking_move_is_opponents_win fuel rnd mask h b a h' b' a' :
  h !! b = Some a → h' !! b' = Some a' → board_shape a → board_shape a' →
  mirrored a a' → (8 ≤ fuel)%nat → length mask = 7%nat →
  (∃ res,
     returns (_find_winning_move fuel b (_get_valid_actions mask) 1) h res ∧
     returns (_find_winning_move fuel b' (_get_valid_actions mask) 0) h' res) ∧
  (∀ col, 0 ≤ col ≤ 6 →
     ∃ t, returns (_creates_double_threat fuel b col 1) h t ∧
          returns (_creates_double_threat fuel b' col 0) h' t) ∧
  (∀ c,
     fst (_find_winning_move fuel b (_get_valid_actions mask) 0 h) = Ret None →
     fst (_find_winning_move fuel b (_get_valid_actions mask) 1 h) = Ret (Some c) →
     returns (choose_action fuel rnd (ObsArray b) (Some mask)) h c ∧
     returns (choose_action fuel rnd (ObsArray b') (Some mask)) h' c).
Proof.
  intros Hb Hb' Ha Ha' Hmir Hfuel Hl.
  pose proof (valid_actions_columns mask Hl) as Hv.
  assert (List.find (λ c, wins a' c 0) (_get_valid_actions mask)
          = List.find (λ c, wins a c 1) (_get_valid_actions mask)) as Hfind.
  { apply find_pointwise. intros x Hx. rewrite List.Forall_forall in Hv.
    apply (wins_mirrored a a' x 1); (assumption || lia || by apply Hv). }
  split; [|split].
  - exists (List.find (λ c, wins a c 1) (_get_valid_actions mask)). split.
    + apply find_winning_move_find; (assumption || lia).
    + rewrite <- Hfind. apply find_winning_move_find; (assumption || lia).
  - intros col Hcol. exists (threat a col 1). split.
    + apply creates_double_threat_threat; (assumption || lia).
    + rewrite <- (threat_mirrored a a' col 1) by (assumption || lia).
      apply creates_double_threat_threat; (assumption || lia).
  - intros c H0 H1.
    rewrite (returns_fst _ _ _
               (find_winning_move_find a fuel 0 Ha ltac:(lia) Hfuel b _ h Hb Hv))
      in H0.
    rewrite (returns_fst _ _ _
               (find_winning_move_find a fuel 1 Ha ltac:(lia) Hfuel b _ h Hb Hv))
      in H1.
    injection H0 as H0. injection H1 as H1.
    destruct (choose_action_policy fuel rnd (ObsArray b) (Some mask) mask h a)
      as [ext Hc]; try (assumption || reflexivity).
    destruct (choose_action_policy fuel rnd (ObsArray b') (Some mask) mask h' a')
      as [ext' Hc']; try (assumption || reflexivity).
    unfold policy in Hc, Hc'. rewrite H0, H1 in Hc.
    rewrite Hfind, H1 in Hc'.
    split; [by exists ext|by exists ext'].
Qed.

Lemma mirrored_samples : mirrored bottom_three opponent_bottom_three.
Proof.
  intros r c ch Hr Hc Hch.
  assert (r = 0 ∨ r = 1 ∨ r = 2 ∨ r = 3 ∨ r = 4 ∨ r = 5)
    as [->|[->|[->|[->|[->| ->]]]]] by lia;
  assert (c = 0 ∨ c = 1 ∨ c = 2 ∨ c = 3 ∨ c = 4 ∨ c = 5 ∨ c = 6)
    as [->|[->|[->|[->|[->|[->| ->]]]]]] by lia;
  assert (ch = 0 ∨ ch = 1) as [->| ->] by lia;
  reflexivity.
Qed.

Lemma blocking_move_is_opponents_win_witness :
  (∃ res,
     returns (_find_winning_move 8 1%nat (_get_valid_actions full_mask) 1)
             [bottom_three; opponent_bottom_three] res ∧
     returns (_find_winning_move 8 0%nat (_get_valid_actions full_mask) 0)
             [bottom_three; opponent_bottom_three] res) ∧
  (∀ col, 0 ≤ col ≤ 6 →
     ∃ t, returns (_creates_double_threat 8 1%nat col 1)
                  [bottom_three; opponent_bottom_three] t ∧
          returns (_creates_double_threat 8 0%nat col 0)
                  [bottom_three; opponent_bottom_three] t) ∧
  (∀ c,
     fst (_find_winning_move 8 1%nat (_get_valid_actions full_mask) 0
            [bottom_three; opponent_bottom_three]) = Ret None →
     fst (_find_winning_move 8 1%nat (_get_valid_actions full_mask) 1
            [bottom_three; opponent_bottom_three]) = Ret (Some c) →
     returns (choose_action 8 0 (ObsArray 1%nat) (Some full_mask))
             [bottom_three; opponent_bottom_three] c ∧
     returns (choose_action 8 0 (ObsArray 0%nat) (Some full_mask))
             [bottom_three; opponent_bottom_three] c).
Proof.
  apply (blocking_move_is_opponents_win 8 0 full_mask
           [bottom_three; opponent_bottom_three] 1%nat opponent_bottom_three
           [bottom_three; opponent_bottom_three] 0%nat bottom_three).
  - reflexivity.
  - reflexivity.
  - split; reflexivity.
  - split; reflexivity.
  - intros r c ch Hr Hc Hch. symmetry.
    replace ch with (1 - (1 - ch)) at 1 by lia.
    apply mirrored_samples; lia.
  - lia.
  - reflexivity.
Defined.

(** * More pieces never undo an alignment *)

Lemma run_length_more a a' ch sr sc n :
  board_shape a → board_shape a' → 0 ≤ ch < 2 → more_pieces a a' ch →
  ∀ r c, run_length n a ch sr sc r c ≤ run_length n a' ch sr sc r c.
Proof.
  intros Ha Ha' Hch Hmore. induction n as [|n IH]; intros r c; [done|].
  cbn [run_length]. destruct (lit a ch r c) eqn:Hl.
  - apply (lit_occupied a ch Ha Hch) in Hl. apply Hmore in Hl.
    apply (lit_occupied a' ch Ha' Hch) in Hl. rewrite Hl.
    specialize (IH (r + sr) (c + sc)). lia.
  - destruct (lit a' ch r c); [|lia].
    pose proof (run_length_bounds n a' ch sr sc (r + sr) (c + sc)). lia.
Qed.

(** X18. [_check_win_from_position] is monotone in the pieces of the
    channel: when it answers [True] on a board, it answers [True] on every
    board that has those pieces of the channel and possibly more. *)
Theorem check_win_monotone fuel h b a h' b' a' row col ch :
  h !! b = Some a → h' !! b' = Some a' →
  board_shape a → board_shape a' → 0 ≤ ch < 2 → (8 ≤ fuel)%nat →
  more_pieces a a' ch →
  fst (_check_win_from_position fuel b row col ch h) = Ret true →
  _check_win_from_position fuel b' row col ch h' = (Ret true, h').
Proof.
  intros Hb Hb' Ha Ha' Hch Hfuel Hmore.
  rewrite (check_win_four h b a), (check_win_four h' b' a') by assumption.
  cbn [fst]. intros [= Hfour].
  enough (four a' row col ch = true) as -> by reflexivity.
  unfold four in *. apply existsb_exists in Hfour as (d & Hd & Hge).
  apply existsb_exists. exists d. split; [done|].
  apply Z.geb_le in Hge. apply Z.geb_le. unfold axis_total in *.
  pose proof (run_length_more a a' ch (fst d) (snd d) 8 Ha Ha' Hch Hmore
                (row + fst d) (col + snd d)).
  pose proof (run_length_more a a' ch (- fst d) (- snd d) 8 Ha Ha' Hch Hmore
                (row - fst d) (col - snd d)).
  lia.
Qed.

Lemma check_win_monotone_witness :
  _check_win_from_position 8 1%nat 5 3 0 [bottom_three; both_can_win]
  = (Ret true, [bottom_three; both_can_win]).
Proof.
  apply (check_win_monotone 8 [bottom_three; both_can_win] 0%nat bottom_three
           [bottom_three; both_can_win] 1%nat both_can_win 5 3 0).
  - reflexivity.
  - reflexivity.
  - split; reflexivity.
  - split; reflexivity.
  - lia.
  - lia.
  - intros r c (Hr & Hc & Hv). split; [done|]. split; [done|].
    assert (r = 0 ∨ r = 1 ∨ r = 2 ∨ r = 3 ∨ r = 4 ∨ r = 5)
      as [->|[->|[->|[->|[->| ->]]]]] by lia;
    assert (c = 0 ∨ c = 1 ∨ c = 2 ∨ c = 3 ∨ c = 4 ∨ c = 5 ∨ c = 6)
      as [->|[->|[->|[->|[->|[->| ->]]]]]] by lia;
    (exact Hv || reflexivity).
  - by vm_compute.
Defined.
